(** * musicApp: the playback controller of [src/app/index.tsx]

    The [App] component keeps its playback state in React hooks
    ([sound], [isPlaying], [isSoundLoaded], [currentTrackIndex], [songs])
    and drives an asynchronous single-track audio engine (expo-av).  Every
    function of the component is a closure over the hook values of the
    render that created it, and every [await] suspends such a closure
    until the engine settles the promise.

    The embedding makes both explicit:
    - a [Render] is the tuple of hook values of one render, and each
      handler takes the render it closes over as an argument;
    - a [Task] is a suspended [async] function: the render it closes
      over, the program point it waits at, and what runs afterwards;
    - a [Sys] is the whole application: the hook values of the latest
      render, the closure of the last run of the [currentTrackIndex]
      effect, the engine, the suspended tasks and the console;
    - [step] runs one event to completion (a button press, a list press,
      a settled promise, the catalog query), then re-renders and flushes
      the effect whose dependency changed, and last resumes a handler
      whose [await] had nothing to wait for.

    Events are processed one at a time, and the component has re-rendered
    before the next one: a press runs the handler of the latest render.
    Promises may settle in any order. *)

From Stdlib Require Import ZArith Lia.
From stdpp Require Import base option list strings.

Local Open Scope Z_scope.

(** ** JavaScript numbers, as far as the component uses them

    [currentTrackIndex] is a JS number.  The component only adds and
    subtracts small integers and takes remainders, so a number is an
    integer (exact far below 2^53) or [NaN], which [x % 0] produces. *)
Module JS.

Inductive num : Type :=
| Num (z : Z)
| NaN.

Definition add (a b : num) : num :=
  match a, b with
  | Num x, Num y => Num (x + y)
  | _, _ => NaN
  end.

Definition sub (a b : num) : num :=
  match a, b with
  | Num x, Num y => Num (x - y)
  | _, _ => NaN
  end.

(** [a % b]: the sign follows the dividend; a zero divisor gives [NaN]. *)
Definition rem (a b : num) : num :=
  match a, b with
  | Num x, Num y => if y =? 0 then NaN else Num (Z.rem x y)
  | _, _ => NaN
  end.

(** [Object.is], which React uses to compare hook values and effect
    dependencies: [NaN] is equal to itself. *)
Definition object_is (a b : num) : bool :=
  match a, b with
  | Num x, Num y => x =? y
  | NaN, NaN => true
  | _, _ => false
  end.

(** [arr[i]]: [undefined] (here [None]) unless [i] is an index of [arr]. *)
Definition get {A : Type} (arr : list A) (i : num) : option A :=
  match i with
  | Num z => if 0 <=? z then arr !! Z.to_nat z else None
  | NaN => None
  end.

(** [arr.length] *)
Definition length {A : Type} (arr : list A) : num :=
  Num (Z.of_nat (List.length arr)).

End JS.

(** ** Data model *)

(** [interface Song] *)
Record Song : Type := mkSong {
  song_id : Z;
  title : string;
  uri : string;
  image : option string
}.

(** An [Audio.Sound] object, named by the order of its creation. *)
Abbreviation Handle := nat (only parsing).

(** The hook values of one render of [App]. *)
Record Render : Type := mkRender {
  sound : option Handle;
  isPlaying : bool;
  isSoundLoaded : bool;
  currentTrackIndex : JS.num;
  songs : list Song
}.

(** ** The audio engine *)

(** The engine (expo-av) is an external library; the component only
    calls it.  Its behaviour follows the contract of section 4.2 of the
    specification: [load] yields a handle or fails; [unload] is safe on a
    unit that is already unloaded; [play], [pause] and [stop] fail on a
    handle that is not in a playable state. *)

(** One [Audio.Sound]: the locator it was created from, whether the
    engine holds it loaded, whether it is playing. *)
Record SoundUnit : Type := mkUnit {
  unit_uri : string;
  unit_loaded : bool;
  unit_playing : bool
}.

(** The engine calls the component issues, in the order it issues them. *)
Inductive Call : Type :=
| CreateAsync (track : string)
| UnloadAsync (h : Handle)
| PlayAsync (h : Handle)
| PauseAsync (h : Handle)
| StopAsync (h : Handle).

Record Engine : Type := mkEngine {
  units : list SoundUnit;
  calls : list Call
}.

Definition is_loaded (e : Engine) (h : Handle) : bool :=
  match units e !! h with
  | Some u => unit_loaded u
  | None => false
  end.

Definition is_playing (e : Engine) (h : Handle) : bool :=
  match units e !! h with
  | Some u => unit_playing u
  | None => false
  end.

Definition set_playing (p : bool) (u : SoundUnit) : SoundUnit :=
  mkUnit (unit_uri u) (unit_loaded u) p.

Definition released (u : SoundUnit) : SoundUnit :=
  mkUnit (unit_uri u) false false.

Definition record_call (c : Call) (e : Engine) : Engine :=
  mkEngine (units e) (calls e ++ [c]).

(** Modelled from the spec: [h.unloadAsync()] of the engine.  It releases
    the unit, is safe on a unit that is already unloaded, and always
    resolves. *)
Definition engine_unload (h : Handle) (e : Engine) : Engine :=
  mkEngine (alter released h (units e)) (calls e ++ [UnloadAsync h]).

(** Modelled from the spec: [h.playAsync()], [h.pauseAsync()] and
    [h.stopAsync()] of the engine.  On a loaded unit the call takes
    effect and its promise resolves ([true]); on a unit that is not loaded
    the promise rejects ([false]). *)
Definition engine_transport (c : Call) (p : bool) (h : Handle) (e : Engine)
  : bool * Engine :=
  if is_loaded e h
  then (true, mkEngine (alter (set_playing p) h (units e)) (calls e ++ [c]))
  else (false, record_call c e).

Definition engine_play (h : Handle) : Engine -> bool * Engine :=
  engine_transport (PlayAsync h) true h.
Definition engine_pause (h : Handle) : Engine -> bool * Engine :=
  engine_transport (PauseAsync h) false h.
Definition engine_stop (h : Handle) : Engine -> bool * Engine :=
  engine_transport (StopAsync h) false h.

(** Modelled from the spec: a resolved [Audio.Sound.createAsync] of the
    engine.  It yields a fresh unit, loaded and, with [shouldPlay: false],
    paused.  Whether the call resolves or rejects is up to the
    environment (see [Settle]). *)
Definition engine_created (track : string) (e : Engine) : Handle * Engine :=
  (List.length (units e), mkEngine (units e ++ [mkUnit track true false]) (calls e)).

(** The units that hold engine resources. *)
Definition loaded_units (e : Engine) : list SoundUnit :=
  filter (fun u => unit_loaded u = true) (units e).

(** ** Suspended closures and the application state *)

Inductive LogEntry : Type :=
| Warn (msg : string)
| Error (msg : string).

(** Who called [loadTrack]: the [currentTrackIndex] effect, which ignores
    the promise, or [nextTrack] / [previousTrack], which await it and
    then call [playPauseTrack]. *)
Inductive Caller : Type :=
| FromEffect
| FromTransport.

(** A suspended [async] function: the render it closes over and the
    [await] it is parked at.
    - [AwaitUnload]: [loadTrack] at [await sound.unloadAsync()];
    - [AwaitCreate]: [loadTrack] at [await Audio.Sound.createAsync(...)],
      for the locator [track];
    - [AwaitPlayPause]: [playPauseTrack] at [await sound.pauseAsync()] or
      [await sound.playAsync()], with the outcome the engine has fixed;
    - [AwaitStop]: [stopTrack] at [await sound.stopAsync()], likewise. *)
Inductive Task : Type :=
| AwaitUnload (r : Render) (index : JS.num) (k : Caller)
| AwaitCreate (r : Render) (index : JS.num) (track : string) (k : Caller)
| AwaitPlayPause (r : Render) (ok : bool)
| AwaitStop (r : Render) (ok : bool).

(** The application: the hook values of the latest render, the render of
    the last run of the [currentTrackIndex] effect (its cleanup closes
    over it), the engine, the suspended closures, the console, and
    whether [insertSongs().then(fetchSongs)] is still pending. *)
Record Sys : Type := mkSys {
  view : Render;
  effectClosure : Render;
  engine : Engine;
  tasks : list Task;
  console : list LogEntry;
  dbPending : bool
}.

Local Open Scope string_scope.

(** ** Hook setters and other state updates

    A setter stores the value the next render will see; closures that
    already exist keep the values of their own render. *)

Definition with_view (f : Render -> Render) (s : Sys) : Sys :=
  mkSys (f (view s)) (effectClosure s) (engine s) (tasks s) (console s)
        (dbPending s).

Definition setSound (h : Handle) : Sys -> Sys :=
  with_view (fun r =>
    mkRender (Some h) (isPlaying r) (isSoundLoaded r) (currentTrackIndex r)
             (songs r)).

Definition setIsPlaying (b : bool) : Sys -> Sys :=
  with_view (fun r =>
    mkRender (sound r) b (isSoundLoaded r) (currentTrackIndex r) (songs r)).

Definition setIsSoundLoaded (b : bool) : Sys -> Sys :=
  with_view (fun r =>
    mkRender (sound r) (isPlaying r) b (currentTrackIndex r) (songs r)).

Definition setCurrentTrackIndex (n : JS.num) : Sys -> Sys :=
  with_view (fun r =>
    mkRender (sound r) (isPlaying r) (isSoundLoaded r) n (songs r)).

Definition setSongs (l : list Song) : Sys -> Sys :=
  with_view (fun r =>
    mkRender (sound r) (isPlaying r) (isSoundLoaded r) (currentTrackIndex r) l).

Definition set_engine (e : Engine) (s : Sys) : Sys :=
  mkSys (view s) (effectClosure s) e (tasks s) (console s) (dbPending s).

Definition set_tasks (ts : list Task) (s : Sys) : Sys :=
  mkSys (view s) (effectClosure s) (engine s) ts (console s) (dbPending s).

Definition set_effectClosure (r : Render) (s : Sys) : Sys :=
  mkSys (view s) r (engine s) (tasks s) (console s) (dbPending s).

Definition set_dbPending (b : bool) (s : Sys) : Sys :=
  mkSys (view s) (effectClosure s) (engine s) (tasks s) (console s) b.

Definition suspend (t : Task) (s : Sys) : Sys :=
  set_tasks (tasks s ++ [t]) s.

Definition console_log (l : LogEntry) (s : Sys) : Sys :=
  mkSys (view s) (effectClosure s) (engine s) (tasks s) (console s ++ [l])
        (dbPending s).

Definition msg_not_loaded : string := "Sound is not loaded yet.".
Definition msg_unable_to_stop : string := "Sound is not loaded, unable to stop.".
Definition msg_load_error : string := "Error loading audio track:".
Definition msg_play_pause_error : string := "Error in play/pause:".
Definition msg_stop_error : string := "Error stopping the track:".
Definition msg_fetch_error : string := "Error fetching songs:".

(** ** The functions of the component

    Each takes the render [r] whose closure it is. *)

(** [playPauseTrack], up to its [await]. *)
Definition playPauseTrack (r : Render) (s : Sys) : Sys :=
  match sound r with
  | Some h =>
      if isSoundLoaded r then
        let res := (if isPlaying r then engine_pause h else engine_play h)
                     (engine s) in
        suspend (AwaitPlayPause r (fst res)) (set_engine (snd res) s)
      else console_log (Warn msg_not_loaded) s
  | None => console_log (Warn msg_not_loaded) s
  end.

(** [playPauseTrack], after its [await]. *)
Definition playPauseTrack_resume (r : Render) (ok : bool) (s : Sys) : Sys :=
  if ok then setIsPlaying (negb (isPlaying r)) s
  else console_log (Error msg_play_pause_error) s.

(** [stopTrack], up to its [await]. *)
Definition stopTrack (r : Render) (s : Sys) : Sys :=
  match sound r with
  | Some h =>
      if isSoundLoaded r then
        let res := engine_stop h (engine s) in
        suspend (AwaitStop r (fst res)) (set_engine (snd res) s)
      else console_log (Warn msg_unable_to_stop) s
  | None => console_log (Warn msg_unable_to_stop) s
  end.

(** [stopTrack], after its [await]. *)
Definition stopTrack_resume (ok : bool) (s : Sys) : Sys :=
  if ok then setIsPlaying false s
  else console_log (Error msg_stop_error) s.

(** What runs when the promise of [loadTrack] resolves: nothing for the
    effect; [playPauseTrack()] of the same closure for [nextTrack] and
    [previousTrack]. *)
Definition loadTrack_return (r : Render) (k : Caller) (s : Sys) : Sys :=
  match k with
  | FromEffect => s
  | FromTransport => playPauseTrack r s
  end.

(** [loadTrack] from its [try] to its next [await], or to its end:
    [songs[index].uri] throws a [TypeError] when [songs[index]] is
    [undefined], the [catch] logs it and the promise of [loadTrack]
    resolves.  What the caller does with the resolved promise is not part
    of this function. *)
Definition loadTrack_try (r : Render) (index : JS.num) (k : Caller) (s : Sys)
  : Sys :=
  match JS.get (songs r) index with
  | Some song =>
      suspend (AwaitCreate r index (uri song) k)
              (set_engine (record_call (CreateAsync (uri song)) (engine s)) s)
  | None => console_log (Error msg_load_error) s
  end.

(** [loadTrack], from its call to its first [await], or to its end when
    it reaches none (no sound held and [songs[index]] undefined). *)
Definition loadTrack (r : Render) (index : JS.num) (k : Caller) (s : Sys)
  : Sys :=
  match sound r with
  | Some h =>
      suspend (AwaitUnload r index k) (set_engine (engine_unload h (engine s)) s)
  | None => loadTrack_try r index k s
  end.

(** Whether [loadTrack], called in the render [r], reaches an [await]. *)
Definition loadTrack_awaits (r : Render) (index : JS.num) : bool :=
  match sound r with
  | Some _ => true
  | None =>
      match JS.get (songs r) index with
      | Some _ => true
      | None => false
      end
  end.

(** [loadTrack], resumed after [await sound.unloadAsync()].  When its
    [try] throws, its promise resolves and its caller goes on in the same
    turn of the event loop; no hook value has been set since the
    [await], so no render and no effect come in between. *)
Definition loadTrack_unloaded (r : Render) (index : JS.num) (k : Caller)
    (s : Sys) : Sys :=
  match JS.get (songs r) index with
  | Some _ => loadTrack_try r index k s
  | None => loadTrack_return r k (loadTrack_try r index k s)
  end.

(** [loadTrack], after [await Audio.Sound.createAsync(...)]. *)
Definition loadTrack_created (r : Render) (track : string) (k : Caller)
    (ok : bool) (s : Sys) : Sys :=
  if ok then
    let res := engine_created track (engine s) in
    loadTrack_return r k
      (setIsSoundLoaded true (setSound (fst res) (set_engine (snd res) s)))
  else loadTrack_return r k (console_log (Error msg_load_error) s).

(** [nextTrack], up to the [await] in [loadTrack]; what follows
    [await loadTrack(...)] is [loadTrack_return], or [afterPress] when
    [loadTrack] did not suspend. *)
Definition nextIndex (r : Render) : JS.num :=
  JS.rem (JS.add (currentTrackIndex r) (JS.Num 1)) (JS.length (songs r)).

Definition nextTrack (r : Render) (s : Sys) : Sys :=
  loadTrack r (nextIndex r) FromTransport
            (setCurrentTrackIndex (nextIndex r) s).

(** [previousTrack], likewise. *)
Definition prevIndex (r : Render) : JS.num :=
  JS.rem (JS.add (JS.sub (currentTrackIndex r) (JS.Num 1)) (JS.length (songs r)))
         (JS.length (songs r)).

Definition previousTrack (r : Render) (s : Sys) : Sys :=
  loadTrack r (prevIndex r) FromTransport
            (setCurrentTrackIndex (prevIndex r) s).

(** The success and error callbacks of the query in [fetchSongs]
    ([None]: the query failed).  When [insertSongs] rejects, [fetchSongs]
    is never called and the query stays pending. *)
Definition fetchSongs_done (rows : option (list Song)) (s : Sys) : Sys :=
  match rows with
  | Some l => setSongs l s
  | None => console_log (Error msg_fetch_error) s
  end.

(** ** The [currentTrackIndex] effect *)

(** The cleanup returned by the previous run of the effect; the promise
    of [unloadAsync] is dropped. *)
Definition effect_cleanup (r : Render) (s : Sys) : Sys :=
  match sound r with
  | Some h => set_engine (engine_unload h (engine s)) s
  | None => s
  end.

(** The body of the effect, a closure of the render [r] it runs in. *)
Definition effect_run (r : Render) (s : Sys) : Sys :=
  loadTrack r (currentTrackIndex r) FromEffect (set_effectClosure r s).

(** Re-render after an event that started from the render [before]:
    the effect runs only when its dependency [currentTrackIndex] changed. *)
Definition rerender (before : Render) (s : Sys) : Sys :=
  if JS.object_is (currentTrackIndex before) (currentTrackIndex (view s))
  then s
  else effect_run (view s) (effect_cleanup (effectClosure s) s).

(** ** Mounting *)

Definition initialRender : Render :=
  mkRender None false false (JS.Num 0) [].

(** The first render and its two effects: the database is seeded and
    queried (settled later), and [loadTrack(currentTrackIndex)] runs. *)
Definition mount : Sys :=
  effect_run initialRender
    (mkSys initialRender initialRender (mkEngine [] []) [] [] true).

(** ** Events *)

Inductive Button : Type :=
| Previous
| PlayPause
| Stop
| Next.

Inductive Event : Type :=
| Press (b : Button)
| PressSong (index : nat)
| Settle (k : nat) (ok : bool)
| Fetched (rows : option (list Song)).

(** The transport buttons are rendered when
    [songs.length > 0 && songs[currentTrackIndex]]. *)
Definition transport_rendered (r : Render) : bool :=
  (0 <? List.length (songs r))%nat
  && bool_decide (is_Some (JS.get (songs r) (currentTrackIndex r))).

Definition onPress (b : Button) (r : Render) (s : Sys) : Sys :=
  match b with
  | Previous => previousTrack r s
  | PlayPause => playPauseTrack r s
  | Stop => stopTrack r s
  | Next => nextTrack r s
  end.

(** [nextTrack] and [previousTrack] after [await loadTrack(...)], when
    [loadTrack] reached no [await] of its own: the handler has returned,
    the component has re-rendered and its effect has run, and only then
    does the continuation call [playPauseTrack()], still the closure of
    the render of the press.  When [loadTrack] is suspended the
    continuation waits for it ([loadTrack_return]). *)
Definition afterPress (b : Button) (r : Render) (s : Sys) : Sys :=
  match b with
  | Previous =>
      if loadTrack_awaits r (prevIndex r) then s else playPauseTrack r s
  | PlayPause => s
  | Stop => s
  | Next =>
      if loadTrack_awaits r (nextIndex r) then s else playPauseTrack r s
  end.

Arguments afterPress !b r s : simpl nomatch.

(** Resume a suspended closure with the outcome of its promise.  The
    outcome of [createAsync] is the environment's; [unloadAsync] always
    resolves; the outcome of a transport call was fixed by the engine. *)
Definition resume (t : Task) (ok : bool) (s : Sys) : option Sys :=
  match t with
  | AwaitUnload r index k =>
      if ok then Some (loadTrack_unloaded r index k s) else None
  | AwaitCreate r index track k => Some (loadTrack_created r track k ok s)
  | AwaitPlayPause r ok0 =>
      if Bool.eqb ok ok0 then Some (playPauseTrack_resume r ok s) else None
  | AwaitStop r ok0 =>
      if Bool.eqb ok ok0 then Some (stopTrack_resume ok s) else None
  end.

(** One event, run to completion, then the re-render and what the
    handler left for after it.  [None]: the event cannot happen in [s]. *)
Definition step (s : Sys) (ev : Event) : option Sys :=
  let r := view s in
  match ev with
  | Press b =>
      if transport_rendered r
      then Some (afterPress b r (rerender r (onPress b r s)))
      else None
  | PressSong index =>
      if (index <? List.length (songs r))%nat
      then Some (rerender r (setCurrentTrackIndex (JS.Num (Z.of_nat index)) s))
      else None
  | Settle k ok =>
      match tasks s !! k with
      | Some t =>
          match resume t ok (set_tasks (delete k (tasks s)) s) with
          | Some s' => Some (rerender r s')
          | None => None
          end
      | None => None
      end
  | Fetched rows =>
      if dbPending s
      then Some (rerender r (fetchSongs_done rows (set_dbPending false s)))
      else None
  end.

Fixpoint run (s : Sys) (evs : list Event) : option Sys :=
  match evs with
  | [] => Some s
  | ev :: evs' =>
      match step s ev with
      | Some s' => run s' evs'
      | None => None
      end
  end.

Definition reachable (s : Sys) : Prop :=
  exists evs, run mount evs = Some s.

(** The seed of [insertSongs], with the ids the table assigns. *)
Definition hardcodedSongs : list Song :=
  [ mkSong 1 "Barro - Duki"
      "https://audio.jukehost.co.uk/SyEabX1oMUCZSBoR9FgGdL0hfQoPh0iG"
      (Some "https://i.scdn.co/image/ab67616d0000b273c43ff46b46af2ee509267b63");
    mkSong 2 "Enganchados #20 - DJ Sol"
      "https://audio.jukehost.co.uk/bJEkbddNGcu0yPEQm3z2NdUuX3TKH3Q2"
      (Some "https://yt3.googleusercontent.com/Wb3Tv03dV9EtUMJj6I4yynWVyvX6TGb367TQUlSq33fOHxt0d84ItAvPN0FepmzFCxADPjasRSo=s900-c-k-c0x00ffffff-no-rj");
    mkSong 3 "Hey Lil Mama - Eladio Carrion "
      "https://audio.jukehost.co.uk/mG4ce1SARwwOBRxUa83lDbNKpH7ZtIi2"
      (Some "https://i.scdn.co/image/ab67616d0000b273ec105eaf625391e95540ba97");
    mkSong 4 "Diabla - Kidd Keo"
      "https://audio.jukehost.co.uk/MuF9okvPZ8p5vEGof6XVqFwV5jyvnBq2"
      (Some "https://images.genius.com/df9ae33e3d087adc9df125e65081edd8.1000x1000x1.png");
    mkSong 5 "Secretos - C.R.O"
      "https://audio.jukehost.co.uk/2hDeS6FdQHl6Fm5vhXfLpfi5VoVWte9X"
      (Some "https://i.scdn.co/image/ab67616d0000b273717a4d2b63685f7b2a3d1b9c") ].


Local Close Scope string_scope.

(** ** Observations and invariants *)

(** The track of the sound the component holds, if the engine knows it. *)
Definition held_track (s : Sys) : option string :=
  match sound (view s) with
  | Some h => unit_uri <$> units (engine s) !! h
  | None => None
  end.

(** The hook values are consistent: the playing flag needs the loaded
    flag, and the loaded flag goes with a sound object. *)
Definition view_ok (v : Render) : Prop :=
  (isPlaying v = true -> isSoundLoaded v = true)
  /\ (isSoundLoaded v = true -> is_Some (sound v)).

(** A suspended closure never saw a loaded flag that the latest render
    has lost; a transport call is only in flight once the flag is set. *)
Definition task_ok (loaded : bool) (t : Task) : Prop :=
  match t with
  | AwaitUnload r _ _ => isSoundLoaded r = true -> loaded = true
  | AwaitCreate r _ _ _ => isSoundLoaded r = true -> loaded = true
  | AwaitPlayPause _ _ => loaded = true
  | AwaitStop _ _ => loaded = true
  end.

Definition flags_inv (s : Sys) : Prop :=
  view_ok (view s)
  /\ Forall (task_ok (isSoundLoaded (view s))) (tasks s).

(** [currentTrackIndex] is an index of the playlist, or [0] while the
    playlist is empty; the playlist is empty until the query settles. *)
Definition index_ok (r : Render) : Prop :=
  exists c : Z,
    currentTrackIndex r = JS.Num c
    /\ 0 <= c
    /\ (c < Z.of_nat (List.length (songs r)) \/ (songs r = [] /\ c = 0)).

Definition index_inv (s : Sys) : Prop :=
  index_ok (view s) /\ (dbPending s = true -> songs (view s) = []).

(** ** Scenarios *)

(** The catalog query answers with the seeded playlist. *)
Definition seeded : Event := Fetched (Some hardcodedSongs).

(** The state a run from [mount] ends in ([mount] itself when an event of
    the run cannot happen). *)
Definition after (evs : list Event) : Sys := default mount (run mount evs).

(** Track 2 is loaded; then the list items 0 and 1 are pressed in a row,
    both loads get under way, and the load of track 1 completes before
    the load of track 0. *)
Definition select_0_then_1 : list Event :=
  [seeded; PressSong 2; Settle 0 true; PressSong 0; PressSong 1;
   Settle 0 true; Settle 0 true].

Definition second_load_completes_first : list Event :=
  select_0_then_1 ++ [Settle 1 true; Settle 0 true].

(** Track 1 is loaded, and then playing. *)
Definition track_1_loaded : list Event :=
  [seeded; PressSong 1; Settle 0 true].

Definition track_1_playing : list Event :=
  track_1_loaded ++ [Press PlayPause; Settle 0 true].

(** Track 1 is loaded; list item 2 is pressed, the old sound is unloaded
    and the engine fails to load track 2. *)
Definition load_of_track_2_fails : list Event :=
  track_1_loaded ++ [PressSong 2; Settle 0 true; Settle 0 false].

(** The same while track 1 is playing. *)
Definition failed_switch_while_playing : list Event :=
  track_1_playing ++ [PressSong 2; Settle 0 true; Settle 0 false].

(** Next is pressed once on the freshly seeded player; the load started
    by the effect completes first. *)
Definition next_effect_load_first : list Event :=
  [seeded; Press Next; Settle 1 true].

(** The index a suspended [loadTrack] is loading. *)
Definition loading (t : Task) : option JS.num :=
  match t with
  | AwaitUnload _ index _ => Some index
  | AwaitCreate _ index _ _ => Some index
  | AwaitPlayPause _ _ => None
  | AwaitStop _ _ => None
  end.

(** Track 1 is loaded; list item 2 is pressed and the old sound is
    unloaded, but the load of track 2 has not completed. *)
Definition switching_to_track_2 : list Event :=
  track_1_loaded ++ [PressSong 2; Settle 0 true].

(** The locator of the seeded track [i]. *)
Definition track (i : nat) : string :=
  default EmptyString (uri <$> hardcodedSongs !! i).

(** Next (or Previous) is pressed while a sound is held, and every
    promise settles: the two [unloadAsync] of the old sound, the two
    [createAsync], and the play/pause call, which the engine rejects. *)
Definition press_and_settle (b : Button) : list Event :=
  [Press b; Settle 0 true; Settle 0 true; Settle 0 true; Settle 0 true;
   Settle 0 false].

Definition next_while_playing : list Event :=
  track_1_playing ++ press_and_settle Next.

Definition previous_while_paused : list Event :=
  track_1_loaded ++ press_and_settle Previous.

(** Next is pressed once on the freshly seeded player, and both loads
    complete; then list item 3 is pressed and its load completes. *)
Definition next_from_start : list Event :=
  [seeded; Press Next; Settle 0 true; Settle 0 true].

Definition next_then_select_3 : list Event :=
  next_from_start ++ [PressSong 3; Settle 0 true; Settle 0 true].

(** List items 1, 2 and 3 are pressed, each after the previous load has
    completed. *)
Definition three_selections : list Event :=
  [seeded; PressSong 1; Settle 0 true;
   PressSong 2; Settle 0 true; Settle 0 true;
   PressSong 3; Settle 0 true; Settle 0 true].

(** ** Further observations *)

(** The render a suspended closure closes over, and who awaits it. *)
Definition closure (t : Task) : Render :=
  match t with
  | AwaitUnload r _ _ => r
  | AwaitCreate r _ _ _ => r
  | AwaitPlayPause r _ => r
  | AwaitStop r _ => r
  end.

Definition caller (t : Task) : option Caller :=
  match t with
  | AwaitUnload _ _ k => Some k
  | AwaitCreate _ _ _ k => Some k
  | AwaitPlayPause _ _ => None
  | AwaitStop _ _ => None
  end.

(** The same button pressed [n] times in a row. *)
Definition presses (b : Button) (n : nat) : list Event :=
  replicate n (Press b).

(** What [App] renders above the list: the title and artwork of the
    current track with the label of the play/pause button when
    [songs.length > 0 && songs[currentTrackIndex]], and the placeholder
    text otherwise. *)
Inductive Screen : Type :=
| Player (trackTitle : string) (artwork : option string) (playLabel : string)
| LoadingSongs.

Definition screen (r : Render) : Screen :=
  if transport_rendered r then
    match JS.get (songs r) (currentTrackIndex r) with
    | Some song =>
        Player (title song) (image song)
               (if isPlaying r then "Pause"%string else "Play"%string)
    | None => LoadingSongs
    end
  else LoadingSongs.

(** A property of sound objects that holds of the sound of the latest
    render and of the sound of every closure that can still run: the
    cleanup of the last effect and the suspended functions. *)
Definition closures_ok (Q : option Handle -> Prop) (s : Sys) : Prop :=
  Q (sound (view s))
  /\ Q (sound (effectClosure s))
  /\ Forall (fun t => Q (sound (closure t))) (tasks s).

(** No render that can still act holds the sound [h]. *)
Definition clear_of (h : Handle) (s : Sys) : Prop :=
  closures_ok (fun o => o <> Some h) s.

(** The hook values and the engine agree about the held sound [h]. *)
Definition in_sync (s : Sys) (h : Handle) : Prop :=
  sound (view s) = Some h
  /\ isSoundLoaded (view s) = true
  /\ is_loaded (engine s) h = true
  /\ is_playing (engine s) h = isPlaying (view s).

(** The suspended [loadTrack] calls. *)
Definition loads_in_flight (s : Sys) : nat :=
  List.length (filter (fun t => is_Some (loading t)) (tasks s)).

(** Using the player one load at a time: no Next or Previous, and a list
    item is pressed only when no [loadTrack] is suspended. *)
Definition careful (s : Sys) (ev : Event) : bool :=
  match ev with
  | Press Next => false
  | Press Previous => false
  | PressSong _ => (loads_in_flight s =? 0)%nat
  | _ => true
  end.

Fixpoint careful_run (s : Sys) (evs : list Event) : option Sys :=
  match evs with
  | [] => Some s
  | ev :: evs' =>
      if careful s ev then
        match step s ev with
        | Some s' => careful_run s' evs'
        | None => None
        end
      else None
  end.

Definition is_create (c : Call) : bool :=
  match c with
  | CreateAsync _ => true
  | _ => false
  end.

(** Every loaded unit is the held one; at most one [loadTrack] is
    suspended, and while one is, no unit is loaded. *)
Definition one_unit_inv (s : Sys) : Prop :=
  (forall j : nat, is_loaded (engine s) j = true -> sound (view s) = Some j)
  /\ (loads_in_flight s <= 1)%nat
  /\ (loads_in_flight s <> 0%nat ->
      forall j : nat, is_loaded (engine s) j = false).

(** The engine has only been asked to load, has not delivered a sound
    yet, and every suspended function is a [loadTrack]. *)
Definition only_loads_requested (s : Sys) : Prop :=
  units (engine s) = []
  /\ Forall (fun c => is_create c = true) (calls (engine s))
  /\ Forall (fun t => is_Some (loading t)) (tasks s).

(** While the playlist is empty nothing has happened yet. *)
Definition idle_inv (s : Sys) : Prop :=
  songs (view s) = [] ->
  view s = initialRender
  /\ effectClosure s = initialRender
  /\ tasks s = []
  /\ engine s = mkEngine [] [].

(** While the loaded flag is down no closure holds a sound and only loads
    have been requested. *)
Definition unloaded_inv (s : Sys) : Prop :=
  isSoundLoaded (view s) = false ->
  closures_ok (fun o => o = None) s /\ only_loads_requested s.

(** Every sound a closure holds is a unit of the engine. *)
Definition valid_handles (s : Sys) : Prop :=
  closures_ok
    (fun o => forall h : nat,
       o = Some h -> (h < List.length (units (engine s)))%nat) s.

(** A [loadTrack] suspended at the unload of its sound: the engine has
    released that sound. *)
Definition released_ok (e : Engine) (t : Task) : Prop :=
  match t with
  | AwaitUnload r _ _ =>
      exists h : nat, sound r = Some h /\ is_loaded e h = false
  | _ => True
  end.

Definition release_inv (s : Sys) : Prop :=
  valid_handles s /\ Forall (released_ok (engine s)) (tasks s).

(** ** The catalog: [initializeDatabase], [insertSong], [insertSongs],
       [fetchSongs]

    The four SQL statements of the component.  The database (expo-sqlite)
    is an external library: the functions below are written against an
    arbitrary store [exec], which answers a statement with the new store
    and the rows it returns, or fails ([None]).  The statements that a
    transaction callback queues are all sent to the database, in order,
    and a failed statement leaves the store as it was; when the error
    callback of a failed statement returns [true], the callbacks of the
    statements after it are not called and the transaction is rolled back
    as a whole.  Transactions run in the order they were opened. *)

Inductive Sql : Type :=
| DropSongs
    (* DROP TABLE IF EXISTS songs; *)
| CreateSongs
    (* CREATE TABLE IF NOT EXISTS songs (id INTEGER PRIMARY KEY
       AUTOINCREMENT, title TEXT NOT NULL, uri TEXT NOT NULL, image TEXT); *)
| InsertSong (title uri image : string)
    (* INSERT INTO songs (title, uri, image) VALUES (?, ?, ?); *)
| SelectSongs.
    (* SELECT * FROM songs; *)

Inductive DbLog : Type :=
| Logged (msg : string)
| Failed (msg : string).

(** The database as the component drives it: the store, the statements
    executed so far, and what the callbacks logged. *)
Record Db (Store : Type) : Type := mkDb {
  store : Store;
  issued : list Sql;
  dbConsole : list DbLog
}.

Arguments mkDb {Store} _ _ _.
Arguments store {Store} _.
Arguments issued {Store} _.
Arguments dbConsole {Store} _.

Section Catalog.

Variable Store : Type.
Variable exec : Store -> Sql -> option (Store * list Song).

(** [initializeDatabase]: one transaction whose callback queues two
    statements, so both are issued whatever the first one does; each
    error callback logs and returns [true], which rolls the transaction
    back: the store is then what it was before the transaction.  (The
    logged texts are the source's, without the quotes around the table
    name.) *)
Definition initializeDatabase (db : Db Store) : Db Store :=
  match exec (store db) DropSongs with
  | None =>
      mkDb (store db) (issued db ++ [DropSongs; CreateSongs])
           (dbConsole db ++ [Failed "Error dropping table:"%string])
  | Some (st1, _) =>
      match exec st1 CreateSongs with
      | None =>
          mkDb (store db) (issued db ++ [DropSongs; CreateSongs])
               (dbConsole db
                ++ [Logged "Table songs dropped successfully."%string;
                    Failed "Error creating table:"%string])
      | Some (st2, _) =>
          mkDb st2 (issued db ++ [DropSongs; CreateSongs])
               (dbConsole db
                ++ [Logged "Table songs dropped successfully."%string;
                    Logged "Table songs created successfully."%string])
      end
  end.

(** [insertSong]: the promise resolves ([true]) when the statement
    succeeds; otherwise the error callback logs, rejects and returns
    [false]. *)
Definition insertSong (song : string * string * string) (db : Db Store)
  : bool * Db Store :=
  let q := InsertSong song.1.1 song.1.2 song.2 in
  match exec (store db) q with
  | Some (st', _) => (true, mkDb st' (issued db ++ [q]) (dbConsole db))
  | None =>
      (false, mkDb (store db) (issued db ++ [q])
                (dbConsole db ++ [Failed "Error inserting song:"%string]))
  end.

(** The loop of [insertSongs], [for (const song of ...) await
    insertSong(...)], over the songs still to insert: a rejected insert
    rejects [insertSongs] and ends the loop. *)
Fixpoint insertSongs_loop (todo : list (string * string * string))
    (db : Db Store) : bool * Db Store :=
  match todo with
  | [] => (true, db)
  | song :: todo' =>
      let res := insertSong song db in
      if res.1 then insertSongs_loop todo' res.2 else (false, res.2)
  end.

(** [fetchSongs]: the query and the argument its callbacks pass on to
    the component ([Some rows] to [setSongs], [None] when it fails). *)
Definition fetchSongs (db : Db Store) : option (list Song) * Db Store :=
  match exec (store db) SelectSongs with
  | Some (st', rows) =>
      (Some rows, mkDb st' (issued db ++ [SelectSongs]) (dbConsole db))
  | None =>
      (None, mkDb (store db) (issued db ++ [SelectSongs])
               (dbConsole db ++ [Failed msg_fetch_error]))
  end.

(** The mount effect, [initializeDatabase(); insertSongs().then(fetchSongs)],
    for the songs [seed]: the event it delivers to the component, if any,
    and the database afterwards. *)
Definition startup (seed : list (string * string * string)) (st : Store)
  : option Event * Db Store :=
  let db1 := initializeDatabase (mkDb st [] []) in
  let res := insertSongs_loop seed db1 in
  if res.1 then
    let fetched := fetchSongs res.2 in
    (Some (Fetched fetched.1), fetched.2)
  else (None, res.2).

End Catalog.

(** The songs of [insertSongs], as its literal lists them. *)
Definition seedSongs : list (string * string * string) :=
  (fun song => (title song, uri song, default EmptyString (image song)))
    <$> hardcodedSongs.

(** [insertSongs] *)
Definition insertSongs (Store : Type)
    (exec : Store -> Sql -> option (Store * list Song)) (db : Db Store)
  : bool * Db Store :=
  insertSongs_loop Store exec seedSongs db.

Definition insert_of (song : string * string * string) : Sql :=
  InsertSong song.1.1 song.1.2 song.2.

(** Modelled from the spec: the catalog store of section 4.1, an ordered
    collection of track records that assigns each record a unique id on
    creation and lists them in creation order.  It is the table [songs]
    of the four statements: absent or present with its rows, and the last
    id assigned, which starts again when the table is dropped.  No
    statement fails except on a table that is not there. *)
Record Table : Type := mkTable {
  rows : option (list Song);
  lastId : Z
}.

Definition sqlite (t : Table) (q : Sql) : option (Table * list Song) :=
  match q with
  | DropSongs => Some (mkTable None 0, [])
  | CreateSongs =>
      match rows t with
      | Some _ => Some (t, [])
      | None => Some (mkTable (Some []) (lastId t), [])
      end
  | InsertSong ti u im =>
      match rows t with
      | Some l =>
          Some (mkTable (Some (l ++ [mkSong (lastId t + 1) ti u (Some im)]))
                        (lastId t + 1), [])
      | None => None
      end
  | SelectSongs =>
      match rows t with
      | Some l => Some (t, l)
      | None => None
      end
  end.

(** The rows that a fresh table holds after the songs [seed] were
    inserted, the first with the id after [from]. *)
Fixpoint numbered (from : Z) (seed : list (string * string * string))
  : list Song :=
  match seed with
  | [] => []
  | song :: seed' =>
      mkSong (from + 1) song.1.1 song.1.2 (Some song.2)
      :: numbered (from + 1) seed'
  end.

(** A suspended [loadTrack] is for a song of the playlist of its render,
    and the locator it asks the engine for is that song's. *)
Definition load_ok (t : Task) : Prop :=
  match t with
  | AwaitUnload r index _ => is_Some (JS.get (songs r) index)
  | AwaitCreate r index track _ =>
      uri <$> JS.get (songs r) index = Some track
  | _ => True
  end.

(** * Properties *)

(** ** How each function touches the hook values *)

Section ViewFrame.

Variables (r : Render) (s : Sys).

Lemma view_playPauseTrack : view (playPauseTrack r s) = view s.
Proof. unfold playPauseTrack. repeat case_match; reflexivity. Qed.

Lemma view_stopTrack : view (stopTrack r s) = view s.
Proof. unfold stopTrack. repeat case_match; reflexivity. Qed.

Lemma view_loadTrack_return k : view (loadTrack_return r k s) = view s.
Proof. destruct k; simpl; [reflexivity | apply view_playPauseTrack]. Qed.

End ViewFrame.

Lemma view_loadTrack_try r index k s : view (loadTrack_try r index k s) = view s.
Proof. unfold loadTrack_try. case_match; reflexivity. Qed.

Lemma view_loadTrack_unloaded r index k s :
  view (loadTrack_unloaded r index k s) = view s.
Proof.
  unfold loadTrack_unloaded.
  case_match; rewrite ?view_loadTrack_return; apply view_loadTrack_try.
Qed.

Lemma view_loadTrack r index k s : view (loadTrack r index k s) = view s.
Proof.
  unfold loadTrack. case_match; [reflexivity | apply view_loadTrack_try].
Qed.

Lemma view_afterPress b r s : view (afterPress b r s) = view s.
Proof.
  destruct b; unfold afterPress; try reflexivity;
    case_match; try reflexivity; apply view_playPauseTrack.
Qed.

Lemma view_effect_cleanup r s : view (effect_cleanup r s) = view s.
Proof. unfold effect_cleanup. case_match; reflexivity. Qed.

Lemma view_effect_run r s : view (effect_run r s) = view s.
Proof. unfold effect_run. by rewrite view_loadTrack. Qed.

Lemma view_rerender before s : view (rerender before s) = view s.
Proof.
  unfold rerender. case_match; [reflexivity |].
  by rewrite view_effect_run, view_effect_cleanup.
Qed.

Lemma view_loadTrack_created r track k ok s :
  view (loadTrack_created r track k ok s)
  = if ok
    then mkRender (Some (List.length (units (engine s)))) (isPlaying (view s))
                  true (currentTrackIndex (view s)) (songs (view s))
    else view s.
Proof.
  unfold loadTrack_created. destruct ok; by rewrite view_loadTrack_return.
Qed.

Lemma view_nextTrack r s :
  view (nextTrack r s) = view (setCurrentTrackIndex (nextIndex r) s).
Proof. unfold nextTrack. by rewrite view_loadTrack. Qed.

Lemma view_previousTrack r s :
  view (previousTrack r s) = view (setCurrentTrackIndex (prevIndex r) s).
Proof. unfold previousTrack. by rewrite view_loadTrack. Qed.

(** ** The loaded flag only ever goes up *)

Lemma loaded_onPress b r s :
  isSoundLoaded (view (onPress b r s)) = isSoundLoaded (view s).
Proof.
  destruct b; simpl.
  - by rewrite view_previousTrack.
  - by rewrite view_playPauseTrack.
  - by rewrite view_stopTrack.
  - by rewrite view_nextTrack.
Qed.

Lemma loaded_resume t ok s s' :
  resume t ok s = Some s' ->
  isSoundLoaded (view s) = true -> isSoundLoaded (view s') = true.
Proof.
  destruct t; simpl; intros Hres Hl.
  - destruct ok; [|discriminate]. injection Hres as <-.
    by rewrite view_loadTrack_unloaded.
  - injection Hres as <-. rewrite view_loadTrack_created. by destruct ok.
  - case_match; [|discriminate]. injection Hres as <-.
    unfold playPauseTrack_resume. by destruct ok.
  - case_match; [|discriminate]. injection Hres as <-.
    unfold stopTrack_resume. by destruct ok.
Qed.

Lemma step_loaded_mono s ev s' :
  step s ev = Some s' ->
  isSoundLoaded (view s) = true -> isSoundLoaded (view s') = true.
Proof.
  destruct ev as [b | i | k ok | rows]; simpl; intros Hstep Hl.
  - case_match; [|discriminate]. injection Hstep as <-.
    by rewrite view_afterPress, view_rerender, loaded_onPress.
  - case_match; [|discriminate]. injection Hstep as <-.
    by rewrite view_rerender.
  - destruct (tasks s !! k) as [t|]; [|discriminate].
    destruct (resume t ok _) as [s0|] eqn:Hres; [|discriminate].
    injection Hstep as <-. rewrite view_rerender.
    by apply (loaded_resume _ _ _ _ Hres).
  - case_match; [|discriminate]. injection Hstep as <-.
    rewrite view_rerender. by destruct rows.
Qed.

(** ** The flag invariant is inductive *)

Lemma task_ok_mono b b' t :
  (b = true -> b' = true) -> task_ok b t -> task_ok b' t.
Proof. destruct t; simpl; auto. Qed.

Lemma tasks_ok_mono b b' ts :
  (b = true -> b' = true) -> Forall (task_ok b) ts -> Forall (task_ok b') ts.
Proof.
  intros Hb Hts. eapply Forall_impl; [exact Hts |].
  intros t. by apply task_ok_mono.
Qed.

Section TasksFrame.

Variable b : bool.
Variable r : Render.
Hypothesis closure_le : isSoundLoaded r = true -> b = true.

Lemma tasks_ok_playPauseTrack s :
  Forall (task_ok b) (tasks s) -> Forall (task_ok b) (tasks (playPauseTrack r s)).
Proof.
  intros Hts. unfold playPauseTrack.
  destruct (sound r); [destruct (isSoundLoaded r) eqn:Hl |]; simpl; auto.
  apply Forall_app; split; [done |]. constructor; simpl; auto.
Qed.

Lemma tasks_ok_stopTrack s :
  Forall (task_ok b) (tasks s) -> Forall (task_ok b) (tasks (stopTrack r s)).
Proof.
  intros Hts. unfold stopTrack.
  destruct (sound r); [destruct (isSoundLoaded r) eqn:Hl |]; simpl; auto.
  apply Forall_app; split; [done |]. constructor; simpl; auto.
Qed.

Lemma tasks_ok_loadTrack_return k s :
  Forall (task_ok b) (tasks s) ->
  Forall (task_ok b) (tasks (loadTrack_return r k s)).
Proof. destruct k; simpl; [done | apply tasks_ok_playPauseTrack]. Qed.

Lemma tasks_ok_loadTrack_try index k s :
  Forall (task_ok b) (tasks s) ->
  Forall (task_ok b) (tasks (loadTrack_try r index k s)).
Proof.
  intros Hts. unfold loadTrack_try. case_match; [|done].
  simpl. apply Forall_app; split; [done |]. by constructor.
Qed.

Lemma tasks_ok_loadTrack_unloaded index k s :
  Forall (task_ok b) (tasks s) ->
  Forall (task_ok b) (tasks (loadTrack_unloaded r index k s)).
Proof.
  intros Hts. unfold loadTrack_unloaded. case_match.
  - by apply tasks_ok_loadTrack_try.
  - by apply tasks_ok_loadTrack_return, tasks_ok_loadTrack_try.
Qed.

Lemma tasks_ok_afterPress c s :
  Forall (task_ok b) (tasks s) ->
  Forall (task_ok b) (tasks (afterPress c r s)).
Proof.
  intros Hts. destruct c; unfold afterPress; try done;
    case_match; try done; by apply tasks_ok_playPauseTrack.
Qed.

Lemma tasks_ok_loadTrack index k s :
  Forall (task_ok b) (tasks s) ->
  Forall (task_ok b) (tasks (loadTrack r index k s)).
Proof.
  intros Hts. unfold loadTrack. case_match.
  - simpl. apply Forall_app; split; [done |]. by constructor.
  - by apply tasks_ok_loadTrack_try.
Qed.

End TasksFrame.

Lemma tasks_effect_cleanup r s : tasks (effect_cleanup r s) = tasks s.
Proof. unfold effect_cleanup. case_match; reflexivity. Qed.

Lemma tasks_ok_rerender before s :
  Forall (task_ok (isSoundLoaded (view s))) (tasks s) ->
  Forall (task_ok (isSoundLoaded (view s))) (tasks (rerender before s)).
Proof.
  intros Hts. unfold rerender. case_match; [done |].
  unfold effect_run. apply tasks_ok_loadTrack; [done |].
  simpl. by rewrite tasks_effect_cleanup.
Qed.

Lemma flags_inv_rerender before s : flags_inv s -> flags_inv (rerender before s).
Proof.
  intros [Hv Hts]. split; rewrite view_rerender; [done |].
  by apply tasks_ok_rerender.
Qed.

Lemma flags_inv_onPress b s : flags_inv s -> flags_inv (onPress b (view s) s).
Proof.
  intros [Hv Hts]. split.
  - destruct b; simpl;
      rewrite ?view_previousTrack, ?view_playPauseTrack, ?view_stopTrack,
              ?view_nextTrack; done.
  - rewrite loaded_onPress. destruct b; simpl.
    + by apply tasks_ok_loadTrack.
    + by apply tasks_ok_playPauseTrack.
    + by apply tasks_ok_stopTrack.
    + by apply tasks_ok_loadTrack.
Qed.

Lemma flags_inv_afterPress b r s :
  (isSoundLoaded r = true -> isSoundLoaded (view s) = true) ->
  flags_inv s -> flags_inv (afterPress b r s).
Proof.
  intros Hr [Hv Hts]. split; rewrite view_afterPress; [done |].
  by apply tasks_ok_afterPress.
Qed.

Lemma flags_inv_resume t ok s s' :
  view_ok (view s) ->
  task_ok (isSoundLoaded (view s)) t ->
  Forall (task_ok (isSoundLoaded (view s))) (tasks s) ->
  resume t ok s = Some s' -> flags_inv s'.
Proof.
  intros [Hp Hs] Ht Hts.
  destruct t as [r index k | r index track k | r ok0 | r ok0]; simpl in *;
    intros Hres.
  - destruct ok; [|discriminate]. injection Hres as <-.
    split; rewrite view_loadTrack_unloaded; [done |].
    by apply tasks_ok_loadTrack_unloaded.
  - injection Hres as <-. split.
    + rewrite view_loadTrack_created. destruct ok; [|done].
      split; simpl; eauto.
    + unfold loadTrack_created. destruct ok.
      * rewrite view_loadTrack_return. simpl.
        apply tasks_ok_loadTrack_return; [done |]. simpl.
        by eapply tasks_ok_mono; [|exact Hts].
      * rewrite view_loadTrack_return. simpl.
        by apply tasks_ok_loadTrack_return.
  - case_match; [|discriminate]. injection Hres as <-.
    unfold playPauseTrack_resume.
    destruct ok; (split; [split |]); simpl; auto.
  - case_match; [|discriminate]. injection Hres as <-.
    unfold stopTrack_resume.
    destruct ok; (split; [split |]); simpl; auto; discriminate.
Qed.

Lemma flags_inv_step s ev s' : flags_inv s -> step s ev = Some s' -> flags_inv s'.
Proof.
  intros Hinv. destruct ev as [b | i | k ok | rows]; simpl; intros Hstep.
  - case_match; [|discriminate]. injection Hstep as <-.
    apply flags_inv_afterPress; [|by apply flags_inv_rerender, flags_inv_onPress].
    by rewrite view_rerender, loaded_onPress.
  - case_match; [|discriminate]. injection Hstep as <-.
    apply flags_inv_rerender. by destruct Hinv.
  - destruct (tasks s !! k) as [t|] eqn:Hk; [|discriminate].
    destruct (resume t ok _) as [s0|] eqn:Hres; [|discriminate].
    injection Hstep as <-. apply flags_inv_rerender.
    destruct Hinv as [Hv Hts].
    eapply flags_inv_resume; [| | | exact Hres]; simpl; [done | |].
    + by eapply Forall_lookup_1 in Hts; [|exact Hk].
    + by apply Forall_delete.
  - case_match; [|discriminate]. injection Hstep as <-.
    apply flags_inv_rerender. destruct Hinv. by destruct rows.
Qed.

Lemma flags_inv_mount : flags_inv mount.
Proof. split; [split; simpl; [discriminate | discriminate] | by constructor]. Qed.

Lemma flags_inv_run evs : forall s s',
  flags_inv s -> run s evs = Some s' -> flags_inv s'.
Proof.
  induction evs as [| ev evs IH]; simpl; intros s s' Hinv Hrun.
  - by injection Hrun as <-.
  - destruct (step s ev) as [s1|] eqn:Hstep; [|discriminate].
    eapply IH; [|exact Hrun]. by eapply flags_inv_step.
Qed.

Lemma flags_inv_reachable s : reachable s -> flags_inv s.
Proof. intros [evs Hrun]. by eapply flags_inv_run; [apply flags_inv_mount |]. Qed.

(** ** The index invariant is inductive *)

Ltac unfold_handlers :=
  unfold onPress, nextTrack, previousTrack, rerender, effect_run,
    effect_cleanup, loadTrack_created, loadTrack, loadTrack_unloaded,
    loadTrack_try, afterPress, loadTrack_return, playPauseTrack, stopTrack, playPauseTrack_resume,
    stopTrack_resume, fetchSongs_done, suspend, console_log.

Lemma dbPending_rerender before s : dbPending (rerender before s) = dbPending s.
Proof. unfold_handlers. repeat case_match; reflexivity. Qed.

Lemma dbPending_onPress b r s : dbPending (onPress b r s) = dbPending s.
Proof. destruct b; unfold_handlers; repeat case_match; reflexivity. Qed.

Lemma dbPending_afterPress b r s : dbPending (afterPress b r s) = dbPending s.
Proof. destruct b; unfold_handlers; repeat case_match; reflexivity. Qed.

Lemma dbPending_resume t ok s s' :
  resume t ok s = Some s' -> dbPending s' = dbPending s.
Proof.
  destruct t; simpl; intros Hres; repeat case_match; simplify_eq;
    unfold_handlers; repeat case_match; reflexivity.
Qed.

Lemma index_resume t ok s s' :
  resume t ok s = Some s' ->
  currentTrackIndex (view s') = currentTrackIndex (view s)
  /\ songs (view s') = songs (view s).
Proof.
  destruct t; simpl; intros Hres; repeat case_match; simplify_eq.
  - by rewrite view_loadTrack_unloaded.
  - rewrite view_loadTrack_created. by destruct ok.
  - unfold playPauseTrack_resume. by destruct ok.
  - unfold stopTrack_resume. by destruct ok.
Qed.

Lemma rem_index (x n : Z) : 0 <= x -> 0 < n -> Z.rem x n = x mod n.
Proof. intros Hx Hn. apply Z.rem_mod_nonneg; lia. Qed.

(** [nextTrack] and [previousTrack] compute the wrapped index. *)
Lemma nextIndex_wraps r c :
  currentTrackIndex r = JS.Num c ->
  0 <= c < Z.of_nat (List.length (songs r)) ->
  nextIndex r = JS.Num ((c + 1) mod Z.of_nat (List.length (songs r))).
Proof.
  intros Hc Hr. unfold nextIndex, JS.length. rewrite Hc. simpl.
  destruct (Z.eqb_spec (Z.of_nat (List.length (songs r))) 0); [lia |].
  by rewrite rem_index by lia.
Qed.

Lemma prevIndex_wraps r c :
  currentTrackIndex r = JS.Num c ->
  0 <= c < Z.of_nat (List.length (songs r)) ->
  prevIndex r
  = JS.Num ((c - 1 + Z.of_nat (List.length (songs r)))
            mod Z.of_nat (List.length (songs r))).
Proof.
  intros Hc Hr. unfold prevIndex, JS.length. rewrite Hc. simpl.
  destruct (Z.eqb_spec (Z.of_nat (List.length (songs r))) 0); [lia |].
  by rewrite rem_index by lia.
Qed.

Lemma get_in_range (l : list Song) z :
  0 <= z < Z.of_nat (List.length l) -> is_Some (JS.get l (JS.Num z)).
Proof.
  intros Hz. simpl. destruct (Z.leb_spec 0 z); [|lia].
  apply lookup_lt_is_Some. lia.
Qed.

Lemma loadTrack_awaits_song r index :
  is_Some (JS.get (songs r) index) -> loadTrack_awaits r index = true.
Proof.
  intros [song Hsong]. unfold loadTrack_awaits. rewrite Hsong.
  by destruct (sound r).
Qed.

(** With the index in range [loadTrack] suspends, and the continuation of
    [nextTrack] and [previousTrack] waits for it. *)
Lemma afterPress_in_range b r s c :
  currentTrackIndex r = JS.Num c ->
  0 <= c < Z.of_nat (List.length (songs r)) ->
  afterPress b r s = s.
Proof.
  intros Hc Hr.
  pose proof (Z.mod_pos_bound (c + 1) (Z.of_nat (List.length (songs r)))
                ltac:(lia)).
  pose proof (Z.mod_pos_bound (c - 1 + Z.of_nat (List.length (songs r)))
                (Z.of_nat (List.length (songs r))) ltac:(lia)).
  destruct b; unfold afterPress; try reflexivity.
  - rewrite loadTrack_awaits_song; [done |].
    rewrite (prevIndex_wraps _ _ Hc Hr). by apply get_in_range.
  - rewrite loadTrack_awaits_song; [done |].
    rewrite (nextIndex_wraps _ _ Hc Hr). by apply get_in_range.
Qed.

Lemma transport_rendered_nonempty r :
  transport_rendered r = true -> (0 < List.length (songs r))%nat.
Proof.
  unfold transport_rendered. intros [H _]%andb_true_iff.
  by apply Nat.ltb_lt in H.
Qed.

Lemma transport_rendered_index r c :
  currentTrackIndex r = JS.Num c ->
  0 <= c < Z.of_nat (List.length (songs r)) ->
  transport_rendered r = true.
Proof.
  intros Hc Hr. unfold transport_rendered. apply andb_true_iff. split.
  - apply Nat.ltb_lt. lia.
  - apply bool_decide_eq_true. rewrite Hc. simpl.
    destruct (Z.leb_spec 0 c); [|lia].
    apply lookup_lt_is_Some. lia.
Qed.

Lemma index_ok_set r n c :
  0 <= c < Z.of_nat (List.length (songs r)) ->
  n = JS.Num c ->
  index_ok (mkRender (sound r) (isPlaying r) (isSoundLoaded r) n (songs r)).
Proof. intros Hc ->. exists c. simpl. repeat split; [lia | left; lia]. Qed.

Lemma index_ok_in_range r :
  index_ok r -> (0 < List.length (songs r))%nat ->
  exists c, currentTrackIndex r = JS.Num c
            /\ 0 <= c < Z.of_nat (List.length (songs r)).
Proof.
  intros (c & Hc & Hpos & [Hlt | [Hnil Hz]]) Hn; exists c.
  - repeat split; [done | lia | lia].
  - rewrite Hnil in Hn. simpl in Hn. lia.
Qed.

Lemma index_inv_step s ev s' : index_inv s -> step s ev = Some s' -> index_inv s'.
Proof.
  intros [Hidx Hdb].
  destruct ev as [b | i | k ok | rows]; simpl; intros Hstep.
  - destruct (transport_rendered (view s)) eqn:Hgate; [|discriminate].
    injection Hstep as <-.
    destruct (index_ok_in_range _ Hidx (transport_rendered_nonempty _ Hgate))
      as (c & Hc & Hr).
    pose proof (Z.mod_pos_bound (c + 1) (Z.of_nat (List.length (songs (view s))))).
    pose proof (Z.mod_pos_bound (c - 1 + Z.of_nat (List.length (songs (view s))))
                  (Z.of_nat (List.length (songs (view s))))).
    split; rewrite ?view_afterPress, ?dbPending_afterPress, ?view_rerender,
             ?dbPending_rerender, ?dbPending_onPress;
      [|destruct b; simpl;
        rewrite ?view_previousTrack, ?view_playPauseTrack, ?view_stopTrack,
                ?view_nextTrack; exact Hdb].
    destruct b; simpl.
    + rewrite view_previousTrack. simpl.
      eapply index_ok_set; [|by apply prevIndex_wraps]. lia.
    + by rewrite view_playPauseTrack.
    + by rewrite view_stopTrack.
    + rewrite view_nextTrack. simpl.
      eapply index_ok_set; [|by apply nextIndex_wraps]. lia.
  - destruct (Nat.ltb_spec i (List.length (songs (view s)))); [|discriminate].
    injection Hstep as <-.
    split; rewrite ?view_rerender, ?dbPending_rerender; simpl; [|done].
    eapply index_ok_set; [|reflexivity]. lia.
  - destruct (tasks s !! k) as [t|]; [|discriminate].
    destruct (resume t ok _) as [s0|] eqn:Hres; [|discriminate].
    injection Hstep as <-.
    destruct (index_resume _ _ _ _ Hres) as [Hi Hs].
    apply dbPending_resume in Hres. simpl in *.
    split; rewrite ?view_rerender, ?dbPending_rerender.
    + destruct Hidx as (c & Hc & Hrest). exists c. by rewrite Hi, Hs.
    + rewrite Hres, Hs. exact Hdb.
  - destruct (dbPending s) eqn:Hp; [|discriminate]. injection Hstep as <-.
    split; rewrite ?view_rerender, ?dbPending_rerender.
    + destruct rows as [l|]; simpl; [|done].
      destruct Hidx as (c & Hc & Hpos & Hr). rewrite (Hdb eq_refl) in Hr.
      assert (c = 0) as -> by (simpl in Hr; lia).
      exists 0. simpl. repeat split; [done | lia |].
      destruct l; [by right | left; simpl; lia].
    + destruct rows; simpl; discriminate.
Qed.

Lemma index_inv_mount : index_inv mount.
Proof. split; [|done]. exists 0. simpl. repeat split; [lia | by right]. Qed.

Lemma index_inv_run evs : forall s s',
  index_inv s -> run s evs = Some s' -> index_inv s'.
Proof.
  induction evs as [| ev evs IH]; simpl; intros s s' Hinv Hrun.
  - by injection Hrun as <-.
  - destruct (step s ev) as [s1|] eqn:Hstep; [|discriminate].
    eapply IH; [|exact Hrun]. by eapply index_inv_step.
Qed.

Lemma index_inv_reachable s : reachable s -> index_inv s.
Proof. intros [evs Hrun]. by eapply index_inv_run; [apply index_inv_mount |]. Qed.

(** ** Engine facts *)

Lemma object_is_refl n : JS.object_is n n = true.
Proof. destruct n; simpl; [apply Z.eqb_refl | reflexivity]. Qed.

Lemma rerender_same before s :
  currentTrackIndex (view s) = currentTrackIndex before -> rerender before s = s.
Proof. intros Heq. unfold rerender. by rewrite Heq, object_is_refl. Qed.

Lemma uri_alter (f : SoundUnit -> SoundUnit) (l : list SoundUnit) h j :
  (forall u, unit_uri (f u) = unit_uri u) ->
  unit_uri <$> alter f h l !! j = unit_uri <$> l !! j.
Proof.
  intros Hf. destruct (decide (h = j)) as [-> | Hne].
  - rewrite list_lookup_alter_eq. destruct (l !! j); simpl; by rewrite ?Hf.
  - by rewrite list_lookup_alter_ne.
Qed.

Lemma uri_engine_transport c p h e j :
  unit_uri <$> units (snd (engine_transport c p h e)) !! j
  = unit_uri <$> units e !! j.
Proof.
  unfold engine_transport. case_match; simpl; [|done]. by apply uri_alter.
Qed.

Lemma uri_playPauseTrack r s j :
  unit_uri <$> units (engine (playPauseTrack r s)) !! j
  = unit_uri <$> units (engine s) !! j.
Proof.
  unfold playPauseTrack, engine_pause, engine_play.
  repeat case_match; simpl; try done; apply uri_engine_transport.
Qed.

Lemma uri_loadTrack_return r k s j :
  unit_uri <$> units (engine (loadTrack_return r k s)) !! j
  = unit_uri <$> units (engine s) !! j.
Proof. destruct k; simpl; [done | apply uri_playPauseTrack]. Qed.

(** ** C1: overlapping loads *)

(** A resolved [createAsync] stores its sound and sets the loaded flag,
    whatever has been selected in the meantime. *)
Lemma settle_created s k r index track c :
  tasks s !! k = Some (AwaitCreate r index track c) ->
  step s (Settle k true)
  = Some (loadTrack_created r track c true (set_tasks (delete k (tasks s)) s)).
Proof.
  intros Hk. unfold step. rewrite Hk. unfold resume. f_equal.
  apply rerender_same. by rewrite view_loadTrack_created.
Qed.

(** C1, counterexample: track 2 is loaded, then list items 0 and 1 are
    pressed one after the other.  The load of track 1 completes first and
    the load of track 0 second: its completion replaces the sound of
    track 1, so the run ends at index 1 holding the sound of track 0. *)
Lemma stale_load_overwrites_later_selection :
  exists s,
    run mount second_load_completes_first = Some s
    /\ tasks s = []
    /\ currentTrackIndex (view s) = JS.Num 1
    /\ held_track s = uri <$> hardcodedSongs !! 0%nat
    /\ held_track s <> uri <$> hardcodedSongs !! 1%nat.
Proof.
  eexists. split; [vm_compute; reflexivity |].
  split; [vm_compute; reflexivity |].
  split; [vm_compute; reflexivity |].
  split; [vm_compute; reflexivity |].
  vm_compute. discriminate.
Qed.

(** For comparison: when the two loads complete in the order they were
    issued, the run ends holding the sound of track 1. *)
Example loads_completing_in_order :
  exists s,
    run mount (select_0_then_1 ++ [Settle 0 true; Settle 0 true]) = Some s
    /\ currentTrackIndex (view s) = JS.Num 1
    /\ held_track s = uri <$> hardcodedSongs !! 1%nat.
Proof.
  eexists. split; [vm_compute; reflexivity |].
  split; vm_compute; reflexivity.
Qed.

Lemma reachable_after evs s : run mount evs = Some s -> reachable (after evs).
Proof. intros Hrun. exists evs. unfold after. by rewrite Hrun. Qed.

Lemma reachable_step s ev s' : reachable s -> step s ev = Some s' -> reachable s'.
Proof.
  intros [evs Hrun] Hstep. exists (evs ++ [ev]).
  revert Hrun. generalize mount. induction evs as [| e evs IH]; simpl.
  - intros s0 [= ->]. by rewrite Hstep.
  - intros s0. destruct (step s0 e); [apply IH | discriminate].
Qed.

(** ** C3: the index under [nextTrack] and [previousTrack] *)

(** With the index in range, a press of a transport button goes through,
    and tells where Next and Previous put the index. *)
Lemma press_next s c :
  currentTrackIndex (view s) = JS.Num c ->
  0 <= c < Z.of_nat (List.length (songs (view s))) ->
  exists s',
    step s (Press Next) = Some s'
    /\ songs (view s') = songs (view s)
    /\ currentTrackIndex (view s')
       = JS.Num ((c + 1) mod Z.of_nat (List.length (songs (view s)))).
Proof.
  intros Hc Hr. eexists. unfold step.
  rewrite (transport_rendered_index _ _ Hc Hr). split; [reflexivity |].
  rewrite view_afterPress, view_rerender. simpl. rewrite view_nextTrack. simpl.
  by rewrite (nextIndex_wraps _ _ Hc Hr).
Qed.

Lemma press_previous s c :
  currentTrackIndex (view s) = JS.Num c ->
  0 <= c < Z.of_nat (List.length (songs (view s))) ->
  exists s',
    step s (Press Previous) = Some s'
    /\ songs (view s') = songs (view s)
    /\ currentTrackIndex (view s')
       = JS.Num ((c - 1 + Z.of_nat (List.length (songs (view s))))
                 mod Z.of_nat (List.length (songs (view s)))).
Proof.
  intros Hc Hr. eexists. unfold step.
  rewrite (transport_rendered_index _ _ Hc Hr). split; [reflexivity |].
  rewrite view_afterPress, view_rerender. simpl.
  rewrite view_previousTrack. simpl.
  by rewrite (prevIndex_wraps _ _ Hc Hr).
Qed.

Lemma presses_stay_in_range bs : forall s c,
  Forall (fun b => b = Next \/ b = Previous) bs ->
  currentTrackIndex (view s) = JS.Num c ->
  0 <= c < Z.of_nat (List.length (songs (view s))) ->
  exists s' c',
    run s (Press <$> bs) = Some s'
    /\ songs (view s') = songs (view s)
    /\ currentTrackIndex (view s') = JS.Num c'
    /\ 0 <= c' < Z.of_nat (List.length (songs (view s))).
Proof.
  induction bs as [| b bs IH]; intros s c Hbs Hc Hr.
  - exists s, c. repeat split; try done; lia.
  - apply Forall_cons in Hbs as [Hb Hbs].
    set (n := Z.of_nat (List.length (songs (view s)))) in *.
    assert (exists s1 c1,
              step s (Press b) = Some s1
              /\ songs (view s1) = songs (view s)
              /\ currentTrackIndex (view s1) = JS.Num c1
              /\ 0 <= c1 < n) as (s1 & c1 & Hstep & Hsongs & Hc1 & Hr1).
    { destruct Hb as [-> | ->].
      - destruct (press_next _ _ Hc Hr) as (s1 & Hstep & Hsongs & Hi).
        exists s1, ((c + 1) mod n). repeat split; try done;
          apply Z.mod_pos_bound; lia.
      - destruct (press_previous _ _ Hc Hr) as (s1 & Hstep & Hsongs & Hi).
        exists s1, ((c - 1 + n) mod n). repeat split; try done;
          apply Z.mod_pos_bound; lia. }
    destruct (IH s1 c1 Hbs Hc1) as (s' & c' & Hrun & Hsongs' & Hc' & Hr');
      [by rewrite Hsongs |].
    exists s', c'. cbn [fmap list_fmap run]. rewrite Hstep.
    rewrite Hsongs in Hsongs', Hr'. repeat split; try done; lia.
Qed.

(** C3: in every state the application can reach, with a playlist of
    [n > 0] tracks the current index is in [[0, n)], a call of [nextTrack]
    (a press of Next) moves it to [(c + 1) mod n] and a call of
    [previousTrack] (a press of Previous) to [(c - 1 + n) mod n], both
    again in [[0, n)], and so every finite sequence of such calls goes
    through and ends with the index in [[0, n)].  With an empty playlist
    the index is [0] and the two buttons, the only callers of the two
    functions, are not on screen: no call happens, and a sequence of
    presses of Next and Previous that does take place (the empty one)
    leaves the state as it is. *)
Theorem next_previous_index_in_range s :
  reachable s ->
  let n := Z.of_nat (List.length (songs (view s))) in
  (0 < n ->
   (exists c s1 s2,
      currentTrackIndex (view s) = JS.Num c /\ 0 <= c < n
      /\ step s (Press Next) = Some s1
      /\ currentTrackIndex (view s1) = JS.Num ((c + 1) mod n)
      /\ 0 <= (c + 1) mod n < n
      /\ step s (Press Previous) = Some s2
      /\ currentTrackIndex (view s2) = JS.Num ((c - 1 + n) mod n)
      /\ 0 <= (c - 1 + n) mod n < n)
   /\ (forall bs,
         Forall (fun b => b = Next \/ b = Previous) bs ->
         exists s' c',
           run s (Press <$> bs) = Some s'
           /\ songs (view s') = songs (view s)
           /\ currentTrackIndex (view s') = JS.Num c'
           /\ 0 <= c' < n))
  /\ (n = 0 ->
      currentTrackIndex (view s) = JS.Num 0
      /\ step s (Press Next) = None
      /\ step s (Press Previous) = None
      /\ (forall bs s',
            Forall (fun b => b = Next \/ b = Previous) bs ->
            run s (Press <$> bs) = Some s' -> bs = [] /\ s' = s)).
Proof.
  intros Hreach n. destruct (index_inv_reachable _ Hreach) as [Hidx _].
  split.
  - intros Hn.
    destruct (index_ok_in_range _ Hidx ltac:(lia)) as (c & Hc & Hr).
    split; [|intros bs Hbs; by apply (presses_stay_in_range bs s c)].
    destruct (press_next _ _ Hc Hr) as (s1 & Hs1 & _ & Hi1).
    destruct (press_previous _ _ Hc Hr) as (s2 & Hs2 & _ & Hi2).
    pose proof (Z.mod_pos_bound (c + 1) n Hn).
    pose proof (Z.mod_pos_bound (c - 1 + n) n Hn).
    exists c, s1, s2. repeat split; try done; lia.
  - intros Hn. destruct Hidx as (c & Hc & Hpos & Hr).
    assert (c = 0) as -> by lia.
    assert (transport_rendered (view s) = false) as Hgate.
    { unfold transport_rendered.
      destruct (Nat.ltb_spec 0 (List.length (songs (view s)))); [lia | done]. }
    assert (forall b, step s (Press b) = None) as Hno
      by (intros b; unfold step; by rewrite Hgate).
    split; [done |]. split; [apply Hno |]. split; [apply Hno |].
    intros [| b bs] s' _ Hrun.
    + by injection Hrun as <-.
    + cbn [fmap list_fmap run] in Hrun. by rewrite Hno in Hrun.
Qed.

Lemma next_previous_index_in_range_witness :
  reachable (after track_1_loaded)
  /\ exists s1 s2 s3,
       step (after track_1_loaded) (Press Next) = Some s1
       /\ currentTrackIndex (view s1) = JS.Num 2
       /\ step (after track_1_loaded) (Press Previous) = Some s2
       /\ currentTrackIndex (view s2) = JS.Num 0
       /\ run (after track_1_loaded) (Press <$> [Next; Next; Previous])
          = Some s3.
Proof.
  assert (reachable (after track_1_loaded)) as Hreach
    by (eapply reachable_after; vm_compute; reflexivity).
  split; [exact Hreach |].
  destruct (next_previous_index_in_range _ Hreach) as [Hpos _].
  destruct Hpos as [(c & s1 & s2 & Hc & _ & Hn & Hin & _ & Hp & Hip & _) Hseq];
    [vm_compute; reflexivity |].
  destruct (Hseq [Next; Next; Previous]) as (s3 & c3 & Hrun & _).
  { repeat (apply Forall_cons; split; [first [by left | by right] |]).
    by apply Forall_nil. }
  assert (c = 1) as -> by (vm_compute in Hc; congruence).
  exists s1, s2, s3. repeat split; [exact Hn | | exact Hp | | exact Hrun].
  - rewrite Hin. vm_compute. reflexivity.
  - rewrite Hip. vm_compute. reflexivity.
Defined.

(** ** C4: playing implies loaded *)

(** C4, counterexample: track 1 is playing, list item 2 is pressed, the
    old sound is unloaded and the engine fails to load track 2.  At the
    end [isPlaying] is still [true], and no sound is loaded: the sound
    the component holds has been unloaded, and the engine has no loaded
    unit at all. *)
Lemma playing_flag_outlives_the_sound :
  exists s,
    run mount failed_switch_while_playing = Some s
    /\ tasks s = []
    /\ isPlaying (view s) = true
    /\ sound (view s) = Some 0%nat
    /\ is_loaded (engine s) 0 = false
    /\ loaded_units (engine s) = [].
Proof.
  eexists. split; [vm_compute; reflexivity |].
  repeat split; vm_compute; reflexivity.
Qed.

(** C4, as amended: in every state the application can reach, after any
    sequence of presses and completions, the playing flag is set only if
    the loaded flag is set and the component holds a sound object; and
    every further event (press, list press, completion of a promise,
    success or failure, arrival of the playlist) leads to a state where
    this holds again. *)
Theorem playing_implies_loaded s :
  reachable s ->
  (isPlaying (view s) = true ->
   isSoundLoaded (view s) = true /\ is_Some (sound (view s)))
  /\ (forall ev s',
        step s ev = Some s' ->
        isPlaying (view s') = true ->
        isSoundLoaded (view s') = true /\ is_Some (sound (view s'))).
Proof.
  intros Hreach. split.
  - intros Hp. destruct (flags_inv_reachable _ Hreach) as [[Hpl Hls] _].
    split; auto.
  - intros ev s' Hstep Hp.
    destruct (flags_inv_step _ _ _ (flags_inv_reachable _ Hreach) Hstep)
      as [[Hpl Hls] _].
    split; auto.
Qed.

Lemma playing_implies_loaded_witness :
  reachable (after track_1_playing)
  /\ isPlaying (view (after track_1_playing)) = true
  /\ isSoundLoaded (view (after track_1_playing)) = true
  /\ is_Some (sound (view (after track_1_playing))).
Proof.
  assert (reachable (after track_1_playing)) as Hreach
    by (eapply reachable_after; vm_compute; reflexivity).
  assert (isPlaying (view (after track_1_playing)) = true) as Hp
    by (vm_compute; reflexivity).
  split; [exact Hreach |]. split; [exact Hp |].
  exact (proj1 (playing_implies_loaded _ Hreach) Hp).
Defined.

(** ** C9: selecting the current track again *)

Lemma setCurrentTrackIndex_same s :
  setCurrentTrackIndex (currentTrackIndex (view s)) s = s.
Proof. by destruct s as [[] ? ? ? ? ?]. Qed.

Lemma press_current_song s i :
  (i < List.length (songs (view s)))%nat ->
  currentTrackIndex (view s) = JS.Num (Z.of_nat i) ->
  step s (PressSong i) = Some s.
Proof.
  intros Hi Hc. unfold step.
  destruct (Nat.ltb_spec i (List.length (songs (view s)))); [|lia].
  rewrite <- Hc, setCurrentTrackIndex_same. f_equal. by apply rerender_same.
Qed.

(** C9: pressing the list item of the track that is already current
    leaves the whole state as it is: the hook values, the suspended
    closures and the engine, so no engine call (and no load) is issued.
    This holds whether or not a sound is loaded, in particular when one
    is. *)
Theorem select_current_track_is_noop s i :
  (i < List.length (songs (view s)))%nat ->
  currentTrackIndex (view s) = JS.Num (Z.of_nat i) ->
  exists s',
    step s (PressSong i) = Some s'
    /\ s' = s
    /\ calls (engine s') = calls (engine s).
Proof. intros Hi Hc. exists s. by rewrite press_current_song. Qed.

Lemma select_current_track_is_noop_witness :
  (1 < List.length (songs (view (after track_1_playing))))%nat
  /\ currentTrackIndex (view (after track_1_playing)) = JS.Num (Z.of_nat 1)
  /\ exists s',
       step (after track_1_playing) (PressSong 1) = Some s'
       /\ s' = after track_1_playing
       /\ calls (engine s') = calls (engine (after track_1_playing)).
Proof.
  assert (1 < List.length (songs (view (after track_1_playing))))%nat as Hi
    by (vm_compute; lia).
  assert (currentTrackIndex (view (after track_1_playing))
          = JS.Num (Z.of_nat 1)) as Hc by (vm_compute; reflexivity).
  split; [exact Hi |]. split; [exact Hc |].
  exact (select_current_track_is_noop _ _ Hi Hc).
Defined.

(** ** Transport calls *)

Lemma engine_transport_loaded c p h e :
  is_loaded e h = true ->
  engine_transport c p h e
  = (true, mkEngine (alter (set_playing p) h (units e)) (calls e ++ [c])).
Proof. intros Hl. unfold engine_transport. by rewrite Hl. Qed.

Lemma engine_transport_unloaded c p h e :
  is_loaded e h = false -> engine_transport c p h e = (false, record_call c e).
Proof. intros Hl. unfold engine_transport. by rewrite Hl. Qed.

Lemma calls_engine_transport c p h e :
  calls (snd (engine_transport c p h e)) = calls e ++ [c].
Proof. unfold engine_transport. by case_match. Qed.

Lemma is_loaded_set_playing p (h : nat) us cs cs' (j : nat) :
  is_loaded (mkEngine (alter (set_playing p) h us) cs) j
  = is_loaded (mkEngine us cs') j.
Proof.
  unfold is_loaded. simpl. destruct (Nat.eq_dec h j) as [-> | Hne].
  - rewrite list_lookup_alter_eq. destruct (us !! j); reflexivity.
  - by rewrite list_lookup_alter_ne.
Qed.

Lemma is_playing_set_playing p (h : nat) us cs :
  is_loaded (mkEngine us cs) h = true ->
  is_playing (mkEngine (alter (set_playing p) h us) cs) h = p.
Proof.
  unfold is_loaded, is_playing. simpl. rewrite list_lookup_alter_eq.
  destruct (us !! h); [reflexivity | discriminate].
Qed.

(** ** C8: [stopTrack] *)

Lemma delete_last_task (ts : list Task) t :
  delete (List.length ts) (ts ++ [t]) = ts.
Proof.
  induction ts as [| t0 ts IH]; simpl; [done |]. by rewrite IH.
Qed.

Lemma lookup_last_task (ts : list Task) t :
  (ts ++ [t]) !! List.length ts = Some t.
Proof. by rewrite list_lookup_middle. Qed.

Lemma settle_stop s k r :
  tasks s !! k = Some (AwaitStop r true) ->
  step s (Settle k true)
  = Some (setIsPlaying false (set_tasks (delete k (tasks s)) s)).
Proof.
  intros Hk. unfold step. rewrite Hk. unfold resume, stopTrack_resume.
  simpl. f_equal. by apply rerender_same.
Qed.

Lemma press_stop s :
  transport_rendered (view s) = true ->
  step s (Press Stop) = Some (stopTrack (view s) s).
Proof.
  intros Hgate. unfold step. rewrite Hgate. simpl. f_equal.
  apply rerender_same. by rewrite view_stopTrack.
Qed.

(** C8, counterexample: track 1 is playing, list item 2 is pressed and
    the engine fails to load track 2, so no sound is loaded; then Stop is
    pressed.  [stopTrack] is not a no-op that only warns: its guard
    passes, [stopAsync] is called on the released sound and rejected, and
    the [catch] logs an error.  Nor does it lead to [isPlaying = false]:
    [isPlaying] is still [true] at the end. *)
Lemma stop_on_released_sound_keeps_playing_flag :
  exists s s1 s2,
    run mount failed_switch_while_playing = Some s
    /\ isSoundLoaded (view s) = true
    /\ isPlaying (view s) = true
    /\ loaded_units (engine s) = []
    /\ step s (Press Stop) = Some s1
    /\ calls (engine s1) = calls (engine s) ++ [StopAsync 0]
    /\ console s1 = console s
    /\ step s1 (Settle 0 true) = None
    /\ step s1 (Settle 0 false) = Some s2
    /\ tasks s2 = []
    /\ isPlaying (view s2) = true
    /\ console s2 = console s ++ [Error msg_stop_error].
Proof.
  do 3 eexists. split; [vm_compute; reflexivity |].
  do 3 (split; [vm_compute; reflexivity |]).
  split; [vm_compute; reflexivity |].
  do 3 (split; [vm_compute; reflexivity |]).
  split; [vm_compute; reflexivity |].
  repeat split; vm_compute; reflexivity.
Qed.

(** C8, as amended: with the Stop button on screen, pressing it does one
    of three things.
    - The component holds a sound [h], the loaded flag is set and the
      engine has [h] loaded: [stopAsync] is issued on [h] and nothing
      else; the engine stops [h] and resolves; when the completion is
      processed [isPlaying] becomes [false], while the sound object, the
      loaded flag and the engine are left as they are, so nothing is
      unloaded, whether the player was playing or paused.
    - The component holds a sound [h] and the loaded flag is set, but the
      engine has released [h]: [stopAsync] is issued all the same and
      the engine rejects it; the error is logged, and the hook values,
      [isPlaying] among them, the units of the engine and the suspended
      closures are what they were.
    - The component holds no sound or the loaded flag is not set:
      [stopTrack] logs the warning and does nothing else. *)
Theorem stop_by_cases s :
  transport_rendered (view s) = true ->
  (forall h,
     sound (view s) = Some h ->
     isSoundLoaded (view s) = true ->
     is_loaded (engine s) h = true ->
     exists s1 s2,
       step s (Press Stop) = Some s1
       /\ view s1 = view s
       /\ tasks s1 = tasks s ++ [AwaitStop (view s) true]
       /\ calls (engine s1) = calls (engine s) ++ [StopAsync h]
       /\ console s1 = console s
       /\ (forall j, is_loaded (engine s1) j = is_loaded (engine s) j)
       /\ is_playing (engine s1) h = false
       /\ step s1 (Settle (List.length (tasks s)) true) = Some s2
       /\ isPlaying (view s2) = false
       /\ sound (view s2) = Some h
       /\ isSoundLoaded (view s2) = true
       /\ currentTrackIndex (view s2) = currentTrackIndex (view s)
       /\ engine s2 = engine s1
       /\ tasks s2 = tasks s
       /\ console s2 = console s
       /\ forall s' k,
            tasks s' !! k = Some (AwaitStop (view s) true) ->
            exists s3,
              step s' (Settle k true) = Some s3
              /\ isPlaying (view s3) = false
              /\ sound (view s3) = sound (view s')
              /\ isSoundLoaded (view s3) = isSoundLoaded (view s')
              /\ engine s3 = engine s')
  /\ (forall h,
        sound (view s) = Some h ->
        isSoundLoaded (view s) = true ->
        is_loaded (engine s) h = false ->
        exists s1 s2,
          step s (Press Stop) = Some s1
          /\ view s1 = view s
          /\ tasks s1 = tasks s ++ [AwaitStop (view s) false]
          /\ calls (engine s1) = calls (engine s) ++ [StopAsync h]
          /\ units (engine s1) = units (engine s)
          /\ console s1 = console s
          /\ step s1 (Settle (List.length (tasks s)) true) = None
          /\ step s1 (Settle (List.length (tasks s)) false) = Some s2
          /\ view s2 = view s
          /\ units (engine s2) = units (engine s)
          /\ tasks s2 = tasks s
          /\ console s2 = console s ++ [Error msg_stop_error])
  /\ (sound (view s) = None \/ isSoundLoaded (view s) = false ->
      exists s1,
        step s (Press Stop) = Some s1
        /\ view s1 = view s
        /\ engine s1 = engine s
        /\ tasks s1 = tasks s
        /\ console s1 = console s ++ [Warn msg_unable_to_stop]).
Proof.
  intros Hgate. split; [|split].
  - intros h Hs Hl He.
    set (e1 := mkEngine (alter (set_playing false) h (units (engine s)))
                        (calls (engine s) ++ [StopAsync h])).
    assert (stopTrack (view s) s
            = suspend (AwaitStop (view s) true) (set_engine e1 s)) as Hstop.
    { unfold stopTrack, engine_stop. rewrite Hs, Hl.
      by rewrite (engine_transport_loaded _ _ _ _ He). }
    exists (suspend (AwaitStop (view s) true) (set_engine e1 s)),
           (setIsPlaying false (set_engine e1 s)).
    split; [by rewrite press_stop, Hstop |].
    do 4 (split; [reflexivity |]).
    split.
    { intros j. subst e1. destruct (engine s) as [us cs].
      apply is_loaded_set_playing. }
    split.
    { subst e1. destruct (engine s) as [us cs]. by apply is_playing_set_playing. }
    split.
    { rewrite (settle_stop _ (List.length (tasks s)) (view s));
        [|apply lookup_last_task].
      cbn [tasks suspend set_tasks set_engine]. rewrite delete_last_task.
      by destruct s as [[] ? ? ? ? ?]. }
    split; [reflexivity |]. split; [exact Hs |]. split; [exact Hl |].
    do 4 (split; [reflexivity |]).
    intros s' k Hk. eexists. split; [by apply (settle_stop _ _ _ Hk) |]. done.
  - intros h Hs Hl He.
    assert (stopTrack (view s) s
            = suspend (AwaitStop (view s) false)
                (set_engine (record_call (StopAsync h) (engine s)) s))
      as Hstop.
    { unfold stopTrack, engine_stop. rewrite Hs, Hl.
      by rewrite (engine_transport_unloaded _ _ _ _ He). }
    exists (suspend (AwaitStop (view s) false)
              (set_engine (record_call (StopAsync h) (engine s)) s)),
           (console_log (Error msg_stop_error)
              (set_engine (record_call (StopAsync h) (engine s)) s)).
    split; [by rewrite press_stop, Hstop |].
    do 5 (split; [reflexivity |]).
    split.
    { unfold step. cbn [tasks suspend set_tasks set_engine].
      by rewrite lookup_last_task. }
    split; [|by repeat split].
    unfold step. cbn [tasks suspend set_tasks set_engine].
    rewrite lookup_last_task, delete_last_task. simpl.
    rewrite rerender_same by reflexivity. reflexivity.
  - intros Hno. exists (console_log (Warn msg_unable_to_stop) s).
    split; [|by repeat split].
    rewrite press_stop by done. f_equal.
    unfold stopTrack. destruct Hno as [-> | Hl]; [done |].
    rewrite Hl. by destruct (sound (view s)).
Qed.

Lemma stop_by_cases_witness :
  transport_rendered (view (after track_1_playing)) = true
  /\ sound (view (after track_1_playing)) = Some 0%nat
  /\ isPlaying (view (after track_1_playing)) = true
  /\ isSoundLoaded (view (after track_1_playing)) = true
  /\ is_loaded (engine (after track_1_playing)) 0 = true
  /\ exists s1 s2,
       step (after track_1_playing) (Press Stop) = Some s1
       /\ step s1 (Settle 0 true) = Some s2
       /\ isPlaying (view s2) = false
       /\ sound (view s2) = Some 0%nat
       /\ isSoundLoaded (view s2) = true
       /\ is_loaded (engine s2) 0 = true.
Proof.
  assert (transport_rendered (view (after track_1_playing)) = true) as Hgate
    by (vm_compute; reflexivity).
  assert (sound (view (after track_1_playing)) = Some 0%nat) as Hs
    by (vm_compute; reflexivity).
  assert (isSoundLoaded (view (after track_1_playing)) = true) as Hl
    by (vm_compute; reflexivity).
  assert (is_loaded (engine (after track_1_playing)) 0 = true) as He
    by (vm_compute; reflexivity).
  repeat (split; [first [exact Hgate | exact Hs | exact Hl | exact He
                        | vm_compute; reflexivity] |]).
  destruct (stop_by_cases _ Hgate) as [Hloaded _].
  destruct (Hloaded _ Hs Hl He)
    as (s1 & s2 & Hstep & _ & _ & _ & _ & Hkeep & _ & Hstep2 & Hp & Hs2 & Hl2
        & _ & He2 & _).
  assert (List.length (tasks (after track_1_playing)) = 0%nat) as Hn
    by (vm_compute; reflexivity).
  rewrite Hn in Hstep2.
  exists s1, s2. repeat split; [exact Hstep | exact Hstep2 | exact Hp
                                | exact Hs2 | exact Hl2 |].
  by rewrite He2, Hkeep.
Defined.

(** ** C10: the loaded flag *)

Lemma settle_failed s k r index track c :
  tasks s !! k = Some (AwaitCreate r index track c) ->
  step s (Settle k false)
  = Some (loadTrack_return r c
            (console_log (Error msg_load_error)
                         (set_tasks (delete k (tasks s)) s))).
Proof.
  intros Hk. unfold step. rewrite Hk. unfold resume, loadTrack_created.
  f_equal. apply rerender_same. by rewrite view_loadTrack_return.
Qed.

Lemma guards_reject_without_flag r s :
  sound r = None \/ isSoundLoaded r = false ->
  playPauseTrack r s = console_log (Warn msg_not_loaded) s
  /\ stopTrack r s = console_log (Warn msg_unable_to_stop) s.
Proof.
  unfold playPauseTrack, stopTrack. intros [-> | ->]; [done |].
  by destruct (sound r).
Qed.

Lemma guards_pass_with_sound r s h :
  sound r = Some h ->
  isSoundLoaded r = true ->
  console (playPauseTrack r s) = console s
  /\ calls (engine (playPauseTrack r s))
     = calls (engine s) ++ [if isPlaying r then PauseAsync h else PlayAsync h]
  /\ console (stopTrack r s) = console s
  /\ calls (engine (stopTrack r s)) = calls (engine s) ++ [StopAsync h].
Proof.
  intros Hs Hl.
  unfold playPauseTrack, stopTrack, engine_pause, engine_play, engine_stop.
  rewrite Hs, Hl. simpl. rewrite calls_engine_transport.
  destruct (isPlaying r); by rewrite calls_engine_transport.
Qed.

(** The flag is raised by a resolved [createAsync] and by nothing else. *)
Lemma loaded_flag_raised_by_load s ev s' :
  step s ev = Some s' ->
  isSoundLoaded (view s) = false ->
  isSoundLoaded (view s') = true ->
  exists k r index track c,
    ev = Settle k true /\ tasks s !! k = Some (AwaitCreate r index track c).
Proof.
  destruct ev as [b | i | k ok | rows]; simpl; intros Hstep Hf Ht.
  - case_match; [|discriminate]. injection Hstep as <-.
    rewrite view_afterPress, view_rerender, loaded_onPress in Ht. congruence.
  - case_match; [|discriminate]. injection Hstep as <-.
    rewrite view_rerender in Ht. simpl in Ht. congruence.
  - destruct (tasks s !! k) as [t|] eqn:Hk; [|discriminate].
    destruct (resume t ok _) as [s0|] eqn:Hres; [|discriminate].
    injection Hstep as <-. rewrite view_rerender in Ht.
    destruct t as [r index c | r index track c | r ok0 | r ok0];
      simpl in Hres.
    + destruct ok; [|discriminate]. injection Hres as <-.
      rewrite view_loadTrack_unloaded in Ht. simpl in Ht. congruence.
    + injection Hres as <-. rewrite view_loadTrack_created in Ht.
      destruct ok; [by eauto 10 |]. simpl in Ht. congruence.
    + case_match; [|discriminate]. injection Hres as <-.
      unfold playPauseTrack_resume in Ht. destruct ok; simpl in Ht; congruence.
    + case_match; [|discriminate]. injection Hres as <-.
      unfold stopTrack_resume in Ht. destruct ok; simpl in Ht; congruence.
  - case_match; [|discriminate]. injection Hstep as <-.
    rewrite view_rerender in Ht. destruct rows; simpl in Ht; congruence.
Qed.

(** C10, counterexample: Next is pressed on the freshly seeded player.
    The load started by the effect succeeds first: the loaded flag is
    set and the held sound is loaded.  Then the load started by
    [nextTrack] succeeds too, and [nextTrack] calls [playPauseTrack], a
    closure of the render of the press, in which there was no sound: its
    guard rejects the command and warns, after two loads have
    succeeded. *)
Lemma stale_guard_warns_after_successful_load :
  exists s1 s2,
    run mount next_effect_load_first = Some s1
    /\ isSoundLoaded (view s1) = true
    /\ sound (view s1) = Some 0%nat
    /\ is_loaded (engine s1) 0 = true
    /\ step s1 (Settle 0 true) = Some s2
    /\ tasks s2 = []
    /\ sound (view s2) = Some 1%nat
    /\ is_loaded (engine s2) 1 = true
    /\ calls (engine s2) = calls (engine s1)
    /\ console s2 = console s1 ++ [Warn msg_not_loaded].
Proof.
  do 2 eexists. split; [vm_compute; reflexivity |].
  do 3 (split; [vm_compute; reflexivity |]).
  split; [vm_compute; reflexivity |].
  repeat split; vm_compute; reflexivity.
Qed.

(** C10, as amended.
    - The loaded flag is raised by a load that succeeds and by nothing
      else, and no event ever lowers it again.
    - The guards of [playPauseTrack] and [stopTrack] test the sound and
      the flag of the render their closure belongs to: when that render
      has no sound or no flag they log their warning and do nothing
      else.
    - For a command pressed on screen, a closure of the latest render,
      this happens only before the first successful load: in every
      reachable state where the flag is up the guards let the command
      through to the engine.
    - The [playPauseTrack] that [nextTrack] and [previousTrack] call
      after their load is a closure of the render of the press: if that
      render had no sound or no flag it warns, whether the load succeeded
      or failed and whatever has been loaded since the press.
    - Commands that the guards let through reach a sound that is not
      loaded any more: with track 1 loaded and a switch to track 2 under
      way (old sound unloaded, new one not there yet), and also after
      the load of track 2 has failed, the flag is up, the held sound is
      unloaded, and pressing Play/Pause calls [playAsync] on it. *)
Theorem loaded_flag_is_never_reset :
  (forall s ev s',
     step s ev = Some s' ->
     (isSoundLoaded (view s) = true -> isSoundLoaded (view s') = true)
     /\ (isSoundLoaded (view s) = false -> isSoundLoaded (view s') = true ->
         exists k r index track c,
           ev = Settle k true
           /\ tasks s !! k = Some (AwaitCreate r index track c)))
  /\ (forall r s,
        sound r = None \/ isSoundLoaded r = false ->
        (view (playPauseTrack r s) = view s
         /\ engine (playPauseTrack r s) = engine s
         /\ tasks (playPauseTrack r s) = tasks s
         /\ console (playPauseTrack r s) = console s ++ [Warn msg_not_loaded])
        /\ (view (stopTrack r s) = view s
            /\ engine (stopTrack r s) = engine s
            /\ tasks (stopTrack r s) = tasks s
            /\ console (stopTrack r s)
               = console s ++ [Warn msg_unable_to_stop]))
  /\ (forall s,
        reachable s ->
        isSoundLoaded (view s) = true ->
        exists h,
          sound (view s) = Some h
          /\ console (playPauseTrack (view s) s) = console s
          /\ calls (engine (playPauseTrack (view s) s))
             = calls (engine s)
               ++ [if isPlaying (view s) then PauseAsync h else PlayAsync h]
          /\ console (stopTrack (view s) s) = console s
          /\ calls (engine (stopTrack (view s) s))
             = calls (engine s) ++ [StopAsync h])
  /\ (forall s k r index track ok,
        tasks s !! k = Some (AwaitCreate r index track FromTransport) ->
        sound r = None \/ isSoundLoaded r = false ->
        exists s',
          step s (Settle k ok) = Some s'
          /\ calls (engine s') = calls (engine s)
          /\ console s'
             = console s ++ (if ok then [] else [Error msg_load_error])
               ++ [Warn msg_not_loaded])
  /\ (forall evs,
        evs = switching_to_track_2 \/ evs = load_of_track_2_fails ->
        exists s s',
          run mount evs = Some s
          /\ isSoundLoaded (view s) = true
          /\ sound (view s) = Some 0%nat
          /\ is_loaded (engine s) 0 = false
          /\ step s (Press PlayPause) = Some s'
          /\ console s' = console s
          /\ calls (engine s') = calls (engine s) ++ [PlayAsync 0]
          /\ tasks s' = tasks s ++ [AwaitPlayPause (view s) false]).
Proof.
  split; [|split; [|split; [|split]]].
  - intros s ev s' Hstep. split.
    + by apply (step_loaded_mono _ _ _ Hstep).
    + by apply (loaded_flag_raised_by_load _ _ _ Hstep).
  - intros r s Hno.
    destruct (guards_reject_without_flag r s Hno) as [-> ->].
    by repeat split.
  - intros s Hreach Hl.
    destruct (flags_inv_reachable _ Hreach) as [[_ Hs] _].
    destruct (Hs Hl) as [h Hh]. exists h. split; [done |].
    by apply guards_pass_with_sound.
  - intros s k r index track ok Hk Hno. destruct ok.
    + eexists. split; [exact (settle_created _ _ _ _ _ _ Hk) |].
      unfold loadTrack_created, loadTrack_return.
      destruct (guards_reject_without_flag r
                  (setIsSoundLoaded true
                     (setSound (engine_created track
                                  (engine (set_tasks (delete k (tasks s)) s))).1
                        (set_engine
                           (engine_created track
                              (engine (set_tasks (delete k (tasks s)) s))).2
                           (set_tasks (delete k (tasks s)) s)))) Hno)
        as [-> _].
      by split.
    + eexists. split; [exact (settle_failed _ _ _ _ _ _ Hk) |].
      unfold loadTrack_return.
      destruct (guards_reject_without_flag r
                  (console_log (Error msg_load_error)
                     (set_tasks (delete k (tasks s)) s)) Hno) as [-> _].
      split; [done |]. simpl. by rewrite <- app_assoc.
  - intros evs [-> | ->]; do 2 eexists;
      (split; [vm_compute; reflexivity |]);
      repeat split; vm_compute; reflexivity.
Qed.

Lemma loaded_flag_is_never_reset_witness :
  step (after switching_to_track_2) (Settle 0 false)
  = Some (after load_of_track_2_fails)
  /\ isSoundLoaded (view (after switching_to_track_2)) = true
  /\ isSoundLoaded (view (after load_of_track_2_fails)) = true.
Proof.
  assert (step (after switching_to_track_2) (Settle 0 false)
          = Some (after load_of_track_2_fails)) as Hstep
    by (vm_compute; reflexivity).
  assert (isSoundLoaded (view (after switching_to_track_2)) = true) as Hl
    by (vm_compute; reflexivity).
  split; [exact Hstep |]. split; [exact Hl |].
  destruct loaded_flag_is_never_reset as [Hmono _].
  exact (proj1 (Hmono _ _ _ Hstep) Hl).
Defined.

(** ** C5: a load that fails *)

Lemma console_loadTrack_return r k s :
  exists rest, console (loadTrack_return r k s) = console s ++ rest.
Proof.
  destruct k; simpl; [exists []; by rewrite app_nil_r |].
  unfold playPauseTrack.
  destruct (sound r); [destruct (isSoundLoaded r) |]; simpl.
  - exists []. by rewrite app_nil_r.
  - by eexists.
  - by eexists.
Qed.

Lemma object_is_neq a b : a <> b -> JS.object_is a b = false.
Proof.
  destruct a as [x|], b as [y|]; simpl; try done.
  intros Hne. apply Z.eqb_neq. congruence.
Qed.

(** Pressing another list item starts a load of that item. *)
Lemma press_other_song s i :
  (i < List.length (songs (view s)))%nat ->
  currentTrackIndex (view s) <> JS.Num (Z.of_nat i) ->
  exists s' t,
    step s (PressSong i) = Some s'
    /\ currentTrackIndex (view s') = JS.Num (Z.of_nat i)
    /\ tasks s' = tasks s ++ [t]
    /\ loading t = Some (JS.Num (Z.of_nat i)).
Proof.
  intros Hi Hne. unfold step.
  destruct (Nat.ltb_spec i (List.length (songs (view s)))); [|lia].
  unfold rerender. simpl. rewrite (object_is_neq _ _ Hne).
  unfold effect_run, loadTrack. simpl.
  destruct (sound (view s)) as [h|] eqn:Hs.
  - do 2 eexists. split; [reflexivity |]. simpl.
    rewrite tasks_effect_cleanup, view_effect_cleanup. simpl.
    repeat split; reflexivity.
  - unfold loadTrack_try. simpl.
    destruct (Z.leb_spec 0 (Z.of_nat i)); [|lia]. rewrite Nat2Z.id.
    destruct (songs (view s) !! i) as [song|] eqn:Hsong.
    + do 2 eexists. split; [reflexivity |]. simpl.
      rewrite tasks_effect_cleanup, view_effect_cleanup. simpl.
      repeat split; reflexivity.
    + apply lookup_ge_None in Hsong. lia.
Qed.

(** C5, counterexample: track 1 is loaded, list item 2 is pressed and the
    engine fails to load track 2.  Afterwards the loaded flag is still set
    and the component still holds the sound of track 1, which the engine
    has unloaded. *)
Lemma failed_load_leaves_loaded_flag_set :
  exists s,
    run mount load_of_track_2_fails = Some s
    /\ tasks s = []
    /\ currentTrackIndex (view s) = JS.Num 2
    /\ isSoundLoaded (view s) = true
    /\ sound (view s) = Some 0%nat
    /\ is_loaded (engine s) 0 = false.
Proof.
  eexists. split; [vm_compute; reflexivity |].
  repeat split; vm_compute; reflexivity.
Qed.

(** ** C2: what Next and Previous do after the load *)

(** When the load started by [nextTrack] or [previousTrack] succeeds,
    the new sound gets the next free handle, and the call that follows is
    the toggle of the closure [r]: on the sound [r] holds, by the
    [isPlaying] of [r]; with no sound or no flag in [r] it only warns. *)
Lemma transport_continuation_is_a_stale_toggle s k r index track :
  tasks s !! k = Some (AwaitCreate r index track FromTransport) ->
  exists s',
    step s (Settle k true) = Some s'
    /\ sound (view s') = Some (List.length (units (engine s)))
    /\ match sound r with
       | Some h =>
           if isSoundLoaded r
           then calls (engine s')
                = calls (engine s)
                  ++ [if isPlaying r then PauseAsync h else PlayAsync h]
           else calls (engine s') = calls (engine s)
                /\ console s' = console s ++ [Warn msg_not_loaded]
       | None => calls (engine s') = calls (engine s)
                 /\ console s' = console s ++ [Warn msg_not_loaded]
       end.
Proof.
  intros Hk. eexists. split; [exact (settle_created _ _ _ _ _ _ Hk) |].
  rewrite view_loadTrack_created. split; [reflexivity |].
  unfold loadTrack_created, loadTrack_return, playPauseTrack,
    engine_pause, engine_play. simpl.
  destruct (sound r); [destruct (isSoundLoaded r) |]; simpl; try done.
  destruct (isPlaying r); by rewrite calls_engine_transport.
Qed.

(** C2, the code at the failing inputs.  [nextTrack] and [previousTrack]
    call [playPauseTrack] of their own render, which toggles on the old
    [isPlaying] and acts on the old sound, unloaded by then.
    - Track 1 is playing and Next is pressed: the call after the load is
      [pauseAsync] on the old sound 0; the engine rejects it.  At the end
      the sound of track 2 is held and loaded, no unit is playing, and
      [isPlaying] is still [true].
    - Track 1 is loaded and paused and Previous is pressed: the call is
      [playAsync], again on the old sound 0, and is rejected; no unit is
      playing at the end.
    In neither run is [playAsync] called on a new sound (1 or 2). *)
Theorem next_previous_do_not_start_the_new_track :
  (exists s,
     run mount next_while_playing = Some s
     /\ tasks s = []
     /\ currentTrackIndex (view s) = JS.Num 2
     /\ sound (view s) = Some 2%nat
     /\ held_track s = Some (track 2)
     /\ is_loaded (engine s) 2 = true
     /\ Forall (fun u => unit_playing u = false) (units (engine s))
     /\ isPlaying (view s) = true
     /\ calls (engine s)
        = [CreateAsync (track 1); PlayAsync 0;
           UnloadAsync 0; UnloadAsync 0;
           CreateAsync (track 2); CreateAsync (track 2);
           PauseAsync 0]
     /\ console s
        = [Error msg_load_error; Error msg_play_pause_error])
  /\ (exists s,
        run mount previous_while_paused = Some s
        /\ tasks s = []
        /\ currentTrackIndex (view s) = JS.Num 0
        /\ sound (view s) = Some 2%nat
        /\ held_track s = Some (track 0)
        /\ is_loaded (engine s) 2 = true
        /\ Forall (fun u => unit_playing u = false) (units (engine s))
        /\ isPlaying (view s) = false
        /\ calls (engine s)
           = [CreateAsync (track 1);
              UnloadAsync 0; UnloadAsync 0;
              CreateAsync (track 0); CreateAsync (track 0);
              PlayAsync 0]
        /\ console s
           = [Error msg_load_error; Error msg_play_pause_error]).
Proof.
  split; eexists; (split; [vm_compute; reflexivity |]);
    repeat split; try (vm_compute; reflexivity);
    vm_compute; repeat constructor.
Qed.

(** ** C6: how many units are loaded *)

(** C6, the code at the failing inputs.
    - One press of Next on the freshly seeded player: [nextTrack] loads
      the track, and so does the effect that the new index triggers.  Two
      [createAsync] are issued and no [unloadAsync]; two units are loaded
      at once, and the component holds only the second.
    - Unit 0 is never released: after list item 3 is pressed and loaded,
      the held unit 1 has been unloaded, unit 0 has not, and two units are
      loaded again.
    - With list presses only, one at a time: the first sound is unloaded
      twice, by [loadTrack] of the second selection and by the effect
      cleanup of the third. *)
Theorem next_loads_two_units :
  (exists s,
     run mount next_from_start = Some s
     /\ tasks s = []
     /\ calls (engine s) = [CreateAsync (track 1); CreateAsync (track 1)]
     /\ sound (view s) = Some 1%nat
     /\ is_loaded (engine s) 0 = true
     /\ is_loaded (engine s) 1 = true
     /\ List.length (loaded_units (engine s)) = 2%nat)
  /\ (exists s,
        run mount next_then_select_3 = Some s
        /\ tasks s = []
        /\ calls (engine s)
           = [CreateAsync (track 1); CreateAsync (track 1);
              UnloadAsync 1; CreateAsync (track 3)]
        /\ sound (view s) = Some 2%nat
        /\ is_loaded (engine s) 0 = true
        /\ is_loaded (engine s) 1 = false
        /\ is_loaded (engine s) 2 = true
        /\ List.length (loaded_units (engine s)) = 2%nat)
  /\ (exists s,
        run mount three_selections = Some s
        /\ tasks s = []
        /\ calls (engine s)
           = [CreateAsync (track 1);
              UnloadAsync 0; CreateAsync (track 2);
              UnloadAsync 0; UnloadAsync 1; CreateAsync (track 3)]).
Proof.
  repeat split; eexists; (split; [vm_compute; reflexivity |]);
    repeat split; vm_compute; reflexivity.
Qed.

(** ** C7: the playlist arrives *)

(** C7, the code when the playlist arrives.  The only automatic
    [loadTrack(0)] ran at mount, on the empty playlist, where
    [songs[0].uri] threw and the error was logged.  When the catalog query
    delivers [rows], whatever they are, [setSongs] changes no dependency
    of the effect, so nothing is loaded: no engine call has been issued,
    no closure is suspended, and the component holds no sound. *)
Theorem playlist_arrival_loads_nothing rows :
  console mount = [Error msg_load_error]
  /\ calls (engine mount) = []
  /\ exists s,
       step mount (Fetched (Some rows)) = Some s
       /\ songs (view s) = rows
       /\ currentTrackIndex (view s) = JS.Num 0
       /\ sound (view s) = None
       /\ isSoundLoaded (view s) = false
       /\ isPlaying (view s) = false
       /\ calls (engine s) = []
       /\ units (engine s) = []
       /\ tasks s = []
       /\ console s = [Error msg_load_error].
Proof.
  split; [reflexivity |]. split; [reflexivity |].
  eexists. split; [reflexivity |]. repeat split.
Qed.

(** * Further properties of the component *)

Lemma reachable_run evs : forall s s',
  reachable s -> run s evs = Some s' -> reachable s'.
Proof.
  induction evs as [| ev evs IH]; simpl; intros s s' Hreach Hrun.
  - by injection Hrun as <-.
  - destruct (step s ev) as [s1|] eqn:Hstep; [|discriminate].
    eapply IH; [|exact Hrun]. by eapply reachable_step.
Qed.

(** ** Next and Previous on the index *)

Lemma wrap_next_previous c n :
  0 <= c < n -> ((c + 1) mod n - 1 + n) mod n = c.
Proof.
  intros Hc. destruct (Z.eq_dec (c + 1) n) as [Heq | Hne].
  - rewrite Heq, Z.mod_same by lia. rewrite Z.mod_small by lia. lia.
  - rewrite (Z.mod_small (c + 1)) by lia.
    replace (c + 1 - 1 + n) with (c + 1 * n) by lia.
    rewrite Z.mod_add by lia. apply Z.mod_small. lia.
Qed.

Lemma wrap_previous_next c n :
  0 <= c < n -> ((c - 1 + n) mod n + 1) mod n = c.
Proof.
  intros Hc. destruct (Z.eq_dec c 0) as [-> | Hne].
  - rewrite (Z.mod_small (0 - 1 + n)) by lia.
    replace (0 - 1 + n + 1) with n by lia. apply Z.mod_same. lia.
  - replace (c - 1 + n) with (c - 1 + 1 * n) by lia.
    rewrite Z.mod_add by lia. rewrite (Z.mod_small (c - 1)) by lia.
    replace (c - 1 + 1) with c by lia. apply Z.mod_small. lia.
Qed.

(** X1: on a non-empty playlist, Next followed by Previous, and Previous
    followed by Next, bring the current index back to where it was, from
    every state the application can reach. *)
Theorem next_previous_cancel_on_index s :
  reachable s ->
  (0 < List.length (songs (view s)))%nat ->
  (exists s1 s2,
     step s (Press Next) = Some s1
     /\ step s1 (Press Previous) = Some s2
     /\ currentTrackIndex (view s2) = currentTrackIndex (view s))
  /\ (exists s1 s2,
        step s (Press Previous) = Some s1
        /\ step s1 (Press Next) = Some s2
        /\ currentTrackIndex (view s2) = currentTrackIndex (view s)).
Proof.
  intros Hreach Hn. destruct (index_inv_reachable _ Hreach) as [Hidx _].
  destruct (index_ok_in_range _ Hidx Hn) as (c & Hc & Hr).
  set (n := Z.of_nat (List.length (songs (view s)))) in *.
  split.
  - destruct (press_next _ _ Hc Hr) as (s1 & Hs1 & Hsongs & Hi1).
    fold n in Hi1. pose proof (Z.mod_pos_bound (c + 1) n ltac:(lia)) as Hb.
    destruct (press_previous s1 _ Hi1) as (s2 & Hs2 & _ & Hi2);
      [by rewrite Hsongs |].
    rewrite Hsongs in Hi2. fold n in Hi2.
    exists s1, s2. repeat split; [done | done |].
    by rewrite Hi2, Hc, wrap_next_previous.
  - destruct (press_previous _ _ Hc Hr) as (s1 & Hs1 & Hsongs & Hi1).
    fold n in Hi1. pose proof (Z.mod_pos_bound (c - 1 + n) n ltac:(lia)) as Hb.
    destruct (press_next s1 _ Hi1) as (s2 & Hs2 & _ & Hi2);
      [by rewrite Hsongs |].
    rewrite Hsongs in Hi2. fold n in Hi2.
    exists s1, s2. repeat split; [done | done |].
    by rewrite Hi2, Hc, wrap_previous_next.
Qed.

Lemma next_previous_cancel_on_index_witness :
  reachable (after track_1_loaded)
  /\ (0 < List.length (songs (view (after track_1_loaded))))%nat
  /\ exists s1 s2,
       step (after track_1_loaded) (Press Next) = Some s1
       /\ step s1 (Press Previous) = Some s2
       /\ currentTrackIndex (view s2) = JS.Num 1.
Proof.
  assert (reachable (after track_1_loaded)) as Hreach
    by (eapply reachable_after; vm_compute; reflexivity).
  assert (0 < List.length (songs (view (after track_1_loaded))))%nat as Hn
    by (vm_compute; lia).
  split; [exact Hreach |]. split; [exact Hn |].
  destruct (next_previous_cancel_on_index _ Hreach Hn)
    as [(s1 & s2 & H1 & H2 & Hi) _].
  exists s1, s2. split; [exact H1 |]. split; [exact H2 |].
  rewrite Hi. vm_compute. reflexivity.
Defined.

Lemma presses_next_index k : forall s c,
  currentTrackIndex (view s) = JS.Num c ->
  0 <= c < Z.of_nat (List.length (songs (view s))) ->
  exists s',
    run s (presses Next k) = Some s'
    /\ songs (view s') = songs (view s)
    /\ currentTrackIndex (view s')
       = JS.Num ((c + Z.of_nat k) mod Z.of_nat (List.length (songs (view s)))).
Proof.
  induction k as [| k IH]; intros s c Hc Hr.
  - exists s. simpl. repeat split. rewrite Z.add_0_r, Z.mod_small; done.
  - destruct (press_next _ _ Hc Hr) as (s1 & Hs1 & Hsongs & Hi1).
    set (n := Z.of_nat (List.length (songs (view s)))) in *.
    pose proof (Z.mod_pos_bound (c + 1) n ltac:(lia)) as Hb.
    destruct (IH s1 _ Hi1) as (s' & Hrun & Hsongs' & Hi');
      [by rewrite Hsongs |].
    exists s'. change (presses Next (S k)) with (Press Next :: presses Next k).
    cbn [run]. rewrite Hs1. split; [exact Hrun |].
    split; [congruence |].
    rewrite Hi', Hsongs. fold n. f_equal.
    rewrite Zplus_mod_idemp_l. f_equal. lia.
Qed.

Lemma presses_previous_index k : forall s c,
  currentTrackIndex (view s) = JS.Num c ->
  0 <= c < Z.of_nat (List.length (songs (view s))) ->
  exists s',
    run s (presses Previous k) = Some s'
    /\ songs (view s') = songs (view s)
    /\ currentTrackIndex (view s')
       = JS.Num ((c - Z.of_nat k) mod Z.of_nat (List.length (songs (view s)))).
Proof.
  induction k as [| k IH]; intros s c Hc Hr.
  - exists s. simpl. repeat split. rewrite Z.sub_0_r, Z.mod_small; done.
  - destruct (press_previous _ _ Hc Hr) as (s1 & Hs1 & Hsongs & Hi1).
    set (n := Z.of_nat (List.length (songs (view s)))) in *.
    pose proof (Z.mod_pos_bound (c - 1 + n) n ltac:(lia)) as Hb.
    destruct (IH s1 _ Hi1) as (s' & Hrun & Hsongs' & Hi');
      [by rewrite Hsongs |].
    exists s'.
    change (presses Previous (S k)) with (Press Previous :: presses Previous k).
    cbn [run]. rewrite Hs1. split; [exact Hrun |].
    split; [congruence |].
    rewrite Hi', Hsongs. fold n. f_equal.
    rewrite Zminus_mod_idemp_l.
    replace (c - 1 + n - Z.of_nat k) with (c - Z.of_nat (S k) + 1 * n) by lia.
    apply Z.mod_add. lia.
Qed.

(** X2: on a playlist of [n > 0] tracks at index [c], [k] presses of Next
    in a row lead to index [(c + k) mod n] and [k] presses of Previous to
    [(c - k) mod n]; in particular [n] presses of either return to [c]. *)
Theorem repeated_presses_wrap_around s c k :
  reachable s ->
  (0 < List.length (songs (view s)))%nat ->
  currentTrackIndex (view s) = JS.Num c ->
  let n := Z.of_nat (List.length (songs (view s))) in
  (exists s',
     run s (presses Next k) = Some s'
     /\ currentTrackIndex (view s') = JS.Num ((c + Z.of_nat k) mod n))
  /\ (exists s',
        run s (presses Previous k) = Some s'
        /\ currentTrackIndex (view s') = JS.Num ((c - Z.of_nat k) mod n))
  /\ (exists s',
        run s (presses Next (List.length (songs (view s)))) = Some s'
        /\ currentTrackIndex (view s') = JS.Num c)
  /\ (exists s',
        run s (presses Previous (List.length (songs (view s)))) = Some s'
        /\ currentTrackIndex (view s') = JS.Num c).
Proof.
  intros Hreach Hn Hc n. destruct (index_inv_reachable _ Hreach) as [Hidx _].
  destruct (index_ok_in_range _ Hidx Hn) as (c' & Hc' & Hr).
  assert (c' = c) as -> by congruence.
  split; [|split; [|split]].
  - destruct (presses_next_index k _ _ Hc Hr) as (s' & Hrun & _ & Hi). eauto.
  - destruct (presses_previous_index k _ _ Hc Hr) as (s' & Hrun & _ & Hi). eauto.
  - destruct (presses_next_index (List.length (songs (view s))) _ _ Hc Hr)
      as (s' & Hrun & _ & Hi).
    exists s'. split; [done |]. rewrite Hi. f_equal. fold n.
    replace (c + n) with (c + 1 * n) by lia.
    rewrite Z.mod_add by lia. apply Z.mod_small. lia.
  - destruct (presses_previous_index (List.length (songs (view s))) _ _ Hc Hr)
      as (s' & Hrun & _ & Hi).
    exists s'. split; [done |]. rewrite Hi. f_equal. fold n.
    replace (c - n) with (c + (-1) * n) by lia.
    rewrite Z.mod_add by lia. apply Z.mod_small. lia.
Qed.

Lemma repeated_presses_wrap_around_witness :
  reachable (after [seeded])
  /\ (0 < List.length (songs (view (after [seeded]))))%nat
  /\ currentTrackIndex (view (after [seeded])) = JS.Num 0
  /\ exists s',
       run (after [seeded]) (presses Next 5) = Some s'
       /\ currentTrackIndex (view s') = JS.Num 0.
Proof.
  assert (reachable (after [seeded])) as Hreach
    by (eapply reachable_after; vm_compute; reflexivity).
  assert (0 < List.length (songs (view (after [seeded]))))%nat as Hn
    by (vm_compute; lia).
  assert (currentTrackIndex (view (after [seeded])) = JS.Num 0) as Hc
    by (vm_compute; reflexivity).
  split; [exact Hreach |]. split; [exact Hn |]. split; [exact Hc |].
  destruct (repeated_presses_wrap_around _ _ 0%nat Hreach Hn Hc)
    as (_ & _ & Hnext & _).
  exact Hnext.
Defined.

(** ** How many loads a press starts *)

(** [loadTrack] for an index of the playlist always suspends: at the
    unload of the held sound, or at the load. *)
Lemma loadTrack_suspends r index k s :
  is_Some (JS.get (songs r) index) ->
  exists t,
    tasks (loadTrack r index k s) = tasks s ++ [t]
    /\ loading t = Some index /\ caller t = Some k /\ closure t = r.
Proof.
  intros [song Hsong]. unfold loadTrack, loadTrack_try.
  destruct (sound r); [|rewrite Hsong]; eexists; simpl; by repeat split.
Qed.

Lemma transport_load_tasks s n z :
  n = JS.Num z ->
  0 <= z < Z.of_nat (List.length (songs (view s))) ->
  let s' := rerender (view s)
              (loadTrack (view s) n FromTransport (setCurrentTrackIndex n s)) in
  currentTrackIndex (view s') = n
  /\ (JS.object_is (currentTrackIndex (view s)) n = true ->
      exists t,
        tasks s' = tasks s ++ [t]
        /\ loading t = Some n /\ caller t = Some FromTransport
        /\ closure t = view s)
  /\ (JS.object_is (currentTrackIndex (view s)) n = false ->
      exists t1 t2,
        tasks s' = tasks s ++ [t1; t2]
        /\ loading t1 = Some n /\ caller t1 = Some FromTransport
        /\ closure t1 = view s
        /\ loading t2 = Some n /\ caller t2 = Some FromEffect
        /\ closure t2 = view s').
Proof.
  intros Hn Hz s'.
  destruct (loadTrack_suspends (view s) n FromTransport
              (setCurrentTrackIndex n s)) as (t1 & Ht1 & Hl1 & Hc1 & Hr1).
  { rewrite Hn. by apply get_in_range. }
  remember (loadTrack (view s) n FromTransport (setCurrentTrackIndex n s))
    as s0 eqn:Hs0.
  assert (view s0 = view (setCurrentTrackIndex n s)) as Hv0
    by (by rewrite Hs0, view_loadTrack).
  assert (currentTrackIndex (view s0) = n) as Hi0 by (by rewrite Hv0).
  assert (songs (view s0) = songs (view s)) as Hsongs by (by rewrite Hv0).
  split; [subst s'; by rewrite view_rerender |].
  split; intros Hsame; subst s'; unfold rerender; rewrite Hi0, Hsame.
  - exists t1. by rewrite Ht1.
  - unfold effect_run.
    destruct (loadTrack_suspends (view s0) (currentTrackIndex (view s0))
                FromEffect
                (set_effectClosure (view s0)
                   (effect_cleanup (effectClosure s0) s0)))
      as (t2 & Ht2 & Hl2 & Hc2 & Hr2).
    { rewrite Hi0, Hsongs, Hn. by apply get_in_range. }
    exists t1, t2. rewrite Ht2, view_loadTrack.
    change (tasks (set_effectClosure (view s0)
                     (effect_cleanup (effectClosure s0) s0)))
      with (tasks (effect_cleanup (effectClosure s0) s0)).
    change (view (set_effectClosure (view s0)
                    (effect_cleanup (effectClosure s0) s0)))
      with (view (effect_cleanup (effectClosure s0) s0)).
    rewrite tasks_effect_cleanup, view_effect_cleanup, Ht1, <- app_assoc.
    rewrite Hi0 in Hl2. by repeat split.
Qed.

(** X3: from every reachable state with at least two tracks, one press of
    Next or Previous starts two loads of the new index: one by the
    function itself, a closure of the render before the press, and one by
    the effect that the changed index triggers, a closure of the new
    render.  With a single track the index does not change, the effect
    does not run, and the press starts one load, a reload of that
    track. *)
Theorem transport_press_starts_two_loads s b :
  reachable s ->
  b = Next \/ b = Previous ->
  ((2 <= List.length (songs (view s)))%nat ->
   exists s' t1 t2,
     step s (Press b) = Some s'
     /\ currentTrackIndex (view s') <> currentTrackIndex (view s)
     /\ tasks s' = tasks s ++ [t1; t2]
     /\ loading t1 = Some (currentTrackIndex (view s'))
     /\ caller t1 = Some FromTransport
     /\ closure t1 = view s
     /\ loading t2 = Some (currentTrackIndex (view s'))
     /\ caller t2 = Some FromEffect
     /\ closure t2 = view s')
  /\ (List.length (songs (view s)) = 1%nat ->
      exists s' t,
        step s (Press b) = Some s'
        /\ view s' = view s
        /\ tasks s' = tasks s ++ [t]
        /\ loading t = Some (currentTrackIndex (view s))
        /\ caller t = Some FromTransport
        /\ closure t = view s).
Proof.
  intros Hreach Hb. destruct (index_inv_reachable _ Hreach) as [Hidx _].
  set (n := Z.of_nat (List.length (songs (view s)))).
  assert (forall c, currentTrackIndex (view s) = JS.Num c -> 0 <= c < n ->
          exists z, 0 <= z < n
                    /\ (2 <= n -> z <> c) /\ (n = 1 -> z = c)
                    /\ step s (Press b)
                       = Some (rerender (view s)
                                 (loadTrack (view s) (JS.Num z) FromTransport
                                    (setCurrentTrackIndex (JS.Num z) s))))
    as Hpress.
  { intros c Hc Hr. unfold step.
    rewrite (transport_rendered_index _ _ Hc Hr).
    rewrite (afterPress_in_range _ _ _ _ Hc Hr).
    destruct Hb as [-> | ->]; simpl.
    - exists ((c + 1) mod n). unfold nextTrack.
      rewrite (nextIndex_wraps _ _ Hc Hr). fold n.
      pose proof (Z.mod_pos_bound (c + 1) n ltac:(lia)).
      split; [lia |]. split; [|split; [|reflexivity]].
      + intros H2. destruct (Z.eq_dec (c + 1) n) as [Heq | Hne].
        * rewrite Heq, Z.mod_same by lia. lia.
        * rewrite Z.mod_small by lia. lia.
      + intros ->. assert (c = 0) as -> by lia. reflexivity.
    - exists ((c - 1 + n) mod n). unfold previousTrack.
      rewrite (prevIndex_wraps _ _ Hc Hr). fold n.
      pose proof (Z.mod_pos_bound (c - 1 + n) n ltac:(lia)).
      split; [lia |]. split; [|split; [|reflexivity]].
      + intros H2. destruct (Z.eq_dec c 0) as [-> | Hne].
        * rewrite Z.mod_small by lia. lia.
        * replace (c - 1 + n) with (c - 1 + 1 * n) by lia.
          rewrite Z.mod_add, Z.mod_small by lia. lia.
      + intros ->. assert (c = 0) as -> by lia. reflexivity. }
  split.
  - intros H2. destruct (index_ok_in_range _ Hidx ltac:(lia)) as (c & Hc & Hr).
    destruct (Hpress c Hc Hr) as (z & Hz & Hne & _ & Hstep).
    destruct (transport_load_tasks s (JS.Num z) z eq_refl Hz)
      as (Hi & _ & Htwo).
    destruct Htwo as (t1 & t2 & Hts & H1 & H2' & H3 & H4 & H5 & H6).
    { rewrite Hc. simpl. apply Z.eqb_neq. intros ->. apply Hne; [lia | done]. }
    eexists _, t1, t2. split; [exact Hstep |]. rewrite Hi.
    repeat split; try done.
    rewrite Hc. intros [= ->]. apply Hne; [lia | done].
  - intros H1. destruct (index_ok_in_range _ Hidx ltac:(lia)) as (c & Hc & Hr).
    destruct (Hpress c Hc Hr) as (z & Hz & _ & Heq & Hstep).
    assert (z = c) as -> by (apply Heq; lia).
    destruct (transport_load_tasks s (JS.Num c) c eq_refl Hz)
      as (Hi & Hone & _).
    destruct Hone as (t & Hts & Hl & Hk & Hr').
    { rewrite Hc. apply object_is_refl. }
    eexists _, t. split; [exact Hstep |].
    rewrite Hc. repeat split; try done.
    rewrite view_rerender, view_loadTrack.
    rewrite <- Hc. by rewrite setCurrentTrackIndex_same.
Qed.

Lemma transport_press_starts_two_loads_witness :
  reachable (after track_1_loaded)
  /\ (2 <= List.length (songs (view (after track_1_loaded))))%nat
  /\ exists s' t1 t2,
       step (after track_1_loaded) (Press Next) = Some s'
       /\ tasks s' = tasks (after track_1_loaded) ++ [t1; t2]
       /\ caller t1 = Some FromTransport
       /\ caller t2 = Some FromEffect.
Proof.
  assert (reachable (after track_1_loaded)) as Hreach
    by (eapply reachable_after; vm_compute; reflexivity).
  assert (2 <= List.length (songs (view (after track_1_loaded))))%nat as Hn
    by (vm_compute; lia).
  split; [exact Hreach |]. split; [exact Hn |].
  destruct (transport_press_starts_two_loads _ Next Hreach (or_introl eq_refl))
    as [Htwo _].
  destruct (Htwo Hn) as (s' & t1 & t2 & Hstep & _ & Hts & _ & Hk1 & _ & _ & Hk2 & _).
  exists s', t1, t2. repeat split; assumption.
Defined.

(** ** The empty playlist *)

Lemma songs_onPress b r s : songs (view (onPress b r s)) = songs (view s).
Proof.
  destruct b; simpl;
    rewrite ?view_previousTrack, ?view_playPauseTrack, ?view_stopTrack,
            ?view_nextTrack; reflexivity.
Qed.

(** Only the answer of the catalog query changes the playlist. *)
Lemma step_songs s ev s' :
  step s ev = Some s' ->
  songs (view s') = songs (view s) \/ exists rows, ev = Fetched rows.
Proof.
  destruct ev as [b | i | k ok | rows]; simpl; intros Hstep; [| | |by eauto].
  - case_match; [|discriminate]. injection Hstep as <-. left.
    by rewrite view_afterPress, view_rerender, songs_onPress.
  - case_match; [|discriminate]. injection Hstep as <-. left.
    by rewrite view_rerender.
  - destruct (tasks s !! k) as [t|]; [|discriminate].
    destruct (resume t ok _) as [s0|] eqn:Hres; [|discriminate].
    injection Hstep as <-. left. rewrite view_rerender.
    by destruct (index_resume _ _ _ _ Hres) as [_ ->].
Qed.

Lemma transport_rendered_empty r : songs r = [] -> transport_rendered r = false.
Proof. intros Hs. unfold transport_rendered. by rewrite Hs. Qed.

Lemma step_empty_playlist s ev s' :
  songs (view s) = [] -> tasks s = [] ->
  step s ev = Some s' -> exists rows, ev = Fetched rows.
Proof.
  intros Hs Ht. destruct ev as [b | i | k ok | rows]; simpl; [| | |by eauto].
  - by rewrite (transport_rendered_empty _ Hs).
  - rewrite Hs. simpl. by destruct i.
  - rewrite Ht. by rewrite lookup_nil.
Qed.

Lemma idle_inv_step s ev s' :
  index_inv s -> idle_inv s -> step s ev = Some s' -> idle_inv s'.
Proof.
  intros [_ Hdb] Hidle Hstep Hs'.
  destruct (songs (view s)) as [| song l] eqn:Hs.
  - destruct (Hidle Hs) as (Hv & He & Ht & Heng).
    destruct (step_empty_playlist _ _ _ Hs Ht Hstep) as [rows ->].
    simpl in Hstep. destruct (dbPending s); [|discriminate].
    injection Hstep as <-.
    rewrite rerender_same in * by (by destruct rows).
    destruct rows as [rows|]; simpl in *; [|done].
    rewrite Hs'. by rewrite Hv.
  - destruct (step_songs _ _ _ Hstep) as [Heq | [rows ->]]; [congruence |].
    simpl in Hstep. destruct (dbPending s); [|discriminate].
    by specialize (Hdb eq_refl).
Qed.

Lemma idle_inv_reachable s : reachable s -> idle_inv s.
Proof.
  intros [evs Hrun]. revert Hrun.
  assert (index_inv mount /\ idle_inv mount) as Hm
    by (split; [apply index_inv_mount | by intros _]).
  revert Hm. generalize mount. induction evs as [| ev evs IH]; simpl.
  - intros s0 [_ Hidle] [= ->]. done.
  - intros s0 [Hidx Hidle]. destruct (step s0 ev) as [s1|] eqn:Hstep;
      [|discriminate].
    apply IH. split; [by eapply index_inv_step | by eapply idle_inv_step].
Qed.

(** X4: as long as the playlist is empty (the catalog query has not
    answered, has failed, or has returned no rows) the player is idle:
    the hook values are the initial ones, no closure is suspended, the
    engine has never been called, and no press or completion is possible;
    the only event that can happen is the answer of the catalog query. *)
Theorem empty_playlist_is_idle s :
  reachable s ->
  songs (view s) = [] ->
  view s = initialRender
  /\ tasks s = []
  /\ engine s = mkEngine [] []
  /\ screen (view s) = LoadingSongs
  /\ forall ev s', step s ev = Some s' -> exists rows, ev = Fetched rows.
Proof.
  intros Hreach Hs.
  destruct (idle_inv_reachable _ Hreach Hs) as (Hv & _ & Ht & He).
  repeat split; try done.
  - unfold screen. by rewrite (transport_rendered_empty _ Hs).
  - intros ev s'. by apply step_empty_playlist.
Qed.

Lemma empty_playlist_is_idle_witness :
  reachable (after [Fetched (Some [])])
  /\ songs (view (after [Fetched (Some [])])) = []
  /\ tasks (after [Fetched (Some [])]) = []
  /\ engine (after [Fetched (Some [])]) = mkEngine [] [].
Proof.
  assert (reachable (after [Fetched (Some [])])) as Hreach
    by (eapply reachable_after; vm_compute; reflexivity).
  assert (songs (view (after [Fetched (Some [])])) = []) as Hs
    by (vm_compute; reflexivity).
  split; [exact Hreach |]. split; [exact Hs |].
  destruct (empty_playlist_is_idle _ Hreach Hs) as (_ & Ht & He & _).
  split; [exact Ht | exact He].
Defined.

(** X5: in every reachable state, what is on screen follows the
    playlist: the placeholder exactly while the playlist is empty, and
    otherwise the player with the title and artwork of the song at the
    current index (which is an index of the playlist) and the label
    "Pause" while [isPlaying], "Play" otherwise. *)
Theorem screen_shows_current_track s :
  reachable s ->
  (songs (view s) = [] -> screen (view s) = LoadingSongs)
  /\ (songs (view s) <> [] ->
      exists c song,
        currentTrackIndex (view s) = JS.Num (Z.of_nat c)
        /\ songs (view s) !! c = Some song
        /\ screen (view s)
           = Player (title song) (image song)
                    (if isPlaying (view s) then "Pause"%string
                     else "Play"%string)).
Proof.
  intros Hreach. split.
  - intros Hs. unfold screen. by rewrite (transport_rendered_empty _ Hs).
  - intros Hs. destruct (index_inv_reachable _ Hreach) as [Hidx _].
    destruct (index_ok_in_range _ Hidx) as (c & Hc & Hr).
    { destruct (songs (view s)); [done | simpl; lia]. }
    destruct (lookup_lt_is_Some_2 (songs (view s)) (Z.to_nat c)) as [song Hsong];
      [lia |].
    exists (Z.to_nat c), song. rewrite Z2Nat.id by lia.
    split; [done |]. split; [done |].
    unfold screen. rewrite (transport_rendered_index _ _ Hc Hr), Hc. simpl.
    destruct (Z.leb_spec 0 c); [|lia]. by rewrite Hsong.
Qed.

Lemma screen_shows_current_track_witness :
  reachable (after track_1_playing)
  /\ songs (view (after track_1_playing)) <> []
  /\ screen (view (after track_1_playing))
     = Player "Enganchados #20 - DJ Sol"%string
         (Some "https://yt3.googleusercontent.com/Wb3Tv03dV9EtUMJj6I4yynWVyvX6TGb367TQUlSq33fOHxt0d84ItAvPN0FepmzFCxADPjasRSo=s900-c-k-c0x00ffffff-no-rj"%string)
         "Pause"%string.
Proof.
  assert (reachable (after track_1_playing)) as Hreach
    by (eapply reachable_after; vm_compute; reflexivity).
  assert (songs (view (after track_1_playing)) <> []) as Hs
    by (vm_compute; discriminate).
  split; [exact Hreach |]. split; [exact Hs |].
  destruct (screen_shows_current_track _ Hreach) as [_ Hplayer].
  destruct (Hplayer Hs) as (c & song & Hc & Hsong & Hscreen).
  assert (currentTrackIndex (view (after track_1_playing)) = JS.Num 1) as Hi
    by (vm_compute; reflexivity).
  assert (c = 1%nat) as -> by (rewrite Hi in Hc; injection Hc; lia).
  vm_compute in Hsong. injection Hsong as <-.
  rewrite Hscreen. vm_compute. reflexivity.
Defined.

(** ** The sounds that closures hold *)

Lemma closures_playPauseTrack (Q : option Handle -> Prop) r s :
  Q (sound r) ->
  Forall (fun t => Q (sound (closure t))) (tasks s) ->
  Forall (fun t => Q (sound (closure t))) (tasks (playPauseTrack r s)).
Proof.
  intros Qr Hts. unfold playPauseTrack.
  destruct (sound r) eqn:Hs; [destruct (isSoundLoaded r) |]; simpl; auto.
  apply Forall_app; split; [done |].
  constructor; [simpl; by rewrite Hs | constructor].
Qed.

Lemma closures_stopTrack (Q : option Handle -> Prop) r s :
  Q (sound r) ->
  Forall (fun t => Q (sound (closure t))) (tasks s) ->
  Forall (fun t => Q (sound (closure t))) (tasks (stopTrack r s)).
Proof.
  intros Qr Hts. unfold stopTrack.
  destruct (sound r) eqn:Hs; [destruct (isSoundLoaded r) |]; simpl; auto.
  apply Forall_app; split; [done |].
  constructor; [simpl; by rewrite Hs | constructor].
Qed.

Lemma closures_loadTrack_return (Q : option Handle -> Prop) r k s :
  Q (sound r) ->
  Forall (fun t => Q (sound (closure t))) (tasks s) ->
  Forall (fun t => Q (sound (closure t))) (tasks (loadTrack_return r k s)).
Proof. destruct k; simpl; [done | apply closures_playPauseTrack]. Qed.

Lemma closures_loadTrack_try (Q : option Handle -> Prop) r index k s :
  Q (sound r) ->
  Forall (fun t => Q (sound (closure t))) (tasks s) ->
  Forall (fun t => Q (sound (closure t))) (tasks (loadTrack_try r index k s)).
Proof.
  intros Qr Hts. unfold loadTrack_try. case_match; [|done].
  simpl. apply Forall_app; split; [done |].
  constructor; [exact Qr | constructor].
Qed.

Lemma closures_loadTrack_unloaded (Q : option Handle -> Prop) r index k s :
  Q (sound r) ->
  Forall (fun t => Q (sound (closure t))) (tasks s) ->
  Forall (fun t => Q (sound (closure t))) (tasks (loadTrack_unloaded r index k s)).
Proof.
  intros Qr Hts. unfold loadTrack_unloaded. case_match.
  - by apply closures_loadTrack_try.
  - by apply closures_loadTrack_return, closures_loadTrack_try.
Qed.

Lemma closures_afterPress (Q : option Handle -> Prop) b r s :
  Q (sound r) ->
  Forall (fun t => Q (sound (closure t))) (tasks s) ->
  Forall (fun t => Q (sound (closure t))) (tasks (afterPress b r s)).
Proof.
  intros Qr Hts. destruct b; unfold afterPress; try done;
    case_match; try done; by apply closures_playPauseTrack.
Qed.

Lemma closures_loadTrack (Q : option Handle -> Prop) r index k s :
  Q (sound r) ->
  Forall (fun t => Q (sound (closure t))) (tasks s) ->
  Forall (fun t => Q (sound (closure t))) (tasks (loadTrack r index k s)).
Proof.
  intros Qr Hts. unfold loadTrack. destruct (sound r) eqn:Hs.
  - simpl. apply Forall_app; split; [done |].
    constructor; [simpl; by rewrite Hs | constructor].
  - apply closures_loadTrack_try; [by rewrite Hs | done].
Qed.

Lemma effectClosure_playPauseTrack r s :
  effectClosure (playPauseTrack r s) = effectClosure s.
Proof. unfold_handlers. repeat case_match; reflexivity. Qed.

Lemma effectClosure_stopTrack r s :
  effectClosure (stopTrack r s) = effectClosure s.
Proof. unfold_handlers. repeat case_match; reflexivity. Qed.

Lemma effectClosure_loadTrack r index k s :
  effectClosure (loadTrack r index k s) = effectClosure s.
Proof. unfold_handlers. repeat case_match; reflexivity. Qed.

Lemma effectClosure_loadTrack_unloaded r index k s :
  effectClosure (loadTrack_unloaded r index k s) = effectClosure s.
Proof. unfold_handlers. repeat case_match; reflexivity. Qed.

Lemma effectClosure_loadTrack_return r k s :
  effectClosure (loadTrack_return r k s) = effectClosure s.
Proof. unfold_handlers. repeat case_match; reflexivity. Qed.

Lemma effectClosure_onPress b r s :
  effectClosure (onPress b r s) = effectClosure s.
Proof. destruct b; unfold_handlers; repeat case_match; reflexivity. Qed.

Lemma effectClosure_afterPress b r s :
  effectClosure (afterPress b r s) = effectClosure s.
Proof. destruct b; unfold_handlers; repeat case_match; reflexivity. Qed.

Lemma sound_onPress b r s : sound (view (onPress b r s)) = sound (view s).
Proof.
  destruct b; simpl;
    rewrite ?view_previousTrack, ?view_playPauseTrack, ?view_stopTrack,
            ?view_nextTrack; reflexivity.
Qed.

Lemma closures_rerender Q before s :
  closures_ok Q s -> closures_ok Q (rerender before s).
Proof.
  intros (Hv & He & Hts). unfold rerender. case_match; [done |].
  unfold effect_run. split; [|split].
  - rewrite view_loadTrack. cbn [view set_effectClosure].
    by rewrite view_effect_cleanup.
  - by rewrite effectClosure_loadTrack.
  - apply closures_loadTrack; [done |]. cbn [tasks set_effectClosure].
    by rewrite tasks_effect_cleanup.
Qed.

Lemma closures_onPress Q b s :
  closures_ok Q s -> closures_ok Q (onPress b (view s) s).
Proof.
  intros (Hv & He & Hts). split; [|split].
  - by rewrite sound_onPress.
  - by rewrite effectClosure_onPress.
  - destruct b; simpl.
    + by apply closures_loadTrack.
    + by apply closures_playPauseTrack.
    + by apply closures_stopTrack.
    + by apply closures_loadTrack.
Qed.

Lemma closures_ok_afterPress Q b r s :
  Q (sound r) -> closures_ok Q s -> closures_ok Q (afterPress b r s).
Proof.
  intros Qr (Hv & He & Hts). split; [|split].
  - by rewrite view_afterPress.
  - by rewrite effectClosure_afterPress.
  - by apply closures_afterPress.
Qed.

Lemma closures_resume Q t ok s s' :
  Q (sound (closure t)) ->
  Q (sound (effectClosure s)) ->
  Forall (fun t => Q (sound (closure t))) (tasks s) ->
  resume t ok s = Some s' ->
  Q (sound (view s')) ->
  closures_ok Q s'.
Proof.
  intros Ht He Hts Hres Hv. split; [done |].
  destruct t as [r index k | r index track k | r ok0 | r ok0]; simpl in *.
  - destruct ok; [|discriminate]. injection Hres as <-.
    rewrite effectClosure_loadTrack_unloaded. split; [done |].
    by apply closures_loadTrack_unloaded.
  - injection Hres as <-. unfold loadTrack_created.
    destruct ok; rewrite effectClosure_loadTrack_return;
      (split; [done |]); by apply closures_loadTrack_return.
  - case_match; [|discriminate]. injection Hres as <-.
    unfold playPauseTrack_resume. by destruct ok.
  - case_match; [|discriminate]. injection Hres as <-.
    unfold stopTrack_resume. by destruct ok.
Qed.

(** The sound and the loaded flag of the latest render change only when
    a load completes: to the sound just created, and to [true]. *)
Lemma step_sound s ev s' :
  step s ev = Some s' ->
  (sound (view s') = sound (view s)
   /\ isSoundLoaded (view s') = isSoundLoaded (view s))
  \/ (sound (view s') = Some (List.length (units (engine s)))
      /\ isSoundLoaded (view s') = true
      /\ exists k r index track c,
           ev = Settle k true
           /\ tasks s !! k = Some (AwaitCreate r index track c)).
Proof.
  destruct ev as [b | i | k ok | rows]; simpl; intros Hstep.
  - case_match; [|discriminate]. injection Hstep as <-. left.
    by rewrite view_afterPress, view_rerender, sound_onPress, loaded_onPress.
  - case_match; [|discriminate]. injection Hstep as <-. left.
    by rewrite view_rerender.
  - destruct (tasks s !! k) as [t|] eqn:Hk; [|discriminate].
    destruct (resume t ok _) as [s0|] eqn:Hres; [|discriminate].
    injection Hstep as <-. rewrite view_rerender.
    destruct t as [r index c | r index track c | r ok0 | r ok0];
      simpl in Hres.
    + destruct ok; [|discriminate]. injection Hres as <-. left.
      by rewrite view_loadTrack_unloaded.
    + injection Hres as <-. rewrite view_loadTrack_created.
      destruct ok; [right | by left]. simpl. by eauto 10.
    + case_match; [|discriminate]. injection Hres as <-. left.
      unfold playPauseTrack_resume. by destruct ok.
    + case_match; [|discriminate]. injection Hres as <-. left.
      unfold stopTrack_resume. by destruct ok.
  - case_match; [|discriminate]. injection Hstep as <-. left.
    rewrite view_rerender. by destruct rows.
Qed.

(** Closures are made of renders: a property of sounds that holds of all
    closures and of the new sound of the latest render holds of all
    closures after the step. *)
Lemma closures_step Q s ev s' :
  closures_ok Q s ->
  step s ev = Some s' ->
  Q (sound (view s')) ->
  closures_ok Q s'.
Proof.
  intros Hcl. destruct ev as [b | i | k ok | rows]; simpl; intros Hstep Hv.
  - case_match; [|discriminate]. injection Hstep as <-.
    apply closures_ok_afterPress; [by destruct Hcl |].
    by apply closures_rerender, closures_onPress.
  - case_match; [|discriminate]. injection Hstep as <-.
    apply closures_rerender. by destruct Hcl as (H1 & H2 & H3).
  - destruct (tasks s !! k) as [t|] eqn:Hk; [|discriminate].
    destruct (resume t ok _) as [s0|] eqn:Hres; [|discriminate].
    injection Hstep as <-. rewrite view_rerender in Hv.
    apply closures_rerender. destruct Hcl as (H1 & H2 & H3).
    eapply closures_resume; [| | | exact Hres | exact Hv]; simpl; [| done |].
    + by eapply Forall_lookup_1 in H3; [|exact Hk].
    + by apply Forall_delete.
  - case_match; [|discriminate]. injection Hstep as <-.
    apply closures_rerender. destruct Hcl as (H1 & H2 & H3).
    by destruct rows.
Qed.

(** ** The sound object and the loaded flag *)

Lemma sound_flag_step s ev s' :
  (is_Some (sound (view s)) <-> isSoundLoaded (view s) = true) ->
  step s ev = Some s' ->
  (is_Some (sound (view s')) <-> isSoundLoaded (view s') = true).
Proof.
  intros Hinv Hstep.
  destruct (step_sound _ _ _ Hstep) as [[-> ->] | (-> & -> & _)]; [done |].
  split; eauto.
Qed.

Lemma sound_flag_reachable s :
  reachable s -> (is_Some (sound (view s)) <-> isSoundLoaded (view s) = true).
Proof.
  intros [evs Hrun]. revert Hrun.
  assert (is_Some (sound (view mount)) <-> isSoundLoaded (view mount) = true)
    as Hm by (simpl; split; [by intros [? ?] | discriminate]).
  revert Hm. generalize mount. induction evs as [| ev evs IH]; simpl.
  - by intros s0 Hm [= ->].
  - intros s0 Hm. destruct (step s0 ev) as [s1|] eqn:Hstep; [|discriminate].
    apply IH. by eapply sound_flag_step.
Qed.

(** X6: [setSound] and [setIsSoundLoaded(true)] always go together, and
    neither value is ever cleared: in every reachable state the component
    holds a sound object exactly when the loaded flag is set, and once it
    holds a sound object it holds one after every further event. *)
Theorem sound_and_flag_go_together s :
  reachable s ->
  (is_Some (sound (view s)) <-> isSoundLoaded (view s) = true)
  /\ (forall ev s',
        step s ev = Some s' ->
        is_Some (sound (view s)) -> is_Some (sound (view s'))).
Proof.
  intros Hreach. split; [by apply sound_flag_reachable |].
  intros ev s' Hstep Hs.
  destruct (step_sound _ _ _ Hstep) as [[-> _] | (-> & _)]; eauto.
Qed.

Lemma sound_and_flag_go_together_witness :
  reachable (after load_of_track_2_fails)
  /\ is_Some (sound (view (after load_of_track_2_fails)))
  /\ isSoundLoaded (view (after load_of_track_2_fails)) = true.
Proof.
  assert (reachable (after load_of_track_2_fails)) as Hreach
    by (eapply reachable_after; vm_compute; reflexivity).
  assert (isSoundLoaded (view (after load_of_track_2_fails)) = true) as Hl
    by (vm_compute; reflexivity).
  split; [exact Hreach |]. split; [|exact Hl].
  destruct (sound_and_flag_go_together _ Hreach) as [Hiff _].
  exact (proj2 Hiff Hl).
Defined.

(** ** Play and pause on a loaded sound *)

Lemma toggle_once s h :
  transport_rendered (view s) = true ->
  in_sync s h ->
  exists s1 s2,
    step s (Press PlayPause) = Some s1
    /\ step s1 (Settle (List.length (tasks s)) true) = Some s2
    /\ isPlaying (view s2) = negb (isPlaying (view s))
    /\ in_sync s2 h
    /\ tasks s2 = tasks s
    /\ transport_rendered (view s2) = true
    /\ calls (engine s2)
       = calls (engine s)
         ++ [if isPlaying (view s) then PauseAsync h else PlayAsync h].
Proof.
  intros Hgate (Hs & Hl & He & Hp).
  set (p := negb (isPlaying (view s))).
  set (c := if isPlaying (view s) then PauseAsync h else PlayAsync h).
  set (e1 := mkEngine (alter (set_playing p) h (units (engine s)))
                      (calls (engine s) ++ [c])).
  assert (playPauseTrack (view s) s
          = suspend (AwaitPlayPause (view s) true) (set_engine e1 s)) as Hpp.
  { unfold playPauseTrack, engine_pause, engine_play. rewrite Hs, Hl.
    subst e1 p c. destruct (isPlaying (view s));
      by rewrite (engine_transport_loaded _ _ _ _ He). }
  exists (suspend (AwaitPlayPause (view s) true) (set_engine e1 s)),
         (setIsPlaying p (set_engine e1 s)).
  split.
  { unfold step. rewrite Hgate. unfold afterPress. simpl. rewrite Hpp. f_equal.
    by apply rerender_same. }
  split.
  { unfold step. cbn [tasks suspend set_tasks set_engine].
    rewrite lookup_last_task. unfold resume. rewrite Bool.eqb_reflx.
    unfold playPauseTrack_resume. rewrite rerender_same by reflexivity.
    f_equal. unfold setIsPlaying, with_view, set_tasks, set_engine. cbn.
    by rewrite delete_last_task. }
  cbn. fold p.
  repeat split; try done.
  - destruct (engine s) as [us cs]. subst e1. cbn in *.
    by rewrite (is_loaded_set_playing _ _ _ _ cs).
  - destruct (engine s) as [us cs]. subst e1. cbn in *.
    by apply is_playing_set_playing.
Qed.

(** X7: play/pause on a sound the engine has loaded.  When the hook
    values and the engine agree about the held sound (loaded, and playing
    exactly when [isPlaying]), pressing Play/Pause and letting the call
    complete flips both: the engine is asked to pause a playing sound and
    to play a paused one, [isPlaying] is negated, and they agree again.
    Doing it twice brings [isPlaying] back to its value. *)
Theorem play_pause_toggles s h :
  transport_rendered (view s) = true ->
  in_sync s h ->
  exists s1 s2 s3 s4,
    step s (Press PlayPause) = Some s1
    /\ step s1 (Settle (List.length (tasks s)) true) = Some s2
    /\ isPlaying (view s2) = negb (isPlaying (view s))
    /\ in_sync s2 h
    /\ calls (engine s2)
       = calls (engine s)
         ++ [if isPlaying (view s) then PauseAsync h else PlayAsync h]
    /\ step s2 (Press PlayPause) = Some s3
    /\ step s3 (Settle (List.length (tasks s)) true) = Some s4
    /\ isPlaying (view s4) = isPlaying (view s)
    /\ in_sync s4 h.
Proof.
  intros Hgate Hsync.
  destruct (toggle_once _ _ Hgate Hsync)
    as (s1 & s2 & H1 & H2 & Hp2 & Hsync2 & Hts2 & Hgate2 & Hc2).
  destruct (toggle_once _ _ Hgate2 Hsync2)
    as (s3 & s4 & H3 & H4 & Hp4 & Hsync4 & _).
  rewrite Hts2 in H4.
  exists s1, s2, s3, s4.
  do 7 (split; [assumption |]). split; [|assumption].
  rewrite Hp4, Hp2. apply Bool.negb_involutive.
Qed.

Lemma play_pause_toggles_witness :
  transport_rendered (view (after track_1_loaded)) = true
  /\ in_sync (after track_1_loaded) 0
  /\ exists s1 s2,
       step (after track_1_loaded) (Press PlayPause) = Some s1
       /\ step s1 (Settle 0 true) = Some s2
       /\ isPlaying (view s2) = true
       /\ is_playing (engine s2) 0 = true.
Proof.
  assert (transport_rendered (view (after track_1_loaded)) = true) as Hgate
    by (vm_compute; reflexivity).
  assert (in_sync (after track_1_loaded) 0) as Hsync
    by (repeat split; vm_compute; reflexivity).
  split; [exact Hgate |]. split; [exact Hsync |].
  destruct (play_pause_toggles _ _ Hgate Hsync)
    as (s1 & s2 & _ & _ & H1 & H2 & Hp & (_ & _ & _ & Hsync2) & _).
  exists s1, s2. split; [exact H1 |]. split; [exact H2 |].
  assert (isPlaying (view s2) = true) as Hp2 by (rewrite Hp; vm_compute; reflexivity).
  split; [exact Hp2 |]. by rewrite Hsync2.
Defined.

Lemma resume_sound t ok s s' :
  resume t ok s = Some s' ->
  sound (view s') = sound (view s)
  \/ sound (view s') = Some (List.length (units (engine s))).
Proof.
  destruct t as [r index k | r index track k | r ok0 | r ok0]; simpl;
    intros Hres.
  - destruct ok; [|discriminate]. injection Hres as <-. left.
    by rewrite view_loadTrack_unloaded.
  - injection Hres as <-. rewrite view_loadTrack_created.
    destruct ok; [by right | by left].
  - case_match; [|discriminate]. injection Hres as <-. left.
    unfold playPauseTrack_resume. by destruct ok.
  - case_match; [|discriminate]. injection Hres as <-. left.
    unfold stopTrack_resume. by destruct ok.
Qed.

(** ** Which units the component touches *)

Lemma units_engine_transport c p (h' : nat) e (h : nat) :
  h' <> h ->
  units (snd (engine_transport c p h' e)) !! h = units e !! h.
Proof.
  intros Hne. unfold engine_transport. case_match; simpl; [|done].
  by rewrite list_lookup_alter_ne.
Qed.

Lemma units_playPauseTrack r s (h : nat) :
  sound r <> Some h ->
  units (engine (playPauseTrack r s)) !! h = units (engine s) !! h.
Proof.
  intros Hr. unfold playPauseTrack, engine_pause, engine_play.
  destruct (sound r) as [h'|]; [|done].
  destruct (isSoundLoaded r); [|done]. simpl.
  destruct (isPlaying r); apply units_engine_transport; congruence.
Qed.

Lemma units_stopTrack r s (h : nat) :
  sound r <> Some h ->
  units (engine (stopTrack r s)) !! h = units (engine s) !! h.
Proof.
  intros Hr. unfold stopTrack, engine_stop.
  destruct (sound r) as [h'|]; [|done].
  destruct (isSoundLoaded r); [|done]. simpl.
  apply units_engine_transport; congruence.
Qed.

Lemma units_loadTrack_return r k s (h : nat) :
  sound r <> Some h ->
  units (engine (loadTrack_return r k s)) !! h = units (engine s) !! h.
Proof. destruct k; simpl; [done | apply units_playPauseTrack]. Qed.

Lemma units_loadTrack_try r index k s :
  units (engine (loadTrack_try r index k s)) = units (engine s).
Proof. unfold loadTrack_try. by case_match. Qed.

Lemma units_loadTrack_unloaded r index k s (h : nat) :
  sound r <> Some h ->
  units (engine (loadTrack_unloaded r index k s)) !! h = units (engine s) !! h.
Proof.
  intros Hr. unfold loadTrack_unloaded.
  case_match; rewrite ?units_loadTrack_return by done;
    by rewrite units_loadTrack_try.
Qed.

Lemma units_afterPress b r s (h : nat) :
  sound r <> Some h ->
  units (engine (afterPress b r s)) !! h = units (engine s) !! h.
Proof.
  intros Hr. destruct b; unfold afterPress; try done;
    case_match; try done; by apply units_playPauseTrack.
Qed.

Lemma units_loadTrack r index k s (h : nat) :
  sound r <> Some h ->
  units (engine (loadTrack r index k s)) !! h = units (engine s) !! h.
Proof.
  intros Hr. unfold loadTrack. destruct (sound r) as [h'|] eqn:Hs.
  - simpl. rewrite list_lookup_alter_ne; [done | congruence].
  - by rewrite units_loadTrack_try.
Qed.

Lemma units_effect_cleanup r s (h : nat) :
  sound r <> Some h ->
  units (engine (effect_cleanup r s)) !! h = units (engine s) !! h.
Proof.
  intros Hr. unfold effect_cleanup. destruct (sound r) as [h'|]; [|done].
  simpl. rewrite list_lookup_alter_ne; [done | congruence].
Qed.

Lemma units_rerender before s (h : nat) :
  sound (view s) <> Some h ->
  sound (effectClosure s) <> Some h ->
  units (engine (rerender before s)) !! h = units (engine s) !! h.
Proof.
  intros Hv He. unfold rerender. case_match; [done |].
  unfold effect_run. rewrite units_loadTrack by done.
  cbn [engine set_effectClosure]. by apply units_effect_cleanup.
Qed.

Lemma units_onPress b s (h : nat) :
  sound (view s) <> Some h ->
  units (engine (onPress b (view s) s)) !! h = units (engine s) !! h.
Proof.
  intros Hv. destruct b; simpl.
  - unfold previousTrack. by rewrite units_loadTrack.
  - by apply units_playPauseTrack.
  - by apply units_stopTrack.
  - unfold nextTrack. by rewrite units_loadTrack.
Qed.

Lemma units_resume t ok s s' (h : nat) :
  sound (closure t) <> Some h ->
  is_Some (units (engine s) !! h) ->
  resume t ok s = Some s' ->
  units (engine s') !! h = units (engine s) !! h.
Proof.
  intros Ht Hh Hres.
  destruct t as [r index k | r index track k | r ok0 | r ok0]; simpl in *.
  - destruct ok; [|discriminate]. injection Hres as <-.
    by apply units_loadTrack_unloaded.
  - injection Hres as <-. unfold loadTrack_created.
    destruct ok; rewrite units_loadTrack_return by done; [|done].
    simpl. apply lookup_app_l. by apply lookup_lt_is_Some.
  - case_match; [|discriminate]. injection Hres as <-.
    unfold playPauseTrack_resume. by destruct ok.
  - case_match; [|discriminate]. injection Hres as <-.
    unfold stopTrack_resume. by destruct ok.
Qed.

(** A step leaves alone every unit that no closure holds. *)
Lemma step_untouched s ev s' (h : nat) :
  clear_of h s ->
  is_Some (units (engine s) !! h) ->
  step s ev = Some s' ->
  units (engine s') !! h = units (engine s) !! h.
Proof.
  intros (Hv & He & Hts) Hh.
  destruct ev as [b | i | k ok | rows]; simpl; intros Hstep.
  - case_match; [|discriminate]. injection Hstep as <-.
    rewrite units_afterPress by done. rewrite units_rerender.
    + by apply units_onPress.
    + by rewrite sound_onPress.
    + by rewrite effectClosure_onPress.
  - case_match; [|discriminate]. injection Hstep as <-.
    by rewrite units_rerender.
  - destruct (tasks s !! k) as [t|] eqn:Hk; [|discriminate].
    destruct (resume t ok _) as [s0|] eqn:Hres; [|discriminate].
    injection Hstep as <-.
    assert (sound (closure t) <> Some h) as Ht
      by (by eapply Forall_lookup_1 in Hts; [|exact Hk]).
    pose proof (units_resume t ok (set_tasks (delete k (tasks s)) s) s0 h
                  Ht Hh Hres) as Hu.
    cbn [engine set_tasks] in Hu.
    assert (closures_ok (fun o => o <> Some h) s0) as (Hv0 & He0 & _).
    { apply (closures_resume _ t ok (set_tasks (delete k (tasks s)) s) s0);
        [exact Ht | exact He | | exact Hres |].
      - by apply Forall_delete.
      - destruct (resume_sound _ _ _ _ Hres) as [-> | ->]; [done |].
        simpl. intros [= <-]. apply lookup_lt_is_Some in Hh. lia. }
    by rewrite units_rerender.
  - case_match; [|discriminate]. injection Hstep as <-.
    rewrite units_rerender; by destruct rows.
Qed.

Lemma clear_of_step s ev s' (h : nat) :
  clear_of h s ->
  is_Some (units (engine s) !! h) ->
  step s ev = Some s' ->
  clear_of h s'.
Proof.
  intros Hcl Hh Hstep. eapply closures_step; [exact Hcl | exact Hstep |].
  destruct (step_sound _ _ _ Hstep) as [[-> _] | (-> & _)];
    [by destruct Hcl |].
  intros [= <-]. apply lookup_lt_is_Some in Hh. lia.
Qed.

Lemma is_loaded_is_Some e (h : nat) :
  is_loaded e h = true -> is_Some (units e !! h).
Proof. unfold is_loaded. destruct (units e !! h); [eauto | discriminate]. Qed.

(** X8: a loaded unit that no render holds any more (not the latest one,
    not the closure of the effect cleanup, not a suspended function) is
    out of the component's reach for good: whatever events follow, it is
    never unloaded nor touched in any other way, and no render ever holds
    it again. *)
Theorem unheld_unit_is_never_released evs : forall s s' (h : nat),
  run s evs = Some s' ->
  clear_of h s ->
  is_loaded (engine s) h = true ->
  clear_of h s'
  /\ units (engine s') !! h = units (engine s) !! h
  /\ is_loaded (engine s') h = true.
Proof.
  induction evs as [| ev evs IH]; simpl; intros s s' h Hrun Hcl Hl.
  - injection Hrun as <-. done.
  - destruct (step s ev) as [s1|] eqn:Hstep; [|discriminate].
    pose proof (is_loaded_is_Some _ _ Hl) as Hh.
    pose proof (step_untouched _ _ _ _ Hcl Hh Hstep) as Hu.
    pose proof (clear_of_step _ _ _ _ Hcl Hh Hstep) as Hcl1.
    assert (is_loaded (engine s1) h = true) as Hl1
      by (unfold is_loaded in *; by rewrite Hu).
    destruct (IH _ _ _ Hrun Hcl1 Hl1) as (Hcl' & Hu' & Hl').
    split; [exact Hcl' |]. split; [by rewrite Hu', Hu | exact Hl'].
Qed.

Lemma unheld_unit_is_never_released_witness :
  run (after next_from_start) [PressSong 3; Settle 0 true; Settle 0 true]
  = Some (after next_then_select_3)
  /\ clear_of 0 (after next_from_start)
  /\ is_loaded (engine (after next_from_start)) 0 = true
  /\ is_loaded (engine (after next_then_select_3)) 0 = true.
Proof.
  assert (run (after next_from_start)
            [PressSong 3; Settle 0 true; Settle 0 true]
          = Some (after next_then_select_3)) as Hrun
    by (vm_compute; reflexivity).
  assert (clear_of 0 (after next_from_start)) as Hcl.
  { split; [vm_compute; discriminate |].
    split; [vm_compute; discriminate |].
    vm_compute. constructor. }
  assert (is_loaded (engine (after next_from_start)) 0 = true) as Hl
    by (vm_compute; reflexivity).
  split; [exact Hrun |]. split; [exact Hcl |]. split; [exact Hl |].
  exact (proj2 (proj2 (unheld_unit_is_never_released _ _ _ _ Hrun Hcl Hl))).
Defined.

(** ** Which units are loaded *)

Lemma loaded_engine_unload (h : nat) e (j : nat) :
  is_loaded (engine_unload h e) j = true ->
  is_loaded e j = true /\ j <> h.
Proof.
  unfold is_loaded, engine_unload. simpl.
  destruct (Nat.eq_dec h j) as [-> | Hne].
  - rewrite list_lookup_alter_eq. by destruct (units e !! j).
  - rewrite list_lookup_alter_ne by done. intros Hl. split; [done | congruence].
Qed.

Lemma loaded_engine_transport c p (h : nat) e (j : nat) :
  is_loaded (snd (engine_transport c p h e)) j = is_loaded e j.
Proof.
  unfold engine_transport. destruct e as [us cs]. case_match; [|done].
  apply is_loaded_set_playing.
Qed.

Lemma loaded_playPauseTrack r s (j : nat) :
  is_loaded (engine (playPauseTrack r s)) j = is_loaded (engine s) j.
Proof.
  unfold playPauseTrack, engine_pause, engine_play.
  destruct (sound r); [destruct (isSoundLoaded r) |]; try done. simpl.
  destruct (isPlaying r); apply loaded_engine_transport.
Qed.

Lemma loaded_stopTrack r s (j : nat) :
  is_loaded (engine (stopTrack r s)) j = is_loaded (engine s) j.
Proof.
  unfold stopTrack, engine_stop.
  destruct (sound r); [destruct (isSoundLoaded r) |]; try done. simpl.
  apply loaded_engine_transport.
Qed.

Lemma loaded_loadTrack_return r k s (j : nat) :
  is_loaded (engine (loadTrack_return r k s)) j = is_loaded (engine s) j.
Proof. destruct k; simpl; [done | apply loaded_playPauseTrack]. Qed.

Lemma loaded_loadTrack_try r index k s (j : nat) :
  is_loaded (engine (loadTrack_try r index k s)) j = is_loaded (engine s) j.
Proof. unfold loadTrack_try. by case_match. Qed.

Lemma loaded_loadTrack_unloaded r index k s (j : nat) :
  is_loaded (engine (loadTrack_unloaded r index k s)) j = is_loaded (engine s) j.
Proof.
  unfold loadTrack_unloaded.
  case_match; rewrite ?loaded_loadTrack_return; apply loaded_loadTrack_try.
Qed.

Lemma loaded_afterPress b r s (j : nat) :
  is_loaded (engine (afterPress b r s)) j = is_loaded (engine s) j.
Proof.
  destruct b; unfold afterPress; try done;
    case_match; try done; apply loaded_playPauseTrack.
Qed.

Lemma loaded_loadTrack r index k s (j : nat) :
  is_loaded (engine (loadTrack r index k s)) j = true ->
  is_loaded (engine s) j = true /\ sound r <> Some j.
Proof.
  unfold loadTrack. destruct (sound r) as [h|].
  - simpl. intros [Hl Hne]%loaded_engine_unload. split; [done | congruence].
  - rewrite loaded_loadTrack_try. by intros ->.
Qed.

Lemma loaded_effect_cleanup r s (j : nat) :
  is_loaded (engine (effect_cleanup r s)) j = true ->
  is_loaded (engine s) j = true.
Proof.
  unfold effect_cleanup. destruct (sound r) as [h|]; [|done].
  simpl. by intros [Hl _]%loaded_engine_unload.
Qed.

Lemma loaded_loadTrack_created r track k ok s (j : nat) :
  is_loaded (engine (loadTrack_created r track k ok s)) j = true ->
  is_loaded (engine s) j = true
  \/ (ok = true /\ j = List.length (units (engine s))).
Proof.
  unfold loadTrack_created. destruct ok; rewrite loaded_loadTrack_return;
    [|by left].
  unfold is_loaded. simpl.
  destruct (Nat.lt_ge_cases j (List.length (units (engine s)))) as [Hlt | Hge].
  - rewrite lookup_app_l by done. by left.
  - intros Hl. right. split; [done |].
    destruct (Nat.eq_dec j (List.length (units (engine s)))) as [-> | Hne];
      [done |].
    rewrite lookup_ge_None_2 in Hl; [done |]. rewrite length_app. simpl. lia.
Qed.

(** ** Counting the suspended loads *)

Lemma loads_snoc s t :
  loads_in_flight (suspend t s)
  = (loads_in_flight s
     + match loading t with Some _ => 1 | None => 0 end)%nat.
Proof.
  unfold loads_in_flight, suspend. simpl.
  rewrite filter_app, length_app. f_equal.
  rewrite filter_cons. destruct (loading t); case_decide as Hd; simpl;
    try done; exfalso;
    first [apply Hd; by eauto | destruct Hd as [? Hd]; discriminate].
Qed.

Lemma loads_delete (ts : list Task) k t :
  ts !! k = Some t ->
  (List.length (filter (fun t => is_Some (loading t)) (delete k ts))
   + match loading t with Some _ => 1 | None => 0 end)%nat
  = List.length (filter (fun t => is_Some (loading t)) ts).
Proof.
  revert k. induction ts as [| t0 ts IH]; intros k Hk; [done |].
  destruct k as [| k]; simpl in *.
  - injection Hk as ->. rewrite filter_cons.
    destruct (loading t); case_decide as Hd; simpl;
      try lia; exfalso;
      first [apply Hd; by eauto | destruct Hd as [? Hd]; discriminate].
  - rewrite !filter_cons. specialize (IH _ Hk).
    case_decide; simpl; lia.
Qed.

Lemma loads_playPauseTrack r s :
  loads_in_flight (playPauseTrack r s) = loads_in_flight s.
Proof.
  unfold playPauseTrack.
  destruct (sound r); [destruct (isSoundLoaded r) |]; try done.
  rewrite loads_snoc. simpl. unfold loads_in_flight. simpl. lia.
Qed.

Lemma loads_stopTrack r s :
  loads_in_flight (stopTrack r s) = loads_in_flight s.
Proof.
  unfold stopTrack.
  destruct (sound r); [destruct (isSoundLoaded r) |]; try done.
  rewrite loads_snoc. simpl. unfold loads_in_flight. simpl. lia.
Qed.

Lemma loads_loadTrack_return r k s :
  loads_in_flight (loadTrack_return r k s) = loads_in_flight s.
Proof. destruct k; simpl; [done | apply loads_playPauseTrack]. Qed.

Lemma loads_loadTrack_try r index k s :
  (loads_in_flight (loadTrack_try r index k s) <= S (loads_in_flight s))%nat.
Proof.
  unfold loadTrack_try. case_match.
  - rewrite loads_snoc. simpl. unfold loads_in_flight. simpl. lia.
  - unfold loads_in_flight. simpl. lia.
Qed.

Lemma loads_loadTrack_unloaded r index k s :
  (loads_in_flight (loadTrack_unloaded r index k s) <= S (loads_in_flight s))%nat.
Proof.
  unfold loadTrack_unloaded.
  case_match; rewrite ?loads_loadTrack_return; apply loads_loadTrack_try.
Qed.

Lemma loads_loadTrack r index k s :
  (loads_in_flight (loadTrack r index k s) <= S (loads_in_flight s))%nat.
Proof.
  unfold loadTrack. case_match; [|apply loads_loadTrack_try].
  rewrite loads_snoc. simpl. unfold loads_in_flight. simpl. lia.
Qed.

(** ** One load at a time *)

Lemma one_unit_inv_none_loaded s :
  (forall j : nat, is_loaded (engine s) j = false) ->
  (loads_in_flight s <= 1)%nat ->
  one_unit_inv s.
Proof.
  intros Hnone Hle. split; [|split]; [|done |done].
  intros j Hj. by rewrite Hnone in Hj.
Qed.

Lemma one_unit_inv_frame s s' :
  one_unit_inv s ->
  (forall j : nat, is_loaded (engine s') j = is_loaded (engine s) j) ->
  sound (view s') = sound (view s) ->
  loads_in_flight s' = loads_in_flight s ->
  one_unit_inv s'.
Proof.
  intros (H1 & H2 & H3) Hl Hs Hn. split; [|split].
  - intros j. rewrite Hl, Hs. apply H1.
  - by rewrite Hn.
  - rewrite Hn. intros Hne j. rewrite Hl. by apply H3.
Qed.

Lemma not_loaded_false e (j : nat) : is_loaded e j <> true -> is_loaded e j = false.
Proof. by destruct (is_loaded e j). Qed.

Lemma one_unit_inv_step s ev s' :
  one_unit_inv s -> careful s ev = true -> step s ev = Some s' ->
  one_unit_inv s'.
Proof.
  intros Hinv Hcareful.
  destruct ev as [b | i | k ok | rows]; simpl; intros Hstep.
  - case_match; [|discriminate]. injection Hstep as <-.
    destruct b; try discriminate; simpl.
    + rewrite rerender_same by (by rewrite view_playPauseTrack).
      eapply one_unit_inv_frame; [exact Hinv | | |].
      * intros j. apply loaded_playPauseTrack.
      * by rewrite view_playPauseTrack.
      * apply loads_playPauseTrack.
    + rewrite rerender_same by (by rewrite view_stopTrack).
      eapply one_unit_inv_frame; [exact Hinv | | |].
      * intros j. apply loaded_stopTrack.
      * by rewrite view_stopTrack.
      * apply loads_stopTrack.
  - case_match; [|discriminate]. injection Hstep as <-.
    simpl in Hcareful. apply Nat.eqb_eq in Hcareful.
    unfold rerender. case_match.
    + by eapply one_unit_inv_frame; [exact Hinv | | |].
    + destruct Hinv as (H1 & _ & _).
      apply one_unit_inv_none_loaded.
      * intros j. apply not_loaded_false. intros Hl.
        unfold effect_run in Hl.
        apply loaded_loadTrack in Hl as [Hl Hne].
        cbn [engine set_effectClosure] in Hl.
        apply loaded_effect_cleanup in Hl. simpl in Hl, Hne.
        by apply Hne, H1.
      * unfold effect_run.
        etransitivity; [apply loads_loadTrack |].
        unfold loads_in_flight in *. cbn [tasks set_effectClosure].
        rewrite tasks_effect_cleanup. simpl. lia.
  - destruct (tasks s !! k) as [t|] eqn:Hk; [|discriminate].
    destruct (resume t ok _) as [s0|] eqn:Hres; [|discriminate].
    injection Hstep as <-.
    destruct (index_resume _ _ _ _ Hres) as [Hi _]. simpl in Hi.
    rewrite rerender_same by done.
    pose proof (loads_delete _ _ _ Hk) as Hdel.
    destruct Hinv as (H1 & H2 & H3). unfold loads_in_flight in H2, H3.
    destruct t as [r index c | r index track c | r ok0 | r ok0];
      simpl in Hres, Hdel.
    + destruct ok; [|discriminate]. injection Hres as <-.
      apply one_unit_inv_none_loaded.
      * intros j. rewrite loaded_loadTrack_unloaded. simpl. apply H3. lia.
      * etransitivity; [apply loads_loadTrack_unloaded |].
        unfold loads_in_flight. simpl. lia.
    + injection Hres as <-.
      assert (loads_in_flight
                (loadTrack_created r track c ok
                   (set_tasks (delete k (tasks s)) s)) = 0%nat) as Hz.
      { unfold loadTrack_created.
        destruct ok; rewrite loads_loadTrack_return;
          unfold loads_in_flight; simpl; lia. }
      split; [|split]; [| lia | by rewrite Hz].
      intros j Hl. apply loaded_loadTrack_created in Hl as [Hl | [-> ->]].
      * simpl in Hl. rewrite H3 in Hl; [done | lia].
      * by rewrite view_loadTrack_created.
    + case_match; [|discriminate]. injection Hres as <-.
      unfold playPauseTrack_resume.
      destruct ok; (split; [|split]); simpl; unfold loads_in_flight; simpl;
        try done; try lia; intros Hne; apply H3; lia.
    + case_match; [|discriminate]. injection Hres as <-.
      unfold stopTrack_resume.
      destruct ok; (split; [|split]); simpl; unfold loads_in_flight; simpl;
        try done; try lia; intros Hne; apply H3; lia.
  - case_match; [|discriminate]. injection Hstep as <-.
    rewrite rerender_same by (by destruct rows).
    by destruct rows; (eapply one_unit_inv_frame; [exact Hinv | | |]).
Qed.

Lemma one_unit_inv_mount : one_unit_inv mount.
Proof.
  apply one_unit_inv_none_loaded; [done |]. vm_compute. lia.
Qed.

Lemma careful_run_run evs : forall s s',
  careful_run s evs = Some s' -> run s evs = Some s'.
Proof.
  induction evs as [| ev evs IH]; simpl; intros s s' Hrun; [done |].
  destruct (careful s ev); [|discriminate].
  destruct (step s ev); [by apply IH | discriminate].
Qed.

Lemma one_unit_inv_run evs : forall s s',
  one_unit_inv s -> careful_run s evs = Some s' -> one_unit_inv s'.
Proof.
  induction evs as [| ev evs IH]; simpl; intros s s' Hinv Hrun.
  - by injection Hrun as <-.
  - destruct (careful s ev) eqn:Hc; [|discriminate].
    destruct (step s ev) as [s1|] eqn:Hstep; [|discriminate].
    eapply IH; [|exact Hrun]. by eapply one_unit_inv_step.
Qed.

Lemma filter_none_loaded (l : list SoundUnit) :
  (forall (j : nat) u, l !! j = Some u -> unit_loaded u <> true) ->
  filter (fun u => unit_loaded u = true) l = [].
Proof.
  induction l as [| x l IH]; intros Hnone; [done |].
  rewrite filter_cons. case_decide as Hx.
  - by destruct (Hnone 0%nat x eq_refl).
  - apply IH. intros j u Hj. by apply (Hnone (S j)).
Qed.

Lemma at_most_one_loaded (l : list SoundUnit) :
  (forall (i j : nat) u v,
     l !! i = Some u -> l !! j = Some v ->
     unit_loaded u = true -> unit_loaded v = true -> i = j) ->
  (List.length (filter (fun u => unit_loaded u = true) l) <= 1)%nat.
Proof.
  induction l as [| x l IH]; intros Huniq; [simpl; lia |].
  rewrite filter_cons. case_decide as Hx.
  - rewrite filter_none_loaded; [simpl; lia |].
    intros j u Hj Hu. by specialize (Huniq 0%nat (S j) x u eq_refl Hj Hx Hu).
  - apply IH. intros i j u v Hi Hj Hu Hv.
    by specialize (Huniq (S i) (S j) u v Hi Hj Hu Hv) as [= ->].
Qed.

(** X9: used one load at a time (list presses only while no [loadTrack]
    is suspended, play/pause and stop at will, no Next or Previous), the
    player keeps at most one unit loaded at every moment, and a loaded
    unit is always the sound the component holds. *)
Theorem one_load_at_a_time_keeps_one_unit evs s :
  careful_run mount evs = Some s ->
  run mount evs = Some s
  /\ (forall j : nat, is_loaded (engine s) j = true -> sound (view s) = Some j)
  /\ (List.length (loaded_units (engine s)) <= 1)%nat.
Proof.
  intros Hrun. split; [by apply careful_run_run |].
  destruct (one_unit_inv_run _ _ _ one_unit_inv_mount Hrun) as (H1 & _ & _).
  split; [exact H1 |].
  apply at_most_one_loaded. intros i j u v Hi Hj Hu Hv.
  assert (is_loaded (engine s) i = true) as Hli
    by (unfold is_loaded; by rewrite Hi).
  assert (is_loaded (engine s) j = true) as Hlj
    by (unfold is_loaded; by rewrite Hj).
  apply H1 in Hli, Hlj. congruence.
Qed.

Lemma one_load_at_a_time_keeps_one_unit_witness :
  careful_run mount three_selections = Some (after three_selections)
  /\ sound (view (after three_selections)) = Some 2%nat
  /\ is_loaded (engine (after three_selections)) 2 = true
  /\ (List.length (loaded_units (engine (after three_selections))) <= 1)%nat.
Proof.
  assert (careful_run mount three_selections = Some (after three_selections))
    as Hrun by (vm_compute; reflexivity).
  split; [exact Hrun |].
  split; [vm_compute; reflexivity |]. split; [vm_compute; reflexivity |].
  exact (proj2 (proj2 (one_load_at_a_time_keeps_one_unit _ _ Hrun))).
Defined.

(** ** Before the first load succeeds *)

Lemma only_loads_console l s :
  only_loads_requested s -> only_loads_requested (console_log l s).
Proof. done. Qed.

Lemma only_loads_playPauseTrack r s :
  sound r = None ->
  only_loads_requested s -> only_loads_requested (playPauseTrack r s).
Proof. intros Hr. unfold playPauseTrack. by rewrite Hr. Qed.

Lemma only_loads_stopTrack r s :
  sound r = None ->
  only_loads_requested s -> only_loads_requested (stopTrack r s).
Proof. intros Hr. unfold stopTrack. by rewrite Hr. Qed.

Lemma only_loads_loadTrack_return r k s :
  sound r = None ->
  only_loads_requested s -> only_loads_requested (loadTrack_return r k s).
Proof. destruct k; simpl; [done | apply only_loads_playPauseTrack]. Qed.

Lemma only_loads_loadTrack_try r index k s :
  only_loads_requested s -> only_loads_requested (loadTrack_try r index k s).
Proof.
  intros (Hu & Hc & Ht). unfold loadTrack_try. case_match; [|done].
  split; [done |]. split; simpl.
  - apply Forall_app. split; [done |]. by constructor.
  - apply Forall_app. split; [done |]. constructor; [by eexists | constructor].
Qed.

Lemma only_loads_loadTrack_unloaded r index k s :
  sound r = None ->
  only_loads_requested s -> only_loads_requested (loadTrack_unloaded r index k s).
Proof.
  intros Hr Hp. unfold loadTrack_unloaded. case_match.
  - by apply only_loads_loadTrack_try.
  - by apply only_loads_loadTrack_return, only_loads_loadTrack_try.
Qed.

Lemma only_loads_afterPress b r s :
  sound r = None ->
  only_loads_requested s -> only_loads_requested (afterPress b r s).
Proof.
  intros Hr Hp. destruct b; unfold afterPress; try done;
    case_match; try done; by apply only_loads_playPauseTrack.
Qed.

Lemma only_loads_loadTrack r index k s :
  sound r = None ->
  only_loads_requested s -> only_loads_requested (loadTrack r index k s).
Proof.
  intros Hr. unfold loadTrack. rewrite Hr. by apply only_loads_loadTrack_try.
Qed.

Lemma only_loads_rerender before s :
  sound (view s) = None -> sound (effectClosure s) = None ->
  only_loads_requested s -> only_loads_requested (rerender before s).
Proof.
  intros Hv He Hp. unfold rerender. case_match; [done |].
  unfold effect_run, effect_cleanup. rewrite He.
  by apply only_loads_loadTrack.
Qed.

Lemma only_loads_onPress b s :
  sound (view s) = None ->
  only_loads_requested s -> only_loads_requested (onPress b (view s) s).
Proof.
  intros Hv Hp. destruct b; simpl.
  - by apply only_loads_loadTrack.
  - by apply only_loads_playPauseTrack.
  - by apply only_loads_stopTrack.
  - by apply only_loads_loadTrack.
Qed.

Lemma unloaded_inv_step s ev s' :
  unloaded_inv s -> step s ev = Some s' -> unloaded_inv s'.
Proof.
  intros Hinv Hstep Hf'.
  assert (isSoundLoaded (view s) = false) as Hf.
  { destruct (isSoundLoaded (view s)) eqn:Hl; [|done].
    by rewrite (step_loaded_mono _ _ _ Hstep Hl) in Hf'. }
  destruct (Hinv Hf) as [Hcl Hp].
  assert (sound (view s') = None) as Hv'.
  { destruct (step_sound _ _ _ Hstep) as [[-> _] | (_ & Ht & _)];
      [by destruct Hcl | congruence]. }
  split; [by eapply closures_step |].
  destruct Hcl as (Hv & He & Hts).
  destruct ev as [b | i | k ok | rows]; simpl in Hstep.
  - case_match; [|discriminate]. injection Hstep as <-.
    apply only_loads_afterPress; [done |]. apply only_loads_rerender.
    + by rewrite sound_onPress.
    + by rewrite effectClosure_onPress.
    + by apply only_loads_onPress.
  - case_match; [|discriminate]. injection Hstep as <-.
    by apply only_loads_rerender.
  - destruct (tasks s !! k) as [t|] eqn:Hk; [|discriminate].
    destruct (resume t ok _) as [s0|] eqn:Hres; [|discriminate].
    injection Hstep as <-.
    assert (sound (closure t) = None) as Ht
      by (by eapply Forall_lookup_1 in Hts; [|exact Hk]).
    destruct Hp as (Hu & Hc & Hl).
    assert (is_Some (loading t)) as Hlt
      by (by eapply Forall_lookup_1 in Hl; [|exact Hk]).
    assert (only_loads_requested (set_tasks (delete k (tasks s)) s)) as Hp0
      by (split; [done |]; split; [done | by apply Forall_delete]).
    rewrite view_rerender in Hf', Hv'.
    assert (effectClosure s0 = effectClosure s) as He0.
    { destruct t; simpl in Hres; repeat case_match; simplify_eq;
        unfold_handlers; repeat case_match; reflexivity. }
    apply only_loads_rerender; [done | by rewrite He0 |].
    destruct t as [r index c | r index track c | r ok0 | r ok0];
      simpl in Hres, Ht.
    + destruct ok; [|discriminate]. injection Hres as <-.
      by apply only_loads_loadTrack_unloaded.
    + injection Hres as <-. rewrite view_loadTrack_created in Hf'.
      destruct ok; [discriminate |]. unfold loadTrack_created.
      by apply only_loads_loadTrack_return.
    + by destruct Hlt.
    + by destruct Hlt.
  - case_match; [|discriminate]. injection Hstep as <-.
    apply only_loads_rerender; by destruct rows.
Qed.

Lemma unloaded_inv_reachable s : reachable s -> unloaded_inv s.
Proof.
  intros [evs Hrun]. revert Hrun.
  assert (unloaded_inv mount) as Hm.
  { intros _. split; [by repeat split | by repeat split]. }
  revert Hm. generalize mount. induction evs as [| ev evs IH]; simpl.
  - by intros s0 Hm [= ->].
  - intros s0 Hm. destruct (step s0 ev) as [s1|] eqn:Hstep; [|discriminate].
    apply IH. by eapply unloaded_inv_step.
Qed.

(** X10: as long as no load has succeeded (the loaded flag is down), the
    engine has been asked for nothing but loads: no [playAsync],
    [pauseAsync], [stopAsync] or [unloadAsync] has been issued, whatever
    buttons were pressed; the engine holds no unit; and every suspended
    function is a [loadTrack]. *)
Theorem only_loads_before_first_success s :
  reachable s ->
  isSoundLoaded (view s) = false ->
  units (engine s) = []
  /\ (forall c, c ∈ calls (engine s) -> exists track, c = CreateAsync track)
  /\ (forall t, t ∈ tasks s -> is_Some (loading t)).
Proof.
  intros Hreach Hf.
  destruct (unloaded_inv_reachable _ Hreach Hf) as [_ (Hu & Hc & Ht)].
  split; [done |]. split.
  - intros c Hin. rewrite Forall_forall in Hc. specialize (Hc c Hin).
    destruct c; try discriminate. by eexists.
  - intros t Hin. rewrite Forall_forall in Ht. by apply Ht.
Qed.

Lemma only_loads_before_first_success_witness :
  reachable (after [seeded; Press PlayPause; Press Next; Press Stop])
  /\ isSoundLoaded
       (view (after [seeded; Press PlayPause; Press Next; Press Stop])) = false
  /\ units (engine (after [seeded; Press PlayPause; Press Next; Press Stop]))
     = []
  /\ calls (engine (after [seeded; Press PlayPause; Press Next; Press Stop]))
     = [CreateAsync (track 1); CreateAsync (track 1)].
Proof.
  assert (reachable (after [seeded; Press PlayPause; Press Next; Press Stop]))
    as Hreach by (eapply reachable_after; vm_compute; reflexivity).
  assert (isSoundLoaded
            (view (after [seeded; Press PlayPause; Press Next; Press Stop]))
          = false) as Hf by (vm_compute; reflexivity).
  split; [exact Hreach |]. split; [exact Hf |].
  split; [exact (proj1 (only_loads_before_first_success _ Hreach Hf)) |].
  vm_compute. reflexivity.
Defined.

(** ** Release before acquisition *)

Lemma length_units_transport c p (h : nat) e :
  List.length (units (snd (engine_transport c p h e))) = List.length (units e).
Proof. unfold engine_transport. case_match; simpl; by rewrite ?length_alter. Qed.

Lemma length_units_playPauseTrack r s :
  List.length (units (engine (playPauseTrack r s)))
  = List.length (units (engine s)).
Proof.
  unfold playPauseTrack, engine_pause, engine_play.
  destruct (sound r); [destruct (isSoundLoaded r) |]; try done. simpl.
  destruct (isPlaying r); apply length_units_transport.
Qed.

Lemma length_units_stopTrack r s :
  List.length (units (engine (stopTrack r s))) = List.length (units (engine s)).
Proof.
  unfold stopTrack, engine_stop.
  destruct (sound r); [destruct (isSoundLoaded r) |]; try done. simpl.
  apply length_units_transport.
Qed.

Lemma length_units_loadTrack_return r k s :
  List.length (units (engine (loadTrack_return r k s)))
  = List.length (units (engine s)).
Proof. destruct k; simpl; [done | apply length_units_playPauseTrack]. Qed.

Lemma length_units_loadTrack_unloaded r index k s :
  List.length (units (engine (loadTrack_unloaded r index k s)))
  = List.length (units (engine s)).
Proof.
  unfold loadTrack_unloaded.
  case_match; rewrite ?length_units_loadTrack_return;
    by rewrite units_loadTrack_try.
Qed.

Lemma length_units_afterPress b r s :
  List.length (units (engine (afterPress b r s)))
  = List.length (units (engine s)).
Proof.
  destruct b; unfold afterPress; try done;
    case_match; try done; apply length_units_playPauseTrack.
Qed.

Lemma length_units_loadTrack r index k s :
  List.length (units (engine (loadTrack r index k s)))
  = List.length (units (engine s)).
Proof.
  unfold loadTrack. case_match; [|by rewrite units_loadTrack_try].
  simpl. by rewrite length_alter.
Qed.

Lemma length_units_effect_cleanup r s :
  List.length (units (engine (effect_cleanup r s)))
  = List.length (units (engine s)).
Proof.
  unfold effect_cleanup. case_match; [|done]. simpl. by rewrite length_alter.
Qed.

Lemma length_units_rerender before s :
  List.length (units (engine (rerender before s)))
  = List.length (units (engine s)).
Proof.
  unfold rerender. case_match; [done |]. unfold effect_run.
  rewrite length_units_loadTrack. cbn [engine set_effectClosure].
  apply length_units_effect_cleanup.
Qed.

Lemma length_units_onPress b r s :
  List.length (units (engine (onPress b r s))) = List.length (units (engine s)).
Proof.
  destruct b; simpl.
  - unfold previousTrack. by rewrite length_units_loadTrack.
  - apply length_units_playPauseTrack.
  - apply length_units_stopTrack.
  - unfold nextTrack. by rewrite length_units_loadTrack.
Qed.

Lemma length_units_resume t ok s s' :
  resume t ok s = Some s' ->
  List.length (units (engine s'))
  = match t with
    | AwaitCreate _ _ _ _ =>
        if ok then S (List.length (units (engine s)))
        else List.length (units (engine s))
    | _ => List.length (units (engine s))
    end.
Proof.
  destruct t as [r index k | r index track k | r ok0 | r ok0]; simpl;
    intros Hres.
  - destruct ok; [|discriminate]. injection Hres as <-.
    apply length_units_loadTrack_unloaded.
  - injection Hres as <-. unfold loadTrack_created.
    destruct ok; rewrite length_units_loadTrack_return; simpl; [|done].
    rewrite length_app. simpl. lia.
  - case_match; [|discriminate]. injection Hres as <-.
    unfold playPauseTrack_resume. by destruct ok.
  - case_match; [|discriminate]. injection Hres as <-.
    unfold stopTrack_resume. by destruct ok.
Qed.

Lemma loaded_rerender before s (j : nat) :
  is_loaded (engine (rerender before s)) j = true ->
  is_loaded (engine s) j = true.
Proof.
  unfold rerender. case_match; [done |]. unfold effect_run.
  intros [Hl _]%loaded_loadTrack. cbn [engine set_effectClosure] in Hl.
  by apply loaded_effect_cleanup in Hl.
Qed.

Lemma loaded_onPress_shrinks b r s (j : nat) :
  is_loaded (engine (onPress b r s)) j = true ->
  is_loaded (engine s) j = true.
Proof.
  destruct b; simpl.
  - unfold previousTrack. by intros [Hl _]%loaded_loadTrack.
  - by rewrite loaded_playPauseTrack.
  - by rewrite loaded_stopTrack.
  - unfold nextTrack. by intros [Hl _]%loaded_loadTrack.
Qed.

Lemma released_mono e e' ts :
  (forall j : nat, is_loaded e' j = true -> is_loaded e j = true) ->
  Forall (released_ok e) ts -> Forall (released_ok e') ts.
Proof.
  intros Hsub Hts. eapply Forall_impl; [exact Hts |].
  intros [r index k | | |]; simpl; try done.
  intros (h & Hs & Hl). exists h. split; [done |].
  apply not_loaded_false. intros Hl'. apply Hsub in Hl'. congruence.
Qed.

Lemma released_snoc e ts t :
  Forall (released_ok e) ts -> released_ok e t ->
  Forall (released_ok e) (ts ++ [t]).
Proof. intros Hts Ht. apply Forall_app. split; [done | by constructor]. Qed.

Lemma released_playPauseTrack r s :
  Forall (released_ok (engine s)) (tasks s) ->
  Forall (released_ok (engine (playPauseTrack r s)))
         (tasks (playPauseTrack r s)).
Proof.
  intros Hts.
  apply (released_mono _ (engine (playPauseTrack r s))) in Hts;
    [|intros j Hj; by rewrite loaded_playPauseTrack in Hj].
  revert Hts. unfold playPauseTrack.
  destruct (sound r); [destruct (isSoundLoaded r) |]; try done.
  intros Hts. by apply released_snoc.
Qed.

Lemma released_stopTrack r s :
  Forall (released_ok (engine s)) (tasks s) ->
  Forall (released_ok (engine (stopTrack r s))) (tasks (stopTrack r s)).
Proof.
  intros Hts.
  apply (released_mono _ (engine (stopTrack r s))) in Hts;
    [|intros j Hj; by rewrite loaded_stopTrack in Hj].
  revert Hts. unfold stopTrack.
  destruct (sound r); [destruct (isSoundLoaded r) |]; try done.
  intros Hts. by apply released_snoc.
Qed.

Lemma released_loadTrack_return r k s :
  Forall (released_ok (engine s)) (tasks s) ->
  Forall (released_ok (engine (loadTrack_return r k s)))
         (tasks (loadTrack_return r k s)).
Proof. destruct k; simpl; [done | apply released_playPauseTrack]. Qed.

Lemma released_loadTrack_try r index k s :
  Forall (released_ok (engine s)) (tasks s) ->
  Forall (released_ok (engine (loadTrack_try r index k s)))
         (tasks (loadTrack_try r index k s)).
Proof.
  intros Hts. unfold loadTrack_try. case_match; [|done].
  simpl. by apply released_snoc.
Qed.

Lemma released_loadTrack_unloaded r index k s :
  Forall (released_ok (engine s)) (tasks s) ->
  Forall (released_ok (engine (loadTrack_unloaded r index k s)))
         (tasks (loadTrack_unloaded r index k s)).
Proof.
  intros Hts. unfold loadTrack_unloaded. case_match.
  - by apply released_loadTrack_try.
  - by apply released_loadTrack_return, released_loadTrack_try.
Qed.

Lemma released_afterPress b r s :
  Forall (released_ok (engine s)) (tasks s) ->
  Forall (released_ok (engine (afterPress b r s))) (tasks (afterPress b r s)).
Proof.
  intros Hts. destruct b; unfold afterPress; try done;
    case_match; try done; by apply released_playPauseTrack.
Qed.

Lemma released_loadTrack r index k s :
  Forall (released_ok (engine s)) (tasks s) ->
  Forall (released_ok (engine (loadTrack r index k s)))
         (tasks (loadTrack r index k s)).
Proof.
  intros Hts. unfold loadTrack. destruct (sound r) as [h|] eqn:Hs;
    [|by apply released_loadTrack_try].
  simpl. apply released_snoc.
  - eapply released_mono; [|exact Hts].
    by intros j [Hl _]%loaded_engine_unload.
  - simpl. exists h. split; [done |]. apply not_loaded_false.
    by intros [_ Hne]%loaded_engine_unload.
Qed.

Lemma released_rerender before s :
  Forall (released_ok (engine s)) (tasks s) ->
  Forall (released_ok (engine (rerender before s))) (tasks (rerender before s)).
Proof.
  intros Hts. unfold rerender. case_match; [done |]. unfold effect_run.
  apply released_loadTrack. cbn [engine tasks set_effectClosure].
  rewrite tasks_effect_cleanup.
  eapply released_mono; [|exact Hts]. intros j. apply loaded_effect_cleanup.
Qed.

Lemma released_onPress b r s :
  Forall (released_ok (engine s)) (tasks s) ->
  Forall (released_ok (engine (onPress b r s))) (tasks (onPress b r s)).
Proof.
  intros Hts. destruct b; simpl.
  - by apply released_loadTrack.
  - by apply released_playPauseTrack.
  - by apply released_stopTrack.
  - by apply released_loadTrack.
Qed.

Lemma closures_ok_impl (Q Q' : option Handle -> Prop) s :
  (forall o, Q o -> Q' o) -> closures_ok Q s -> closures_ok Q' s.
Proof.
  intros Himpl (Hv & He & Hts). split; [|split]; auto.
  eapply Forall_impl; [exact Hts |]. auto.
Qed.

Lemma step_units_length s ev s' :
  step s ev = Some s' ->
  (List.length (units (engine s)) <= List.length (units (engine s')))%nat.
Proof.
  destruct ev as [b | i | k ok | rows]; simpl; intros Hstep.
  - case_match; [|discriminate]. injection Hstep as <-.
    by rewrite length_units_afterPress, length_units_rerender,
         length_units_onPress.
  - case_match; [|discriminate]. injection Hstep as <-.
    by rewrite length_units_rerender.
  - destruct (tasks s !! k) as [t|]; [|discriminate].
    destruct (resume t ok _) as [s0|] eqn:Hres; [|discriminate].
    injection Hstep as <-. rewrite length_units_rerender.
    rewrite (length_units_resume _ _ _ _ Hres). simpl.
    destruct t; try done. destruct ok; lia.
  - case_match; [|discriminate]. injection Hstep as <-.
    rewrite length_units_rerender. by destruct rows.
Qed.

Lemma release_inv_step s ev s' :
  release_inv s -> step s ev = Some s' -> release_inv s'.
Proof.
  intros [Hval Hrel] Hstep. split.
  - eapply closures_step; [| exact Hstep |].
    + eapply closures_ok_impl; [|exact Hval]. simpl. intros o Ho h Hh.
      specialize (Ho h Hh). pose proof (step_units_length _ _ _ Hstep). lia.
    + simpl. intros h Hh.
      destruct (step_sound _ _ _ Hstep)
        as [[Hs _] | (Hs & _ & k & r & index & track & c & -> & Hk)].
      * destruct Hval as (Hv & _). rewrite Hs in Hh. specialize (Hv h Hh).
        pose proof (step_units_length _ _ _ Hstep). lia.
      * rewrite Hs in Hh. injection Hh as <-.
        simpl in Hstep. rewrite Hk in Hstep. simpl in Hstep.
        injection Hstep as <-. rewrite length_units_rerender.
        unfold loadTrack_created. rewrite length_units_loadTrack_return.
        simpl. rewrite length_app. simpl. lia.
  - destruct ev as [b | i | k ok | rows]; unfold step in Hstep.
    + case_match; [|discriminate]. injection Hstep as <-.
      by apply released_afterPress, released_rerender, released_onPress.
    + case_match; [|discriminate]. injection Hstep as <-.
      by apply released_rerender.
    + destruct (tasks s !! k) as [t|] eqn:Hk; [|discriminate].
      destruct (resume t ok _) as [s0|] eqn:Hres; [|discriminate].
      injection Hstep as <-. apply released_rerender.
      assert (Forall (released_ok (engine s)) (delete k (tasks s))) as Hdel
        by (by apply Forall_delete).
      destruct Hval as (_ & _ & Hvts).
      destruct t as [r index c | r index track c | r ok0 | r ok0];
        simpl in Hres.
      * destruct ok; [|discriminate]. injection Hres as <-.
        by apply released_loadTrack_unloaded.
      * injection Hres as <-. unfold loadTrack_created.
        destruct ok; apply released_loadTrack_return; simpl; [|done].
        apply Forall_forall. intros t Hin.
        assert (t ∈ tasks s) as Hin'
          by (by eapply list_elem_of_delete_inv).
        rewrite Forall_forall in Hrel, Hvts.
        specialize (Hrel t Hin'). specialize (Hvts t Hin').
        destruct t as [r' index' c' | | |]; simpl in *; try done.
        destruct Hrel as (h & Hs & Hl). exists h. split; [done |].
        specialize (Hvts h Hs). unfold is_loaded in *. simpl.
        by rewrite lookup_app_l.
      * case_match; [|discriminate]. injection Hres as <-.
        unfold playPauseTrack_resume. by destruct ok.
      * case_match; [|discriminate]. injection Hres as <-.
        unfold stopTrack_resume. by destruct ok.
    + case_match; [|discriminate]. injection Hstep as <-.
      apply released_rerender. by destruct rows.
Qed.

Lemma release_inv_reachable s : reachable s -> release_inv s.
Proof.
  intros [evs Hrun]. revert Hrun.
  assert (release_inv mount) as Hm.
  { split; [|by constructor]. by repeat split. }
  revert Hm. generalize mount. induction evs as [| ev evs IH]; simpl.
  - by intros s0 Hm [= ->].
  - intros s0 Hm. destruct (step s0 ev) as [s1|] eqn:Hstep; [|discriminate].
    apply IH. by eapply release_inv_step.
Qed.

(** X11: release comes before acquisition within each [loadTrack].  In
    every reachable state, a [loadTrack] that is suspended at
    [await sound.unloadAsync()] closes over a sound that the engine has
    already released; when the unload settles, [loadTrack] goes on to its
    [try] block, and that sound is still released when [createAsync] is
    called. *)
Theorem loadTrack_releases_before_it_loads s k r index c :
  reachable s ->
  tasks s !! k = Some (AwaitUnload r index c) ->
  exists (h : nat) s',
    sound r = Some h
    /\ is_loaded (engine s) h = false
    /\ step s (Settle k true) = Some s'
    /\ is_loaded (engine s') h = false
    /\ (forall song,
          JS.get (songs r) index = Some song ->
          calls (engine s')
          = calls (engine s) ++ [CreateAsync (uri song)]).
Proof.
  intros Hreach Hk. destruct (release_inv_reachable _ Hreach) as [_ Hrel].
  pose proof Hrel as Hrel0.
  eapply Forall_lookup_1 in Hrel; [|exact Hk]. simpl in Hrel.
  destruct Hrel as (h & Hs & Hl).
  exists h, (loadTrack_unloaded r index c (set_tasks (delete k (tasks s)) s)).
  split; [done |]. split; [done |]. split.
  { unfold step. rewrite Hk. simpl. f_equal. apply rerender_same.
    by rewrite view_loadTrack_unloaded. }
  split.
  - by rewrite loaded_loadTrack_unloaded.
  - intros song Hsong. unfold loadTrack_unloaded, loadTrack_try.
    by rewrite Hsong.
Qed.

Lemma loadTrack_releases_before_it_loads_witness :
  reachable (after (track_1_loaded ++ [PressSong 2]))
  /\ tasks (after (track_1_loaded ++ [PressSong 2])) !! 0%nat
     = Some (AwaitUnload (view (after (track_1_loaded ++ [PressSong 2])))
               (JS.Num 2) FromEffect)
  /\ is_loaded (engine (after (track_1_loaded ++ [PressSong 2]))) 0 = false
  /\ calls (engine (after switching_to_track_2))
     = calls (engine (after (track_1_loaded ++ [PressSong 2])))
       ++ [CreateAsync (track 2)].
Proof.
  assert (reachable (after (track_1_loaded ++ [PressSong 2]))) as Hreach
    by (eapply reachable_after; vm_compute; reflexivity).
  assert (tasks (after (track_1_loaded ++ [PressSong 2])) !! 0%nat
          = Some (AwaitUnload (view (after (track_1_loaded ++ [PressSong 2])))
                    (JS.Num 2) FromEffect)) as Hk
    by (vm_compute; reflexivity).
  split; [exact Hreach |]. split; [exact Hk |].
  destruct (loadTrack_releases_before_it_loads _ _ _ _ _ Hreach Hk)
    as (h & s' & Hs & Hl & Hstep & _ & Hcalls).
  assert (h = 0%nat) as -> by (vm_compute in Hs; congruence).
  split; [exact Hl |].
  assert (step (after (track_1_loaded ++ [PressSong 2])) (Settle 0 true)
          = Some (after switching_to_track_2)) as Hstep'
    by (vm_compute; reflexivity).
  rewrite Hstep' in Hstep. injection Hstep as <-.
  apply (Hcalls (mkSong 3 "Hey Lil Mama - Eladio Carrion "
                   "https://audio.jukehost.co.uk/mG4ce1SARwwOBRxUa83lDbNKpH7ZtIi2"
                   (Some "https://i.scdn.co/image/ab67616d0000b273ec105eaf625391e95540ba97"))).
  vm_compute. reflexivity.
Defined.

(** ** The catalog at startup *)

Section CatalogFacts.

Variable Store : Type.
Variable exec : Store -> Sql -> option (Store * list Song).




End CatalogFacts.

Lemma sqlite_inserts seed : forall l n qs lg,
  insertSongs_loop Table sqlite seed (mkDb (mkTable (Some l) n) qs lg)
  = (true,
     mkDb (mkTable (Some (l ++ numbered n seed))
                   (n + Z.of_nat (List.length seed)))
          (qs ++ (insert_of <$> seed)) lg).
Proof.
  induction seed as [| song seed IH]; intros l n qs lg.
  - simpl. by rewrite !app_nil_r, Z.add_0_r.
  - cbn [insertSongs_loop]. unfold insertSong. cbn -[Z.of_nat Z.add].
    rewrite IH, <- !app_assoc. cbn -[Z.of_nat Z.add].
    do 3 f_equal. lia.
Qed.

Lemma numbered_ids_above from seed song :
  song ∈ numbered from seed -> from < song_id song.
Proof.
  revert from. induction seed as [| x seed IH]; intros from; simpl.
  - by intros ?%elem_of_nil.
  - intros [-> | Hin]%elem_of_cons; simpl; [lia |].
    specialize (IH _ Hin). lia.
Qed.

Lemma numbered_ids_NoDup from seed : NoDup (song_id <$> numbered from seed).
Proof.
  revert from. induction seed as [| x seed IH]; intros from; simpl.
  - constructor.
  - constructor; [|apply IH].
    intros (song & Hid & Hin)%list_elem_of_fmap.
    apply numbered_ids_above in Hin. simpl in Hid. lia.
Qed.

(** X13: reset and seed.  On the table store, whatever the table held
    before (absent, empty, or the rows of an earlier run), startup
    delivers the songs of the list and nothing else, in the order of the
    list, with ids 1, 2, ... assigned afresh and so all distinct; the
    table holds exactly these rows afterwards.  For the songs of
    [insertSongs] the delivered event is the playlist [hardcodedSongs]. *)
Theorem startup_resets_and_seeds seed t :
  (startup Table sqlite seed t).1 = Some (Fetched (Some (numbered 0 seed)))
  /\ rows (store (startup Table sqlite seed t).2) = Some (numbered 0 seed)
  /\ NoDup (song_id <$> numbered 0 seed)
  /\ List.length (numbered 0 seed) = List.length seed
  /\ (startup Table sqlite seedSongs t).1 = Some seeded.
Proof.
  assert (forall seed',
            startup Table sqlite seed' t
            = (Some (Fetched (Some (numbered 0 seed'))),
               mkDb (mkTable (Some (numbered 0 seed'))
                             (Z.of_nat (List.length seed')))
                    ([DropSongs; CreateSongs] ++ (insert_of <$> seed')
                     ++ [SelectSongs])
                    [Logged "Table songs dropped successfully."%string;
                     Logged "Table songs created successfully."%string]))
    as Hstart.
  { intros seed'. unfold startup, initializeDatabase. cbn.
    rewrite sqlite_inserts. cbn. reflexivity. }
  rewrite !Hstart. repeat split.
  - apply numbered_ids_NoDup.
  - generalize 0. induction seed as [| x seed IH]; intros from; simpl;
      [done | by rewrite IH].
Qed.

(** ** A transport command on a released sound *)

(** X14: pressing Play/Pause or Stop while the component holds a sound
    that the engine has released (its guard passes, the flag being set)
    does no harm: the engine rejects the call, the [catch] logs the
    error, and the hook values, the units of the engine and the suspended
    closures are what they were. *)
Theorem transport_on_released_sound_only_logs s (h : nat) b :
  transport_rendered (view s) = true ->
  sound (view s) = Some h ->
  isSoundLoaded (view s) = true ->
  is_loaded (engine s) h = false ->
  b = PlayPause \/ b = Stop ->
  exists s1 s2,
    step s (Press b) = Some s1
    /\ step s1 (Settle (List.length (tasks s)) false) = Some s2
    /\ view s2 = view s
    /\ units (engine s2) = units (engine s)
    /\ tasks s2 = tasks s
    /\ console s2
       = console s
         ++ [Error (match b with
                    | Stop => msg_stop_error
                    | _ => msg_play_pause_error
                    end)].
Proof.
  intros Hgate Hs Hl He [-> | ->].
  - set (c := if isPlaying (view s) then PauseAsync h else PlayAsync h).
    assert (playPauseTrack (view s) s
            = suspend (AwaitPlayPause (view s) false)
                (set_engine (record_call c (engine s)) s)) as Hpress.
    { unfold playPauseTrack, engine_pause, engine_play. rewrite Hs, Hl.
      subst c. destruct (isPlaying (view s));
        by rewrite (engine_transport_unloaded _ _ _ _ He). }
    exists (suspend (AwaitPlayPause (view s) false)
              (set_engine (record_call c (engine s)) s)).
    eexists. split.
    { unfold step. rewrite Hgate. simpl. rewrite Hpress. f_equal.
      by apply rerender_same. }
    split.
    { unfold step. cbn [tasks suspend set_tasks set_engine].
      rewrite lookup_last_task, delete_last_task. simpl.
      rewrite rerender_same by reflexivity. reflexivity. }
    by destruct s as [[] ? ? ? ? ?].
  - assert (stopTrack (view s) s
            = suspend (AwaitStop (view s) false)
                (set_engine (record_call (StopAsync h) (engine s)) s))
      as Hpress.
    { unfold stopTrack, engine_stop. rewrite Hs, Hl.
      by rewrite (engine_transport_unloaded _ _ _ _ He). }
    exists (suspend (AwaitStop (view s) false)
              (set_engine (record_call (StopAsync h) (engine s)) s)).
    eexists. split.
    { unfold step. rewrite Hgate. simpl. rewrite Hpress. f_equal.
      by apply rerender_same. }
    split.
    { unfold step. cbn [tasks suspend set_tasks set_engine].
      rewrite lookup_last_task, delete_last_task. simpl.
      rewrite rerender_same by reflexivity. reflexivity. }
    by destruct s as [[] ? ? ? ? ?].
Qed.

Lemma transport_on_released_sound_only_logs_witness :
  transport_rendered (view (after load_of_track_2_fails)) = true
  /\ sound (view (after load_of_track_2_fails)) = Some 0%nat
  /\ isSoundLoaded (view (after load_of_track_2_fails)) = true
  /\ is_loaded (engine (after load_of_track_2_fails)) 0 = false
  /\ exists s1 s2,
       step (after load_of_track_2_fails) (Press Stop) = Some s1
       /\ step s1 (Settle 0 false) = Some s2
       /\ view s2 = view (after load_of_track_2_fails).
Proof.
  assert (transport_rendered (view (after load_of_track_2_fails)) = true)
    as Hgate by (vm_compute; reflexivity).
  assert (sound (view (after load_of_track_2_fails)) = Some 0%nat) as Hs
    by (vm_compute; reflexivity).
  assert (isSoundLoaded (view (after load_of_track_2_fails)) = true) as Hl
    by (vm_compute; reflexivity).
  assert (is_loaded (engine (after load_of_track_2_fails)) 0 = false) as He
    by (vm_compute; reflexivity).
  split; [exact Hgate |]. split; [exact Hs |]. split; [exact Hl |].
  split; [exact He |].
  destruct (transport_on_released_sound_only_logs _ _ Stop Hgate Hs Hl He
              (or_intror eq_refl)) as (s1 & s2 & H1 & H2 & Hv & _).
  exists s1, s2. split; [exact H1 |]. split; [|exact Hv].
  assert (List.length (tasks (after load_of_track_2_fails)) = 0%nat) as Hn
    by (vm_compute; reflexivity).
  by rewrite Hn in H2.
Defined.

(** ** A list press on another track *)

(** X15: pressing the list item of a track other than the current one
    makes that track current and starts exactly one load of it, by the
    effect, a closure of the new render (compare X3: Next and Previous
    start two). *)
Theorem list_press_starts_one_load s i :
  (i < List.length (songs (view s)))%nat ->
  currentTrackIndex (view s) <> JS.Num (Z.of_nat i) ->
  exists s' t,
    step s (PressSong i) = Some s'
    /\ currentTrackIndex (view s') = JS.Num (Z.of_nat i)
    /\ sound (view s') = sound (view s)
    /\ tasks s' = tasks s ++ [t]
    /\ loading t = Some (JS.Num (Z.of_nat i))
    /\ caller t = Some FromEffect
    /\ closure t = view s'.
Proof.
  intros Hi Hne. unfold step.
  destruct (Nat.ltb_spec i (List.length (songs (view s)))); [|lia].
  set (s0 := setCurrentTrackIndex (JS.Num (Z.of_nat i)) s).
  unfold rerender. change (currentTrackIndex (view s0)) with (JS.Num (Z.of_nat i)).
  rewrite (object_is_neq _ _ Hne). unfold effect_run.
  destruct (loadTrack_suspends (view s0) (currentTrackIndex (view s0))
              FromEffect
              (set_effectClosure (view s0)
                 (effect_cleanup (effectClosure s0) s0)))
    as (t & Ht & Hl & Hc & Hr).
  { apply get_in_range. simpl. lia. }
  do 2 eexists. split; [reflexivity |].
  rewrite Ht, view_loadTrack.
  change (view (set_effectClosure (view s0)
                  (effect_cleanup (effectClosure s0) s0)))
    with (view (effect_cleanup (effectClosure s0) s0)).
  change (tasks (set_effectClosure (view s0)
                   (effect_cleanup (effectClosure s0) s0)))
    with (tasks (effect_cleanup (effectClosure s0) s0)).
  rewrite view_effect_cleanup, tasks_effect_cleanup.
  by repeat split.
Qed.

Lemma list_press_starts_one_load_witness :
  (2 < List.length (songs (view (after track_1_loaded))))%nat
  /\ currentTrackIndex (view (after track_1_loaded)) <> JS.Num (Z.of_nat 2)
  /\ exists s' t,
       step (after track_1_loaded) (PressSong 2) = Some s'
       /\ tasks s' = tasks (after track_1_loaded) ++ [t]
       /\ caller t = Some FromEffect.
Proof.
  assert (2 < List.length (songs (view (after track_1_loaded))))%nat as Hi
    by (vm_compute; lia).
  assert (currentTrackIndex (view (after track_1_loaded))
          <> JS.Num (Z.of_nat 2)) as Hne by (vm_compute; discriminate).
  split; [exact Hi |]. split; [exact Hne |].
  destruct (list_press_starts_one_load _ _ Hi Hne)
    as (s' & t & Hstep & _ & _ & Hts & _ & Hc & _).
  exists s', t. split; [exact Hstep |]. split; [exact Hts | exact Hc].
Defined.

(** ** Loads are for songs of the playlist *)

Lemma load_ok_snoc ts t :
  Forall load_ok ts -> load_ok t -> Forall load_ok (ts ++ [t]).
Proof. intros Hts Ht. apply Forall_app. split; [done | by constructor]. Qed.

Lemma load_ok_playPauseTrack r s :
  Forall load_ok (tasks s) -> Forall load_ok (tasks (playPauseTrack r s)).
Proof.
  intros Hts. unfold playPauseTrack.
  destruct (sound r); [destruct (isSoundLoaded r) |]; try done.
  by apply load_ok_snoc.
Qed.

Lemma load_ok_stopTrack r s :
  Forall load_ok (tasks s) -> Forall load_ok (tasks (stopTrack r s)).
Proof.
  intros Hts. unfold stopTrack.
  destruct (sound r); [destruct (isSoundLoaded r) |]; try done.
  by apply load_ok_snoc.
Qed.

Lemma load_ok_loadTrack_return r k s :
  Forall load_ok (tasks s) -> Forall load_ok (tasks (loadTrack_return r k s)).
Proof. destruct k; simpl; [done | apply load_ok_playPauseTrack]. Qed.

Lemma load_ok_loadTrack_try r index k s :
  Forall load_ok (tasks s) -> Forall load_ok (tasks (loadTrack_try r index k s)).
Proof.
  intros Hts. unfold loadTrack_try.
  destruct (JS.get (songs r) index) as [song|] eqn:Hsong; [|done].
  simpl. apply load_ok_snoc; [done |]. simpl. by rewrite Hsong.
Qed.

Lemma load_ok_loadTrack_unloaded r index k s :
  Forall load_ok (tasks s) ->
  Forall load_ok (tasks (loadTrack_unloaded r index k s)).
Proof.
  intros Hts. unfold loadTrack_unloaded. case_match.
  - by apply load_ok_loadTrack_try.
  - by apply load_ok_loadTrack_return, load_ok_loadTrack_try.
Qed.

Lemma load_ok_afterPress b r s :
  Forall load_ok (tasks s) -> Forall load_ok (tasks (afterPress b r s)).
Proof.
  intros Hts. destruct b; unfold afterPress; try done;
    case_match; try done; by apply load_ok_playPauseTrack.
Qed.

Lemma load_ok_loadTrack r index k s :
  is_Some (JS.get (songs r) index) ->
  Forall load_ok (tasks s) -> Forall load_ok (tasks (loadTrack r index k s)).
Proof.
  intros Hget Hts. unfold loadTrack. case_match.
  - simpl. by apply load_ok_snoc.
  - by apply load_ok_loadTrack_try.
Qed.

Lemma load_ok_rerender before s :
  is_Some (JS.get (songs (view s)) (currentTrackIndex (view s))) ->
  Forall load_ok (tasks s) -> Forall load_ok (tasks (rerender before s)).
Proof.
  intros Hget Hts. unfold rerender. case_match; [done |].
  unfold effect_run. apply load_ok_loadTrack; [done |].
  cbn [tasks set_effectClosure]. by rewrite tasks_effect_cleanup.
Qed.

Lemma index_ok_get r :
  index_ok r -> songs r <> [] ->
  is_Some (JS.get (songs r) (currentTrackIndex r)).
Proof.
  intros Hidx Hne. destruct (index_ok_in_range _ Hidx) as (c & Hc & Hr).
  - destruct (songs r); [done | simpl; lia].
  - rewrite Hc. by apply get_in_range.
Qed.

Lemma load_ok_step s ev s' :
  index_inv s -> Forall load_ok (tasks s) ->
  step s ev = Some s' -> Forall load_ok (tasks s').
Proof.
  intros Hidx Hts Hstep.
  pose proof (index_inv_step _ _ _ Hidx Hstep) as [Hidx' _].
  destruct ev as [b | i | k ok | rows]; unfold step in Hstep.
  - destruct (transport_rendered (view s)) eqn:Hgate; [|discriminate].
    injection Hstep as <-. rewrite view_afterPress, view_rerender in Hidx'.
    pose proof (transport_rendered_nonempty _ Hgate) as Hn.
    assert (songs (view (onPress b (view s) s)) <> []) as Hne.
    { rewrite songs_onPress. destruct (songs (view s)); [simpl in Hn; lia | done]. }
    apply load_ok_afterPress.
    apply load_ok_rerender; [by apply index_ok_get |].
    destruct Hidx as [Hidx _].
    destruct (index_ok_in_range _ Hidx Hn) as (c & Hc & Hr).
    destruct b; simpl.
    + apply load_ok_loadTrack; [|done].
      rewrite (prevIndex_wraps _ _ Hc Hr). apply get_in_range.
      apply Z.mod_pos_bound. lia.
    + by apply load_ok_playPauseTrack.
    + by apply load_ok_stopTrack.
    + apply load_ok_loadTrack; [|done].
      rewrite (nextIndex_wraps _ _ Hc Hr). apply get_in_range.
      apply Z.mod_pos_bound. lia.
  - destruct (Nat.ltb_spec i (List.length (songs (view s)))); [|discriminate].
    injection Hstep as <-. rewrite view_rerender in Hidx'.
    apply load_ok_rerender; [|done]. apply get_in_range. simpl. lia.
  - destruct (tasks s !! k) as [t|] eqn:Hk; [|discriminate].
    destruct (resume t ok _) as [s0|] eqn:Hres; [|discriminate].
    injection Hstep as <-.
    destruct (index_resume _ _ _ _ Hres) as [Hi _].
    rewrite rerender_same by done.
    assert (Forall load_ok (delete k (tasks s))) as Hdel
      by (by apply Forall_delete).
    destruct t as [r index c | r index track c | r ok0 | r ok0];
      simpl in Hres.
    + destruct ok; [|discriminate]. injection Hres as <-.
      by apply load_ok_loadTrack_unloaded.
    + injection Hres as <-. unfold loadTrack_created.
      destruct ok; by apply load_ok_loadTrack_return.
    + case_match; [|discriminate]. injection Hres as <-.
      unfold playPauseTrack_resume. by destruct ok.
    + case_match; [|discriminate]. injection Hres as <-.
      unfold stopTrack_resume. by destruct ok.
  - destruct (dbPending s); [|discriminate]. injection Hstep as <-.
    rewrite rerender_same by (by destruct rows). by destruct rows.
Qed.

Lemma load_ok_reachable s : reachable s -> Forall load_ok (tasks s).
Proof.
  intros [evs Hrun]. revert Hrun.
  assert (index_inv mount /\ Forall load_ok (tasks mount)) as Hm
    by (split; [apply index_inv_mount | constructor]).
  revert Hm. generalize mount. induction evs as [| ev evs IH]; simpl.
  - by intros s0 [_ Hm] [= ->].
  - intros s0 [Hidx Hm]. destruct (step s0 ev) as [s1|] eqn:Hstep;
      [|discriminate].
    apply IH. split; [by eapply index_inv_step | by eapply load_ok_step].
Qed.

(** X16: every load the component has in flight is for a song of the
    playlist.  In every reachable state, a suspended [loadTrack] holds an
    index at which the playlist of its render has a song, and the locator
    it has asked the engine to load is that song's [uri].  So after the
    call at mount, on the still empty playlist, [songs[index].uri] never
    throws when such a [loadTrack] resumes. *)
Theorem loads_are_for_playlist_songs s k :
  reachable s ->
  (forall r index c,
     tasks s !! k = Some (AwaitUnload r index c) ->
     exists song s',
       JS.get (songs r) index = Some song
       /\ step s (Settle k true) = Some s'
       /\ tasks s' = delete k (tasks s) ++ [AwaitCreate r index (uri song) c]
       /\ console s' = console s)
  /\ (forall r index track c,
        tasks s !! k = Some (AwaitCreate r index track c) ->
        exists song,
          JS.get (songs r) index = Some song /\ track = uri song).
Proof.
  intros Hreach. pose proof (load_ok_reachable _ Hreach) as Hok. split.
  - intros r index c Hk.
    eapply Forall_lookup_1 in Hok; [|exact Hk]. destruct Hok as [song Hsong].
    exists song. eexists. split; [done |]. split.
    { unfold step. rewrite Hk. simpl. rewrite rerender_same; [reflexivity |].
      by rewrite view_loadTrack_unloaded. }
    unfold loadTrack_unloaded, loadTrack_try. by rewrite Hsong.
  - intros r index track c Hk.
    eapply Forall_lookup_1 in Hok; [|exact Hk]. simpl in Hok.
    destruct (JS.get (songs r) index) as [song|]; [|discriminate].
    exists song. split; [done |]. by injection Hok as <-.
Qed.

Lemma loads_are_for_playlist_songs_witness :
  reachable (after switching_to_track_2)
  /\ tasks (after switching_to_track_2) !! 0%nat
     = Some (AwaitCreate (view (after (track_1_loaded ++ [PressSong 2])))
               (JS.Num 2) (track 2) FromEffect)
  /\ exists song,
       JS.get (songs (view (after (track_1_loaded ++ [PressSong 2]))))
              (JS.Num 2) = Some song
       /\ track 2 = uri song.
Proof.
  assert (reachable (after switching_to_track_2)) as Hreach
    by (eapply reachable_after; vm_compute; reflexivity).
  assert (tasks (after switching_to_track_2) !! 0%nat
          = Some (AwaitCreate (view (after (track_1_loaded ++ [PressSong 2])))
                    (JS.Num 2) (track 2) FromEffect)) as Hk
    by (vm_compute; reflexivity).
  split; [exact Hreach |]. split; [exact Hk |].
  destruct (loads_are_for_playlist_songs _ 0%nat Hreach) as [_ Hcreate].
  exact (Hcreate _ _ _ _ Hk).
Defined.

(** ** When a load completes

    The two theorems of this section rest on the invariants above. *)

Lemma held_track_loadTrack_return r k s :
  held_track (loadTrack_return r k s) = held_track s.
Proof.
  unfold held_track. rewrite view_loadTrack_return.
  destruct (sound (view s)); [apply uri_loadTrack_return | done].
Qed.

(** C1, as amended: the component has no stale-load guard; the completion
    of a load is processed without looking at the current index.  Take
    any pending load, started for the index [index] and the locator
    [track]; in a reachable state [track] is the locator of the song at
    [index] in the playlist of the render that started the load.
    - If it succeeds, the current index is left as it is, the loaded
      flag is set, and the held sound becomes the sound just created for
      [track], whatever has been selected, and whatever has been loaded,
      since the load began.
    - If it fails, the hook values and the held sound are left as they
      are.
    So when list item 0 and then list item 1 have been pressed and the
    load of track 0 succeeds while the index is 1, the component ends up
    at index 1 holding the sound of track 0; the counterexample is the
    run where this happens after the load of track 1 has completed. *)
Theorem load_completion_is_unguarded s k r index track c :
  tasks s !! k = Some (AwaitCreate r index track c) ->
  (exists s',
     step s (Settle k true) = Some s'
     /\ currentTrackIndex (view s') = currentTrackIndex (view s)
     /\ sound (view s') = Some (List.length (units (engine s)))
     /\ isSoundLoaded (view s') = true
     /\ held_track s' = Some track)
  /\ (exists s',
        step s (Settle k false) = Some s'
        /\ view s' = view s
        /\ held_track s' = held_track s)
  /\ (reachable s ->
      exists song, JS.get (songs r) index = Some song /\ track = uri song).
Proof.
  intros Hk. split; [|split].
  - exists (loadTrack_created r track c true (set_tasks (delete k (tasks s)) s)).
    split; [exact (settle_created _ _ _ _ _ _ Hk) |].
    unfold held_track. rewrite view_loadTrack_created. simpl.
    repeat split.
    unfold loadTrack_created. rewrite uri_loadTrack_return. simpl.
    rewrite lookup_app_r by lia. by rewrite Nat.sub_diag.
  - eexists. split; [exact (settle_failed _ _ _ _ _ _ Hk) |].
    split; [by rewrite view_loadTrack_return |].
    by rewrite held_track_loadTrack_return.
  - intros Hreach. pose proof (load_ok_reachable _ Hreach) as Hok.
    eapply Forall_lookup_1 in Hok; [|exact Hk]. simpl in Hok.
    destruct (JS.get (songs r) index) as [song|]; [|discriminate].
    exists song. split; [done |]. by injection Hok as <-.
Qed.

Lemma load_completion_is_unguarded_witness :
  tasks (after select_0_then_1) !! 0%nat
  = Some (AwaitCreate (view (after [seeded; PressSong 2; Settle 0 true; PressSong 0]))
            (JS.Num 0)
            "https://audio.jukehost.co.uk/SyEabX1oMUCZSBoR9FgGdL0hfQoPh0iG"%string
            FromEffect)
  /\ exists s',
       step (after select_0_then_1) (Settle 0 true) = Some s'
       /\ currentTrackIndex (view s') = JS.Num 1
       /\ held_track s' = uri <$> hardcodedSongs !! 0%nat.
Proof.
  assert (tasks (after select_0_then_1) !! 0%nat
          = Some (AwaitCreate
                    (view (after [seeded; PressSong 2; Settle 0 true; PressSong 0]))
                    (JS.Num 0)
                    "https://audio.jukehost.co.uk/SyEabX1oMUCZSBoR9FgGdL0hfQoPh0iG"%string
                    FromEffect)) as Hk by (vm_compute; reflexivity).
  split; [exact Hk |].
  destruct (load_completion_is_unguarded _ _ _ _ _ _ Hk)
    as [(s' & Hstep & Hidx & _ & _ & Hheld) _].
  exists s'. split; [exact Hstep |]. split; [|exact Hheld].
  rewrite Hidx. vm_compute. reflexivity.
Defined.

(** C5, as amended: when the engine fails to load a track the error is
    caught and logged and the component keeps running, but it does not
    go back to a state without a sound: its hook values, the current
    index, [isPlaying], the loaded flag and the sound object, are
    exactly what they were when the failure was processed.  In a
    reachable state the loaded flag is down afterwards if and only if
    the engine has never created a sound, that is, no load has ever
    succeeded.  Pressing the list item of the current track again
    changes nothing and issues no load; a load is started again by
    pressing the item of another track. *)
Theorem failed_load_keeps_hook_state s k r index track c :
  tasks s !! k = Some (AwaitCreate r index track c) ->
  exists s',
    step s (Settle k false) = Some s'
    /\ view s' = view s
    /\ (exists rest, console s' = console s ++ Error msg_load_error :: rest)
    /\ (reachable s ->
        (isSoundLoaded (view s') = false <-> units (engine s') = []))
    /\ (forall i,
          (i < List.length (songs (view s')))%nat ->
          (currentTrackIndex (view s') = JS.Num (Z.of_nat i) ->
           step s' (PressSong i) = Some s')
          /\ (currentTrackIndex (view s') <> JS.Num (Z.of_nat i) ->
              exists s'' t,
                step s' (PressSong i) = Some s''
                /\ tasks s'' = tasks s' ++ [t]
                /\ loading t = Some (JS.Num (Z.of_nat i)))).
Proof.
  intros Hk. eexists. split; [exact (settle_failed _ _ _ _ _ _ Hk) |].
  split; [by rewrite view_loadTrack_return |]. split; [|split].
  - destruct (console_loadTrack_return r c
                (console_log (Error msg_load_error)
                             (set_tasks (delete k (tasks s)) s)))
      as [rest Hrest].
    exists rest. rewrite Hrest. simpl. by rewrite <- app_assoc.
  - intros Hreach.
    pose proof (reachable_step _ _ _ Hreach (settle_failed _ _ _ _ _ _ Hk))
      as Hreach'.
    split.
    + intros Hf. by destruct (unloaded_inv_reachable _ Hreach' Hf) as [_ [Hu _]].
    + intros Hu. apply Bool.not_true_is_false. intros Hl.
      apply (sound_flag_reachable _ Hreach') in Hl as [h Hh].
      destruct (release_inv_reachable _ Hreach') as [(Hv & _) _].
      specialize (Hv h Hh). rewrite Hu in Hv. simpl in Hv. lia.
  - intros i Hi. split.
    + by apply press_current_song.
    + intros Hne. destruct (press_other_song _ _ Hi Hne) as (s'' & t & H).
      exists s'', t. tauto.
Qed.

Lemma failed_load_keeps_hook_state_witness :
  tasks (after switching_to_track_2) !! 0%nat
  = Some (AwaitCreate (view (after (track_1_loaded ++ [PressSong 2])))
            (JS.Num 2)
            "https://audio.jukehost.co.uk/mG4ce1SARwwOBRxUa83lDbNKpH7ZtIi2"%string
            FromEffect)
  /\ exists s',
       step (after switching_to_track_2) (Settle 0 false) = Some s'
       /\ view s' = view (after switching_to_track_2)
       /\ isSoundLoaded (view s') = true
       /\ step s' (PressSong 2) = Some s'.
Proof.
  assert (tasks (after switching_to_track_2) !! 0%nat
          = Some (AwaitCreate (view (after (track_1_loaded ++ [PressSong 2])))
                    (JS.Num 2)
                    "https://audio.jukehost.co.uk/mG4ce1SARwwOBRxUa83lDbNKpH7ZtIi2"%string
                    FromEffect)) as Hk by (vm_compute; reflexivity).
  split; [exact Hk |].
  destruct (failed_load_keeps_hook_state _ _ _ _ _ _ Hk)
    as (s' & Hstep & Hview & _ & _ & Hretry).
  exists s'. split; [exact Hstep |]. split; [exact Hview |]. split.
  - rewrite Hview. vm_compute. reflexivity.
  - apply (Hretry 2%nat).
    + rewrite Hview. vm_compute. lia.
    + rewrite Hview. vm_compute. reflexivity.
Defined.
